(** * Configuration nodes of IdentityEncoder: model and properties

    Shallow embedding of [model/enc/config_base.py] (class [BaseConfig] and
    the helper [jsonable]) and of [Activation.get_act] from
    [model/enc/choices.py].

    Python objects are mutable and shared, so Config Nodes live in a heap
    indexed by object identity; a field holding a nested node holds its
    identity, and two fields may hold the same one. *)

From Stdlib Require Import ZArith QArith Qcanon Ascii String Reals Qreals Lra.
From stdpp Require Import gmap strings list fin_maps.
Set Warnings "-register-all".

Open Scope string_scope.

(** ** Values *)

(** Identity of a [BaseConfig] instance. *)
Definition loc := nat.

(** What a field can hold. Containers of plain data are finite trees
    here, without identity; only Config Nodes are shared through the heap
    (for [clone], where the identity of every object matters, see the
    object store further down). A mapping has strings for keys. A float is
    carried by the text [json.dumps] writes for it: its shortest decimal
    repr, or [NaN], [Infinity], [-Infinity]; no arithmetic is ever done on
    it. [VOpaque] stands for any other object (an enum member, a
    constructed module, ...): [json.dumps] raises [TypeError] on it.
    [VCyclic] stands for a list that contains itself (after [l.append(l)]),
    which no finite tree can show: [json.dumps] raises [ValueError] on
    it. *)
Inductive value : Type :=
| VNone
| VBool (b : bool)
| VInt (n : Z)
| VFloat (repr : string)
| VStr (s : string)
| VList (xs : list value)
| VTuple (xs : list value)
| VDict (kvs : list (string * value))
| VOpaque (what : string)
| VConf (l : loc)
| VCyclic (what : string).

(** [isinstance(v, BaseConfig)] *)
Definition is_conf (v : value) : bool :=
  match v with VConf _ => true | _ => false end.

(** ** Dictionaries with insertion order *)

Fixpoint dict_get (k : string) (d : list (string * value)) : option value :=
  match d with
  | [] => None
  | (k', v) :: d' => if String.eqb k k' then Some v else dict_get k d'
  end.

(** [d[k] = v]: an existing key keeps its position, a new key goes last. *)
Fixpoint dict_set (k : string) (v : value) (d : list (string * value))
  : list (string * value) :=
  match d with
  | [] => [(k, v)]
  | (k', v') :: d' =>
      if String.eqb k k' then (k, v) :: d' else (k', v') :: dict_set k v d'
  end.

Definition keys (d : list (string * value)) : list string := map fst d.

Definition has_key (k : string) (d : list (string * value)) : bool :=
  match dict_get k d with Some _ => true | None => false end.

(** ** Objects and the heap *)

(** An instance: its [__dict__], and the names that resolve through its
    class (methods such as [clone] or [from_dict], class-level constants).
    [hasattr] sees both, [__dict__] only the first. *)
Record obj := Obj {
  type_attrs : list string;
  inst_dict : list (string * value)
}.

Abbreviation heap := (gmap loc obj).

Definition hasattr (o : obj) (k : string) : bool :=
  has_key k (inst_dict o) || bool_decide (k ∈ type_attrs o).

(** [getattr(x, k)] for a name of the instance dictionary (the only use in
    the source: [k] ranges over [another.__dict__.keys()]). *)
Definition getattr (h : heap) (x : loc) (k : string) : option value :=
  o ← h !! x; dict_get k (inst_dict o).

Definition setattr (h : heap) (x : loc) (k : string) (v : value)
  : option heap :=
  o ← h !! x;
  Some (<[x := Obj (type_attrs o) (dict_set k v (inst_dict o))]> h).

(** ** inherit *)

(** [set(self.__dict__.keys()) & set(another.__dict__.keys())]. Python
    leaves the iteration order of a set open; the loop below is run in the
    order of [self]'s keys, and [inherit_loop_order] shows that the order
    does not matter. *)
Definition common_keys (da db : list (string * value)) : list string :=
  List.filter (fun k => has_key k db) (keys da).

Fixpoint inherit_loop (ks : list string) (h : heap) (self another : loc)
  : option heap :=
  match ks with
  | [] => Some h
  | k :: ks' =>
      v ← getattr h another k;
      h' ← setattr h self k v;
      inherit_loop ks' h' self another
  end.

Definition inherit (h : heap) (self another : loc) : option heap :=
  a ← h !! self;
  b ← h !! another;
  inherit_loop (common_keys (inst_dict a) (inst_dict b)) h self another.

(** One turn of the loop of [inherit], on the dictionary of [self]. *)
Definition inherit_step (db d : list (string * value)) (k : string)
  : list (string * value) :=
  dict_set k (default VNone (dict_get k db)) d.

(** ** propagate *)

(** The loop of [propagate] over [self.__dict__.items()]. The dictionary
    view is live: each value is read when its key is reached, so a write
    made to [self] while a child is processed is seen by later steps.
    [rec] is the recursive call [v.propagate()]. *)
Fixpoint propagate_items (rec : heap → loc → option heap) (self : loc)
    (ks : list string) (h : heap) : option heap :=
  match ks with
  | [] => Some h
  | k :: ks' =>
      v ← getattr h self k;
      match v with
      | VConf c =>
          h1 ← inherit h c self;
          h2 ← rec h1 c;
          propagate_items rec self ks' h2
      | _ => propagate_items rec self ks' h
      end
  end.

(** [fuel] bounds the depth of the recursion; [None] with every [fuel] is
    Python's [RecursionError]. *)
Fixpoint propagate (fuel : nat) (h : heap) (self : loc) : option heap :=
  match fuel with
  | 0 => None
  | S n =>
      o ← h !! self;
      propagate_items (propagate n) self (keys (inst_dict o)) h
  end.

(** ** Exceptions *)

Inductive exn : Type :=
| ValueError (msg : string)
| KeyError (key : string)
| AttributeError
| TypeError
| NotImplementedError
| RecursionError
| JSONDecodeError
| FileNotFoundError
| FileExistsError
| IsADirectoryError
| NotADirectoryError
| PermissionError
| NoObject.

Inductive result (A : Type) : Type :=
| Ok (a : A)
| Raise (e : exn).
Arguments Ok {A} a.
Arguments Raise {A} e.

(** A loop that stops at the first exception. *)
Definition mapR {A B : Type} (f : A → result B) : list A → result (list B) :=
  fix go (l : list A) : result (list B) :=
    match l with
    | [] => Ok []
    | x :: l' =>
        match f x with
        | Raise e => Raise e
        | Ok y => match go l' with
                  | Raise e => Raise e
                  | Ok ys => Ok (y :: ys)
                  end
        end
    end.

(** ** JSON *)

(** The JSON data model. A file written by [json.dump] is kept as the
    document it denotes; printing to text and parsing it back are taken to
    be inverse to each other on documents. A number with a fraction or an
    exponent is kept as the float it is read as. *)
Inductive json : Type :=
| JNull
| JBool (b : bool)
| JInt (n : Z)
| JFloat (repr : string)
| JStr (s : string)
| JArr (xs : list json)
| JObj (kvs : list (string * json)).

(** An integer is converted to and from decimal text only when it has at
    most 4300 digits ([sys.get_int_max_str_digits()], the default of
    CPython 3.11 and later); beyond that the conversion raises
    [ValueError]. *)
Definition int_max_str_digits : nat := 4300.

Definition int_in_limit (n : Z) : bool :=
  (Z.abs n <? 10 ^ Z.of_nat int_max_str_digits)%Z.

Definition int_limit_msg : string :=
  "Exceeds the limit (4300 digits) for integer string conversion".

Definition circular_msg : string := "Circular reference detected".

(** [json.dumps]. Lists and tuples both become arrays. [depth] is what is
    left of the interpreter's recursion limit: every list, tuple or mapping
    entered takes one level. [TypeError] is raised on an object JSON has no
    form for, [ValueError] on a list that contains itself and on an integer
    beyond the digit limit, [RecursionError] when [depth] runs out; the
    first one met in the order of the traversal is the one raised. *)
Fixpoint dumps (depth : nat) (x : value) {struct x} : result json :=
  match x with
  | VNone => Ok JNull
  | VBool b => Ok (JBool b)
  | VInt n => if int_in_limit n then Ok (JInt n)
              else Raise (ValueError int_limit_msg)
  | VFloat r => Ok (JFloat r)
  | VStr s => Ok (JStr s)
  | VList xs | VTuple xs =>
      match depth with
      | 0 => Raise RecursionError
      | S d => match mapR (dumps d) xs with
               | Ok js => Ok (JArr js)
               | Raise e => Raise e
               end
      end
  | VDict kvs =>
      match depth with
      | 0 => Raise RecursionError
      | S d => match mapR (fun kv => match dumps d kv.2 with
                                     | Ok j => Ok (kv.1, j)
                                     | Raise e => Raise e
                                     end) kvs with
               | Ok js => Ok (JObj js)
               | Raise e => Raise e
               end
      end
  | VOpaque _ => Raise TypeError
  | VConf _ => Raise TypeError
  | VCyclic _ => Raise (ValueError circular_msg)
  end.

(** A mapping built entry by entry: a key met again keeps its place and
    takes the later value. *)
Definition dict_of_pairs (kvs : list (string * value))
  : list (string * value) :=
  foldl (fun d kv => dict_set kv.1 kv.2 d) [] kvs.

(** [json.loads]: an integer literal beyond the digit limit raises
    [ValueError]. *)
Fixpoint loads (j : json) : result value :=
  match j with
  | JNull => Ok VNone
  | JBool b => Ok (VBool b)
  | JInt n => if int_in_limit n then Ok (VInt n)
              else Raise (ValueError int_limit_msg)
  | JFloat r => Ok (VFloat r)
  | JStr s => Ok (VStr s)
  | JArr xs => match mapR loads xs with
               | Ok vs => Ok (VList vs)
               | Raise e => Raise e
               end
  | JObj kvs => match mapR (fun kv => match loads kv.2 with
                                      | Ok v => Ok (kv.1, v)
                                      | Raise e => Raise e
                                      end) kvs with
                | Ok es => Ok (VDict (dict_of_pairs es))
                | Raise e => Raise e
                end
  end.

(** [jsonable]: only [TypeError] is caught; any other exception of
    [json.dumps] leaves the function. *)
Definition jsonable (depth : nat) (x : value) : result bool :=
  match dumps depth x with
  | Ok _ => Ok true
  | Raise TypeError => Ok false
  | Raise e => Raise e
  end.

(** ** as_dict_jsonable *)

(** The loop over [self.__dict__.items()]; [rec] is the recursive call on a
    nested node, [depth] the recursion depth left for [jsonable]. *)
Fixpoint as_dict_items (rec : loc → result (list (string * value)))
    (depth : nat) (items : list (string * value))
    (conf : list (string * value)) : result (list (string * value)) :=
  match items with
  | [] => Ok conf
  | (k, v) :: rest =>
      match v with
      | VConf c =>
          match rec c with
          | Ok d => as_dict_items rec depth rest (dict_set k (VDict d) conf)
          | Raise e => Raise e
          end
      | _ =>
          match jsonable depth v with
          | Ok true => as_dict_items rec depth rest (dict_set k v conf)
          | Ok false => as_dict_items rec depth rest conf
          | Raise e => Raise e
          end
      end
  end.

(** [fuel] is what is left of the interpreter's recursion limit: each
    nested call takes one level, and [RecursionError] is raised when none
    is left. On a node that is nested in itself this happens with every
    [fuel]. *)
Fixpoint as_dict_jsonable (fuel : nat) (h : heap) (self : loc)
  : result (list (string * value)) :=
  match fuel with
  | 0 => Raise RecursionError
  | S n =>
      match h !! self with
      | None => Raise NoObject
      | Some o => as_dict_items (as_dict_jsonable n h) n (inst_dict o) []
      end
  end.

(** ** from_dict *)

(** The state [from_dict] works on: the heap and what was printed. *)
Record world := World { objects : heap; stdout : list string }.

Definition extra_msg (k : string) : string := "loading extra '" ++ k ++ "'".

Section from_dict_items.
(** [rec data child] is the nested call [self.__dict__[k].from_dict(v)],
    which passes no [strict]. *)
Variable rec : value → loc → world → result unit * world.

Fixpoint from_dict_items (self : loc) (strict : bool)
    (items : list (string * value)) (w : world) : result unit * world :=
  match items with
  | [] => (Ok tt, w)
  | (k, v) :: rest =>
      match objects w !! self with
      | None => (Raise NoObject, w)
      | Some o =>
          if negb (hasattr o k) then
            if strict then (Raise (ValueError (extra_msg k)), w)
            else from_dict_items self strict rest
                   (World (objects w) (stdout w ++ [extra_msg k]))
          else
            match dict_get k (inst_dict o) with
            | None => (Raise (KeyError k), w)
            | Some (VConf c) =>
                match rec v c w with
                | (Ok _, w') => from_dict_items self strict rest w'
                | (Raise e, w') => (Raise e, w')
                end
            | Some _ =>
                from_dict_items self strict rest
                  (World (<[self := Obj (type_attrs o)
                                      (dict_set k v (inst_dict o))]>
                            (objects w))
                         (stdout w))
            end
      end
  end.
End from_dict_items.

(** [dict.items()] exists on mappings only; the recursion follows the
    nesting of [dict]. *)
Fixpoint from_dict (dict : value) (self : loc) (strict : bool) (w : world)
  : result unit * world :=
  match dict with
  | VDict kvs =>
      from_dict_items (fun v c => from_dict v c false) self strict kvs w
  | _ => (Raise AttributeError, w)
  end.

(** ** The file system seen by save and load *)

Definition is_slash (c : ascii) : bool := Ascii.eqb c "/"%char.

Fixpoint upto_last_slash (cs : list ascii) : list ascii :=
  match cs with
  | [] => []
  | c :: cs' =>
      match upto_last_slash cs' with
      | [] => if is_slash c then [c] else []
      | r => c :: r
      end
  end.

Fixpoint lstrip_slash (cs : list ascii) : list ascii :=
  match cs with
  | [] => []
  | c :: cs' => if is_slash c then lstrip_slash cs' else cs
  end.

Definition rstrip_slash (cs : list ascii) : list ascii :=
  rev (lstrip_slash (rev cs)).

(** [os.path.split] of posixpath: the head is everything up to the last
    slash, with trailing slashes removed unless it consists of slashes
    only; the tail is what follows the last slash. *)
Definition split (p : string) : string * string :=
  let cs := list_ascii_of_string p in
  let head := upto_last_slash cs in
  (match rstrip_slash head with
   | [] => string_of_list_ascii head
   | stripped => string_of_list_ascii stripped
   end,
   string_of_list_ascii (drop (length head) cs)).

(** [os.path.dirname] *)
Definition dirname (p : string) : string := (split p).1.

(** The names between the slashes of a path, empty ones left out, as the
    kernel reads a path. [cur] collects the name being read. *)
Fixpoint names_of (cs : list ascii) (cur : string) : list string :=
  match cs with
  | [] => if String.eqb cur "" then [] else [cur]
  | c :: cs' =>
      if is_slash c
      then if String.eqb cur "" then names_of cs' ""
           else cur :: names_of cs' ""
      else names_of cs' (cur ++ String c "")
  end.

Definition absolute (p : string) : bool :=
  match p with
  | String c _ => is_slash c
  | EmptyString => false
  end.

(** The path ends in a slash. *)
Definition trailing (p : string) : bool :=
  match rev (list_ascii_of_string p) with
  | c :: _ => is_slash c
  | [] => false
  end.

(** What a file holds: a JSON document, or text that is none (an empty
    file, for one). *)
Inductive content : Type :=
| Doc (j : json)
| NoDoc.

(** A directory or a regular file, and whether the process may write to
    it (for a directory: create entries in it). *)
Inductive entry : Type :=
| EDir (writable : bool)
| EFile (writable : bool) (c : content).

(** A file system without symbolic or hard links, every directory of
    which may be searched: the entries by their place, which is the list
    of names leading to them from the root, and the working directory of
    the process. *)
Record fsys := Fs {
  tree : gmap (list string) entry;
  cwd : list string
}.

(** The directory above; the root is its own. *)
Definition parent (l : list string) : list string := removelast l.

(** Following [names] from the directory [cur], each of which has to lead
    to a directory. *)
Fixpoint walk (t : gmap (list string) entry) (cur : list string)
    (names : list string) : result (list string) :=
  match names with
  | [] => Ok cur
  | n :: rest =>
      if String.eqb n "." then walk t cur rest
      else if String.eqb n ".." then walk t (parent cur) rest
      else match t !! (cur ++ [n])%list with
           | Some (EDir _) => walk t (cur ++ [n])%list rest
           | Some (EFile _ _) => Raise NotADirectoryError
           | None => Raise FileNotFoundError
           end
  end.

(** Where a path leads: to an entry that exists, or to a name that is
    free in a directory that exists. *)
Inductive target : Type :=
| Existing (l : list string) (e : entry)
| Absent (dir : list string) (name : string).

Definition entry_at (fs : fsys) (l : list string) : result target :=
  match tree fs !! l with
  | Some e => Ok (Existing l e)
  | None => Raise FileNotFoundError
  end.

(** Path resolution: the empty path leads nowhere; all names but the last
    must lead to directories. *)
Definition lookup_path (fs : fsys) (p : string) : result target :=
  if String.eqb p "" then Raise FileNotFoundError
  else
    let names := names_of (list_ascii_of_string p) "" in
    match walk (tree fs) (if absolute p then [] else cwd fs)
               (removelast names) with
    | Raise e => Raise e
    | Ok dir =>
        match last names with
        | None => entry_at fs dir
        | Some n =>
            if String.eqb n "." then entry_at fs dir
            else if String.eqb n ".." then entry_at fs (parent dir)
            else match tree fs !! (dir ++ [n])%list with
                 | Some e => Ok (Existing (dir ++ [n])%list e)
                 | None => Ok (Absent dir n)
                 end
        end
    end.

(** [os.stat]: a regular file named with a trailing slash is refused. *)
Definition stat (fs : fsys) (p : string) : result (list string * entry) :=
  match lookup_path fs p with
  | Raise e => Raise e
  | Ok (Absent _ _) => Raise FileNotFoundError
  | Ok (Existing l (EFile w c)) =>
      if trailing p then Raise NotADirectoryError else Ok (l, EFile w c)
  | Ok (Existing l e) => Ok (l, e)
  end.

(** [os.path.exists]: whether [os.stat] succeeds. *)
Definition path_exists (fs : fsys) (p : string) : bool :=
  match stat fs p with Ok _ => true | Raise _ => false end.

Definition dir_writable (fs : fsys) (dir : list string) : bool :=
  match tree fs !! dir with
  | Some (EDir w) => w
  | _ => false
  end.

(** [os.mkdir] *)
Definition mkdir (fs : fsys) (p : string) : result fsys :=
  match lookup_path fs p with
  | Raise e => Raise e
  | Ok (Existing _ _) => Raise FileExistsError
  | Ok (Absent dir n) =>
      if dir_writable fs dir
      then Ok (Fs (<[(dir ++ [n])%list := EDir true]> (tree fs)) (cwd fs))
      else Raise PermissionError
  end.

(** [os.makedirs(name)], with the file system as it is left also when an
    exception is raised: the head of the path is created first when it is
    missing, a [FileExistsError] from that is passed over, and the leaf is
    made last, unless it is [.] under a head just created. The head is
    shorter than the path, so [fuel] can be its length. *)
Fixpoint makedirs_aux (fuel : nat) (fs : fsys) (name : string)
  : result unit * fsys :=
  let ht := split name in
  let ht := if String.eqb ht.2 "" then split ht.1 else ht in
  let leaf (fs0 : fsys) :=
    match mkdir fs0 name with
    | Ok fs' => (Ok tt, fs')
    | Raise e => (Raise e, fs0)
    end in
  if negb (String.eqb ht.1 "") && negb (String.eqb ht.2 "")
     && negb (path_exists fs ht.1)
  then match fuel with
       | 0 => (Raise RecursionError, fs)
       | S n =>
           match makedirs_aux n fs ht.1 with
           | (Ok _, fs1) | (Raise FileExistsError, fs1) =>
               if String.eqb ht.2 "." then (Ok tt, fs1) else leaf fs1
           | (Raise e, fs1) => (Raise e, fs1)
           end
       end
  else leaf fs.

Definition makedirs (fs : fsys) (name : string) : result unit * fsys :=
  makedirs_aux (String.length name) fs name.

(** [open(p, 'w')]: the file is created or emptied; the result is the
    file system and the place of the file that is now open. *)
Definition open_w (fs : fsys) (p : string)
  : result (fsys * list string) :=
  match lookup_path fs p with
  | Raise e => Raise e
  | Ok t =>
      if trailing p then Raise IsADirectoryError
      else match t with
           | Existing l (EDir _) => Raise IsADirectoryError
           | Existing l (EFile w _) =>
               if w then Ok (Fs (<[l := EFile true NoDoc]> (tree fs)) (cwd fs),
                             l)
               else Raise PermissionError
           | Absent dir n =>
               if dir_writable fs dir
               then Ok (Fs (<[(dir ++ [n])%list := EFile true NoDoc]>
                              (tree fs)) (cwd fs),
                        (dir ++ [n])%list)
               else Raise PermissionError
           end
  end.

(** Writing the document to the open file and closing it. *)
Definition write_doc (fs : fsys) (l : list string) (j : json) : fsys :=
  Fs (<[l := EFile true (Doc j)]> (tree fs)) (cwd fs).

(** [open(p)] followed by reading what the file holds. *)
Definition read_file (fs : fsys) (p : string) : result content :=
  match lookup_path fs p with
  | Raise e => Raise e
  | Ok (Absent _ _) => Raise FileNotFoundError
  | Ok (Existing _ (EDir _)) => Raise IsADirectoryError
  | Ok (Existing _ (EFile _ c)) =>
      if trailing p then Raise NotADirectoryError else Ok c
  end.

(** ** save and load *)

(** When [save] raises, what it has left on the file system is not
    recorded. *)
Definition save (fuel : nat) (fs : fsys) (h : heap) (self : loc)
    (save_path : string) : result fsys :=
  let dirname := dirname save_path in
  match (if negb (path_exists fs dirname) then makedirs fs dirname
         else (Ok tt, fs)) with
  | (Raise e, _) => Raise e
  | (Ok _, fs1) =>
      match as_dict_jsonable fuel h self with
      | Raise e => Raise e
      | Ok conf =>
          match open_w fs1 save_path with
          | Raise e => Raise e
          | Ok (fs2, f) =>
              match dumps fuel (VDict conf) with
              | Raise e => Raise e
              | Ok j => Ok (write_doc fs2 f j)
              end
          end
      end
  end.

Definition load (fs : fsys) (load_path : string) (self : loc) (w : world)
  : result unit * world :=
  match read_file fs load_path with
  | Raise e => (Raise e, w)
  | Ok NoDoc => (Raise JSONDecodeError, w)
  | Ok (Doc j) =>
      match loads j with
      | Raise e => (Raise e, w)
      | Ok conf => from_dict conf self false w
      end
  end.

(** From [fs] to [fs']: the same working directory, every entry still in
    its place, and nothing new but directories. *)
Definition extends (fs fs' : fsys) : Prop :=
  cwd fs' = cwd fs
  ∧ (∀ l e, tree fs !! l = Some e → tree fs' !! l = Some e)
  ∧ (∀ l e, tree fs' !! l = Some e →
            tree fs !! l = Some e ∨ e = EDir true).

(** ** Sample file systems *)

(** The process in its working directory [/work], which is empty. *)
Definition work_fs : fsys :=
  Fs (<[["work"] := EDir true]> {[ [] := EDir true ]}) ["work"].

(** The same with [out/c.json] written there. *)
Definition fs_with (doc : content) : fsys :=
  Fs (<[["work"; "out"; "c.json"] := EFile true doc]>
        (<[["work"; "out"] := EDir true]> (tree work_fs))) ["work"].

(** ** Activation.get_act *)

Inductive Activation : Type := none | relu | lrelu | silu | tanh.

(** What [get_act] can be called on: a member of [Activation], or any
    other object (the method can be reached as [Activation.get_act(x)]). *)
Inductive tag : Type :=
| Member (a : Activation)
| Foreign (what : string).

(** The modules of [torch.nn] built by [get_act], with their constructor
    arguments; the slope is a decimal fraction. *)
Inductive module : Type :=
| Identity
| ReLU
| LeakyReLU (negative_slope : Qc)
| SiLU
| Tanh.

(** [==] on enum members is identity. *)
Definition tag_eqb (x y : tag) : bool :=
  match x, y with
  | Member none, Member none => true
  | Member relu, Member relu => true
  | Member lrelu, Member lrelu => true
  | Member silu, Member silu => true
  | Member tanh, Member tanh => true
  | _, _ => false
  end.

Definition get_act (self : tag) : result module :=
  if tag_eqb self (Member none) then Ok Identity
  else if tag_eqb self (Member relu) then Ok ReLU
  else if tag_eqb self (Member lrelu) then Ok (LeakyReLU (Q2Qc (2 # 10)))
  else if tag_eqb self (Member silu) then Ok SiLU
  else if tag_eqb self (Member tanh) then Ok Tanh
  else Raise NotImplementedError.

(** The function each of these modules applies to every element of its
    input, over the reals (as documented for [torch.nn]). *)
Definition act_fn (m : module) (x : R) : R :=
  match m with
  | Identity => x
  | ReLU => Rmax 0 x
  | LeakyReLU slope => Rmax 0 x + Q2R slope * Rmin 0 x
  | SiLU => x / (1 + exp (- x))
  | Tanh => Rtrigo_def.tanh x
  end.

(** ** Sample configurations *)

(** Names every instance finds on its class: the methods of [BaseConfig]. *)
Definition base_attrs : list string :=
  ["clone"; "inherit"; "propagate"; "save"; "load"; "from_dict";
   "as_dict_jsonable"].

(** Two unrelated nodes sharing the field names [lr] and [seed]. *)
Definition pair_heap : heap :=
  <[1 := Obj base_attrs
           [("lr", VFloat "0.2"); ("name", VStr "net"); ("seed", VInt 7)]]>
  (<[2 := Obj base_attrs
            [("seed", VInt 0); ("lr", VFloat "0.1"); ("steps", VInt 100)]]> ∅).


(** A chain root (1), child (2), grandchild (3) in which root and child
    both keep their nested node in a field named [sub]. *)
Definition alias_heap : heap :=
  <[1 := Obj base_attrs [("lr", VFloat "0.1"); ("sub", VConf 2)]]>
  (<[2 := Obj base_attrs [("lr", VFloat "0.2"); ("sub", VConf 3)]]>
  (<[3 := Obj base_attrs [("lr", VFloat "0.3")]]> ∅)).

(** [alias_heap] once the child has inherited from the root: the child's
    [sub] now holds the child itself. *)
Definition alias_heap_inherited : heap :=
  <[2 := Obj base_attrs [("lr", VFloat "0.1"); ("sub", VConf 2)]]> alias_heap.

(** A chain root (1), child (2), grandchild (3) with distinct link names. *)
Definition chain_heap : heap :=
  <[1 := Obj base_attrs
           [("lr", VFloat "0.1"); ("child", VConf 2); ("seed", VInt 1)]]>
  (<[2 := Obj base_attrs
            [("lr", VFloat "0.2"); ("inner", VConf 3);
             ("shape", VTuple [VInt 1; VInt 2])]]>
  (<[3 := Obj base_attrs [("depth", VInt 4); ("lr", VFloat "0.3")]]> ∅)).


(** ** Shapes of a node's fields *)

(** No field holds a Config Node. *)
Definition plain_fields (d : list (string * value)) : bool :=
  forallb (fun kv => negb (is_conf kv.2)) d.

(** Field [k] holds the node [c], and no other field holds a node. *)
Definition sole_link (k : string) (c : loc) (d : list (string * value))
  : bool :=
  has_key k d
  && forallb (fun kv =>
                if String.eqb kv.1 k
                then match kv.2 with VConf c' => Nat.eqb c' c | _ => false end
                else negb (is_conf kv.2)) d.






(** A node with a representable field [a] and an opaque field [b], and a
    nested node with the same two. *)
Definition opaque_heap : heap :=
  <[1 := Obj base_attrs [("a", VInt 1); ("b", VOpaque "<object>")]]>
  (<[2 := Obj base_attrs
            [("net", VConf 1); ("act", VOpaque "Activation.silu");
             ("dims", VList [VInt 64; VInt 128])]]> ∅).



(** ** Induction over values *)

Section value_rect_nested.
Variable P : value → Prop.
Hypothesis HNone : P VNone.
Hypothesis HBool : ∀ b, P (VBool b).
Hypothesis HInt : ∀ n, P (VInt n).
Hypothesis HFloat : ∀ r, P (VFloat r).
Hypothesis HStr : ∀ s, P (VStr s).
Hypothesis HList : ∀ xs, Forall P xs → P (VList xs).
Hypothesis HTuple : ∀ xs, Forall P xs → P (VTuple xs).
Hypothesis HDict : ∀ kvs, Forall (fun kv => P kv.2) kvs → P (VDict kvs).
Hypothesis HOpaque : ∀ s, P (VOpaque s).
Hypothesis HConf : ∀ l, P (VConf l).
Hypothesis HCyclic : ∀ s, P (VCyclic s).

Fixpoint value_ind_nested (v : value) : P v :=
  match v with
  | VNone => HNone
  | VBool b => HBool b
  | VInt n => HInt n
  | VFloat r => HFloat r
  | VStr s => HStr s
  | VList xs =>
      HList xs ((fix go (l : list value) : Forall P l :=
                   match l with
                   | [] => @List.Forall_nil _ P
                   | x :: l' => @List.Forall_cons _ P x l' (value_ind_nested x) (go l')
                   end) xs)
  | VTuple xs =>
      HTuple xs ((fix go (l : list value) : Forall P l :=
                    match l with
                    | [] => @List.Forall_nil _ P
                    | x :: l' => @List.Forall_cons _ P x l' (value_ind_nested x) (go l')
                    end) xs)
  | VDict kvs =>
      HDict kvs ((fix go (l : list (string * value))
                    : Forall (fun kv => P kv.2) l :=
                    match l with
                    | [] => @List.Forall_nil _ _
                    | kv :: l' =>
                        @List.Forall_cons _ (fun kv => P kv.2) kv l'
                          (value_ind_nested kv.2) (go l')
                    end) kvs)
  | VOpaque s => HOpaque s
  | VConf l => HConf l
  | VCyclic s => HCyclic s
  end.
End value_rect_nested.

(** ** What from_dict leaves in place *)

(** From [h] to [h']: every object is still there under its identity, with
    the same class-level names, the same field names in the same order,
    and the same nested node in every field that held one. *)
Definition nodes_kept (h h' : heap) : Prop :=
  ∀ l o, h !! l = Some o →
    ∃ o', h' !! l = Some o'
          ∧ type_attrs o' = type_attrs o
          ∧ keys (inst_dict o') = keys (inst_dict o)
          ∧ ∀ k c, dict_get k (inst_dict o) = Some (VConf c) →
                   dict_get k (inst_dict o') = Some (VConf c).

(** A model (1) with a nested encoder (2); [version] is a constant of the
    model's class, not a field of the instance. *)
Definition model_heap : heap :=
  <[1 := Obj ("version" :: base_attrs)
           [("lr", VFloat "0.1"); ("enc", VConf 2); ("name", VStr "unet")]]>
  (<[2 := Obj base_attrs [("ch", VInt 64); ("depth", VInt 4)]]> ∅).



(** ** Comparing two configurations *)

(** The text of the float that is not a number, and of the two zeros. *)
Definition is_nan (repr : string) : bool := String.eqb repr "NaN".

Definition is_zero (repr : string) : bool :=
  String.eqb repr "0.0" || String.eqb repr "-0.0".

(** [a == b] on floats: NaN equals nothing, itself included; the two
    zeros are equal; otherwise floats are equal when their shortest reprs
    are. *)
Definition float_eqb (a b : string) : bool :=
  negb (is_nan a) && negb (is_nan b)
  && (String.eqb a b || (is_zero a && is_zero b)).

Section seq_eq.
Variable eq : value → value → option bool.

(** Elements are compared in turn up to the first pair that differs. *)
Fixpoint seq_eq (xs ys : list value) : option bool :=
  match xs, ys with
  | x :: xs', y :: ys' =>
      match eq x y with
      | Some true => seq_eq xs' ys'
      | r => r
      end
  | _, _ => Some true
  end.

(** Every entry of [l] is looked up in [kvs'] and compared with what is
    found there. *)
Fixpoint entries_eq (kvs' l : list (string * value)) : option bool :=
  match l with
  | [] => Some true
  | kv :: l' =>
      match dict_get kv.1 kvs' with
      | None => Some false
      | Some v' =>
          match eq kv.2 v' with
          | Some true => entries_eq kvs' l'
          | r => r
          end
      end
  end.
End seq_eq.

(** [x == y] as a container compares two of its elements: [Some b] when
    Python's answer is [b], [None] where the model does not determine it.
    Undetermined are: two NaN (the comparison of elements answers True
    for one and the same object, and values carry no identity here), an
    integer or boolean against a float (floats are not evaluated), and
    anything involving an object whose [__eq__] is not known ([VOpaque],
    a node, a list that contains itself). Lists and tuples are equal when
    of the same length with equal elements; a list never equals a tuple;
    mappings are equal when they have the same keys with equal values, in
    any order; [True == 1] and [False == 0]. *)
Fixpoint elem_eq (x y : value) {struct x} : option bool :=
  match x with
  | VNone =>
      match y with
      | VNone => Some true
      | VOpaque _ | VConf _ | VCyclic _ => None
      | _ => Some false
      end
  | VBool a =>
      match y with
      | VBool b => Some (Bool.eqb a b)
      | VInt n => Some (Z.eqb n (Z.b2z a))
      | VFloat r => if is_nan r then Some false else None
      | VOpaque _ | VConf _ | VCyclic _ => None
      | _ => Some false
      end
  | VInt n =>
      match y with
      | VInt m => Some (Z.eqb n m)
      | VBool b => Some (Z.eqb n (Z.b2z b))
      | VFloat r => if is_nan r then Some false else None
      | VOpaque _ | VConf _ | VCyclic _ => None
      | _ => Some false
      end
  | VFloat r =>
      match y with
      | VFloat r' => if is_nan r && is_nan r' then None
                     else Some (float_eqb r r')
      | VInt _ | VBool _ => if is_nan r then Some false else None
      | VOpaque _ | VConf _ | VCyclic _ => None
      | _ => Some false
      end
  | VStr a =>
      match y with
      | VStr b => Some (String.eqb a b)
      | VOpaque _ | VConf _ | VCyclic _ => None
      | _ => Some false
      end
  | VList xs =>
      match y with
      | VList ys => if Nat.eqb (length xs) (length ys)
                    then seq_eq elem_eq xs ys else Some false
      | VOpaque _ | VConf _ | VCyclic _ => None
      | _ => Some false
      end
  | VTuple xs =>
      match y with
      | VTuple ys => if Nat.eqb (length xs) (length ys)
                     then seq_eq elem_eq xs ys else Some false
      | VOpaque _ | VConf _ | VCyclic _ => None
      | _ => Some false
      end
  | VDict kvs =>
      match y with
      | VDict kvs' =>
          if Nat.eqb (length kvs) (length kvs')
          then entries_eq elem_eq kvs' kvs else Some false
      | VOpaque _ | VConf _ | VCyclic _ => None
      | _ => Some false
      end
  | VOpaque _ | VConf _ | VCyclic _ => None
  end.

(** [x == y] evaluated on two field values: as between elements, except
    that two floats are compared as floats whether or not they are one
    object, so that NaN differs from NaN. *)
Definition py_eq (x y : value) : option bool :=
  match x, y with
  | VFloat a, VFloat b => Some (float_eqb a b)
  | _, _ => elem_eq x y
  end.

(** [x == y] is known to be True. *)
Definition value_eqb (x y : value) : bool :=
  match py_eq x y with Some true => true | _ => false end.

(** Values that come back from a trip through JSON equal to what went in:
    null, booleans, integers, floats other than NaN, strings, and lists
    and mappings of these, a mapping having each key once. A tuple comes
    back as a list; NaN comes back as NaN, which is equal to nothing. *)
Fixpoint json_native (x : value) : bool :=
  match x with
  | VNone | VBool _ | VInt _ | VStr _ => true
  | VFloat r => negb (is_nan r)
  | VList xs => forallb json_native xs
  | VDict kvs =>
      bool_decide (NoDup (keys kvs)) && forallb (fun kv => json_native kv.2) kvs
  | VTuple _ | VOpaque _ | VConf _ | VCyclic _ => false
  end.

Section same_tree.
(** [leaf va vb] is what is asked of a pair of plain field values. *)
Variable leaf : value → value → bool.
Variables (h h2 : heap).

(** One field [fa] of the first node against the dictionary [db] of the
    second: a nested node must face a nested node, a plain value a plain
    value. The result lists the nodes met on the second side. *)
Definition tree_field (rec : loc → loc → option (list loc))
    (db : list (string * value)) (fa : string * value) : option (list loc) :=
  match fa.2, dict_get fa.1 db with
  | VConf ca, Some (VConf cb) => rec ca cb
  | VConf _, _ => None
  | va, Some vb => if negb (is_conf vb) && leaf va vb then Some [] else None
  | _, None => None
  end.

(** Node [a] of [h] and node [b] of [h2] have the same field names in the
    same order, each once, nested nodes in the same fields, and so on down
    to depth [n]; the plain values satisfy [leaf]. The result is the list
    of the nodes of [b]'s tree. *)
Fixpoint same_tree (n : nat) (a b : loc) : option (list loc) :=
  match n with
  | 0 => None
  | S m =>
      oa ← h !! a;
      ob ← h2 !! b;
      if bool_decide (keys (inst_dict oa) = keys (inst_dict ob)
                      ∧ NoDup (keys (inst_dict oa)))
      then nss ← mapM (tree_field (same_tree m) (inst_dict ob)) (inst_dict oa);
           Some (b :: concat nss)
      else None
  end.
End same_tree.

(** [b] is a tree shaped like [a] whose nodes are [ns], and the plain
    values of [a] are of JSON's data model. *)
Definition mirrors (n : nat) (h : heap) (a : loc) (h2 : heap) (b : loc)
  : option (list loc) :=
  same_tree (fun va _ => json_native va) h h2 n a b.

(** Every field of [b] equals the field of [a] of that name, nested nodes
    being compared field by field in turn. *)
Definition field_equal (n : nat) (h : heap) (a : loc) (h2 : heap) (b : loc)
  : bool :=
  match same_tree value_eqb h h2 n a b with Some _ => true | None => false end.

(** An original (1, with nested 2) whose [shape] is a tuple, and a freshly
    built instance of the same classes (3, with nested 4). *)
Definition tuple_heap : heap :=
  <[1 := Obj base_attrs
           [("lr", VFloat "0.1"); ("shape", VTuple [VInt 1; VInt 2]);
            ("enc", VConf 2)]]>
  (<[2 := Obj base_attrs [("ch", VInt 128)]]>
  (<[3 := Obj base_attrs
            [("lr", VFloat "0.001"); ("shape", VTuple [VInt 1; VInt 1]);
             ("enc", VConf 4)]]>
  (<[4 := Obj base_attrs [("ch", VInt 64)]]> ∅))).

(** The same with a list for [shape]. *)
Definition list_heap : heap :=
  <[1 := Obj base_attrs
           [("lr", VFloat "0.1"); ("shape", VList [VInt 1; VInt 2]);
            ("enc", VConf 2)]]>
  (<[2 := Obj base_attrs [("ch", VInt 128)]]>
  (<[3 := Obj base_attrs
            [("lr", VFloat "0.001"); ("shape", VList [VInt 1; VInt 1]);
             ("enc", VConf 4)]]>
  (<[4 := Obj base_attrs [("ch", VInt 64)]]> ∅))).


(** The same with a NaN among the fields. *)
Definition nan_heap : heap :=
  <[1 := Obj base_attrs [("lr", VFloat "NaN"); ("enc", VConf 2)]]>
  (<[2 := Obj base_attrs [("ch", VInt 128)]]>
  (<[3 := Obj base_attrs [("lr", VFloat "0.001"); ("enc", VConf 4)]]>
  (<[4 := Obj base_attrs [("ch", VInt 64)]]> ∅))).

(** A result without its exception. *)
Definition ok_of {A : Type} (r : result A) : option A :=
  match r with Ok a => Some a | Raise _ => None end.

(** The serialization of a node, where there is one. *)
Definition serialized (m : nat) (h : heap) (c : loc)
  : option (list (string * value)) :=
  ok_of (as_dict_jsonable m h c).

(** The entry [as_dict_jsonable] writes for a field that it keeps. *)
Definition ser_field (rec : loc → option (list (string * value)))
    (fa : string * value) : option (string * value) :=
  match fa.2 with
  | VConf c => d ← rec c; Some (fa.1, VDict d)
  | v => Some (fa.1, v)
  end.
Arguments ser_field : simpl never.


(** A model (1) holding the same encoder (2) twice, once inside a list,
    and the encoder pointing back at the model. *)
Definition shared_heap : heap :=
  <[1 := Obj base_attrs
           [("enc", VConf 2); ("stages", VList [VConf 2; VInt 3]);
            ("lr", VFloat "0.1")]]>
  (<[2 := Obj base_attrs [("owner", VConf 1); ("ch", VInt 64)]]> ∅).


(** ** The object store, for clone *)

(** [copy.deepcopy] goes by the type and the identity of every object it
    meets, so for [clone] every mutable object has its place in a store,
    and a field holds an immutable value or the identity of an object. A
    tuple is immutable and is a value here: whether [deepcopy] returns the
    tuple itself (as it does when all its elements are their own copies)
    or a new one, only [is] can tell. *)
Inductive pyval : Type :=
| PNone
| PBool (b : bool)
| PInt (n : Z)
| PFloat (repr : string)
| PStr (s : string)
| PTuple (xs : list pyval)
| PRef (l : loc).

(** The objects of the store: lists; mappings, with strings for keys; the
    instances of a dataclass derived from [BaseConfig], with the name of
    their class (the fields of the dataclass are the entries of their
    [__dict__]); the instances of another class that defines none of
    [__deepcopy__], [__reduce_ex__], [__eq__]; the objects [deepcopy]
    returns as they are, which equal nothing but themselves (the members
    of an [Enum], functions, classes); and the objects whose
    [__reduce_ex__] raises [TypeError] (generators, locks, open files,
    modules). The [__dict__] of an instance is not itself held by a
    field. *)
Inductive cell : Type :=
| CList (xs : list pyval)
| CDict (kvs : list (string * pyval))
| CConf (cls : string) (fields : list (string * pyval))
| CPlain (cls : string) (fields : list (string * pyval))
| CAtom (what : string)
| CUncopyable (what : string).

Abbreviation store := (gmap loc cell).

(** The memo of [deepcopy], from the identity of an object to that of its
    copy, and the store. *)
Definition copy_state := (gmap loc loc * store)%type.

Section copy_seq.
Context {A B : Type}.
Variable copy : A → copy_state → result (B * copy_state).

(** Copying one element after the other, up to the first exception. *)
Fixpoint copy_seq (xs : list A) (s : copy_state)
  : result (list B * copy_state) :=
  match xs with
  | [] => Ok ([], s)
  | x :: xs' =>
      match copy x s with
      | Raise e => Raise e
      | Ok (y, s1) =>
          match copy_seq xs' s1 with
          | Raise e => Raise e
          | Ok (ys, s2) => Ok (y :: ys, s2)
          end
      end
  end.
End copy_seq.

(** [y[deepcopy(key, memo)] = deepcopy(value, memo)], the key being a
    string, which is its own copy. *)
Definition copy_entry
    (copy : pyval → copy_state → result (pyval * copy_state))
    (kv : string * pyval) (s : copy_state)
  : result ((string * pyval) * copy_state) :=
  match copy kv.2 s with
  | Raise e => Raise e
  | Ok (y, s') => Ok ((kv.1, y), s')
  end.

(** [copy.deepcopy(x, memo)]. An object found in the memo is answered
    from there. Immutable values and the objects of an atomic type are
    their own copies. A list or a mapping is created empty, entered in the
    memo and then filled with the copies of its elements. An instance
    goes through [__reduce_ex__(4)] and [_reconstruct]: an instance of its
    class is made by [__new__], entered in the memo, and updated with the
    copy of the [__dict__]. The new object takes an identity not in use.
    Every call uses one level of the recursion limit [fuel]. *)
Fixpoint deepcopy (fuel : nat) (x : pyval) (s : copy_state)
  : result (pyval * copy_state) :=
  match fuel with
  | 0 => Raise RecursionError
  | S n =>
      match x with
      | PTuple xs =>
          match copy_seq (deepcopy n) xs s with
          | Raise e => Raise e
          | Ok (ys, s') => Ok (PTuple ys, s')
          end
      | PRef l =>
          match s.1 !! l with
          | Some l' => Ok (PRef l', s)
          | None =>
              let l' := fresh (dom s.2) in
              match s.2 !! l with
              | None => Raise NoObject
              | Some (CAtom _) => Ok (PRef l, s)
              | Some (CUncopyable _) => Raise TypeError
              | Some (CList xs) =>
                  match copy_seq (deepcopy n) xs
                          (<[l := l']> s.1, <[l' := CList []]> s.2) with
                  | Raise e => Raise e
                  | Ok (ys, s') =>
                      Ok (PRef l', (s'.1, <[l' := CList ys]> s'.2))
                  end
              | Some (CDict kvs) =>
                  match copy_seq (copy_entry (deepcopy n)) kvs
                          (<[l := l']> s.1, <[l' := CDict []]> s.2) with
                  | Raise e => Raise e
                  | Ok (kvs', s') =>
                      Ok (PRef l', (s'.1, <[l' := CDict kvs']> s'.2))
                  end
              | Some (CConf cls fields) =>
                  match copy_seq (copy_entry (deepcopy n)) fields
                          (<[l := l']> s.1, <[l' := CConf cls []]> s.2) with
                  | Raise e => Raise e
                  | Ok (fields', s') =>
                      Ok (PRef l', (s'.1, <[l' := CConf cls fields']> s'.2))
                  end
              | Some (CPlain cls fields) =>
                  match copy_seq (copy_entry (deepcopy n)) fields
                          (<[l := l']> s.1, <[l' := CPlain cls []]> s.2) with
                  | Raise e => Raise e
                  | Ok (fields', s') =>
                      Ok (PRef l', (s'.1, <[l' := CPlain cls fields']> s'.2))
                  end
              end
          end
      | _ => Ok (x, s)
      end
  end.

(** [clone]: [deepcopy(self)], with an empty memo. The result is the copy
    and the store it is in. *)
Definition clone (fuel : nat) (st : store) (self : loc)
  : result (pyval * store) :=
  match deepcopy fuel (PRef self) (∅, st) with
  | Raise e => Raise e
  | Ok (y, s) => Ok (y, s.2)
  end.

(** *** Equality of objects *)

(** Lookup in a mapping or in the [__dict__] of an instance. *)
Fixpoint entry_get (k : string) (d : list (string * pyval)) : option pyval :=
  match d with
  | [] => None
  | (k', v) :: d' => if String.eqb k k' then Some v else entry_get k d'
  end.

Definition names (d : list (string * pyval)) : list string := map fst d.

Section seq_equal.
Variable eq : pyval → pyval → option bool.

(** Elements are compared in turn up to the first pair that differs. *)
Fixpoint seq_equal (xs ys : list pyval) : option bool :=
  match xs, ys with
  | x :: xs', y :: ys' =>
      match eq x y with
      | Some true => seq_equal xs' ys'
      | r => r
      end
  | _, _ => Some true
  end.

(** Every entry of [l] is looked up in [kvs'] and compared with what is
    found there. *)
Fixpoint entries_equal (kvs' l : list (string * pyval)) : option bool :=
  match l with
  | [] => Some true
  | kv :: l' =>
      match entry_get kv.1 kvs' with
      | None => Some false
      | Some v' =>
          match eq kv.2 v' with
          | Some true => entries_equal kvs' l'
          | r => r
          end
      end
  end.
End seq_equal.

(** [x == y] in the store [st]: [Some b] when Python's answer is [b],
    [None] when the comparison exceeds the recursion limit [fuel] or its
    answer is not determined here. With [elem] the comparison is the one a
    container makes between two of its elements, which answers True for
    one and the same object before it asks [==].

    NaN differs from everything, itself included; between elements two
    NaN are not determined (values carry no identity), nor is an integer
    or a boolean against a float (floats are not evaluated). Tuples and
    lists are equal when of the same length with equal elements, mappings
    when they have the same keys with equal values. Two instances of the
    same dataclass are equal when the tuples of their fields are (not
    determined when they do not have the same fields). Any other object
    equals itself only. *)
Fixpoint py_equal (fuel : nat) (st : store) (elem : bool) (x y : pyval)
  : option bool :=
  match fuel with
  | 0 => None
  | S n =>
      match x, y with
      | PNone, PNone => Some true
      | PBool a, PBool b => Some (Bool.eqb a b)
      | PBool a, PInt m => Some (Z.eqb (Z.b2z a) m)
      | PInt m, PBool b => Some (Z.eqb m (Z.b2z b))
      | PInt m, PInt m' => Some (Z.eqb m m')
      | PBool _, PFloat r | PInt _, PFloat r
      | PFloat r, PBool _ | PFloat r, PInt _ =>
          if is_nan r then Some false else None
      | PFloat r, PFloat r' =>
          if elem && is_nan r && is_nan r' then None
          else Some (float_eqb r r')
      | PStr a, PStr b => Some (String.eqb a b)
      | PTuple xs, PTuple ys =>
          if Nat.eqb (length xs) (length ys)
          then seq_equal (py_equal n st true) xs ys
          else Some false
      | PRef a, PRef b =>
          if elem && Nat.eqb a b then Some true
          else
            match st !! a, st !! b with
            | Some (CList xs), Some (CList ys) =>
                if Nat.eqb (length xs) (length ys)
                then seq_equal (py_equal n st true) xs ys
                else Some false
            | Some (CDict kvs), Some (CDict kvs') =>
                if Nat.eqb (length kvs) (length kvs')
                then entries_equal (py_equal n st true) kvs' kvs
                else Some false
            | Some (CConf cls fs), Some (CConf cls' fs') =>
                if String.eqb cls cls'
                then if bool_decide (names fs = names fs')
                     then entries_equal (py_equal n st true) fs' fs
                     else None
                else Some false
            | Some _, Some _ => Some (Nat.eqb a b)
            | _, _ => None
            end
      | PRef a, _ =>
          match st !! a with Some _ => Some false | None => None end
      | _, PRef b =>
          match st !! b with Some _ => Some false | None => None end
      | _, _ => Some false
      end
  end.

(** *** What a deep copy is *)

(** The objects a value refers to. *)
Fixpoint refs (x : pyval) : list loc :=
  match x with
  | PTuple xs => concat (map refs xs)
  | PRef l => [l]
  | _ => []
  end.

(** How deep tuples are nested in a value. *)
Fixpoint height (x : pyval) : nat :=
  match x with
  | PTuple xs => S (foldr (fun x m => Nat.max (height x) m) 0 xs)
  | _ => 0
  end.

(** The value with every reference to a copied object replaced by the
    reference to the copy. *)
Fixpoint rename (m : gmap loc loc) (x : pyval) : pyval :=
  match x with
  | PTuple xs => PTuple (map (rename m) xs)
  | PRef l => PRef (default l (m !! l))
  | _ => x
  end.

(** The values an object holds. *)
Definition children (c : cell) : list pyval :=
  match c with
  | CList xs => xs
  | CDict kvs | CConf _ kvs | CPlain _ kvs => map snd kvs
  | CAtom _ | CUncopyable _ => []
  end.

Definition cell_refs (c : cell) : list loc := concat (map refs (children c)).

Definition rename_entries (m : gmap loc loc) (kvs : list (string * pyval))
  : list (string * pyval) :=
  map (fun kv => (kv.1, rename m kv.2)) kvs.

(** The object with every value it holds renamed. *)
Definition rename_cell (m : gmap loc loc) (c : cell) : cell :=
  match c with
  | CList xs => CList (map (rename m) xs)
  | CDict kvs => CDict (rename_entries m kvs)
  | CConf cls kvs => CConf cls (rename_entries m kvs)
  | CPlain cls kvs => CPlain cls (rename_entries m kvs)
  | CAtom _ | CUncopyable _ => c
  end.

(** The object with the values it holds replaced by [ys]. *)
Definition with_children (c : cell) (ys : list pyval) : cell :=
  match c with
  | CList _ => CList ys
  | CDict kvs => CDict (zip (map fst kvs) ys)
  | CConf cls kvs => CConf cls (zip (map fst kvs) ys)
  | CPlain cls kvs => CPlain cls (zip (map fst kvs) ys)
  | CAtom _ | CUncopyable _ => c
  end.

(** The objects [deepcopy] builds anew. *)
Definition rebuilt (c : cell) : bool :=
  match c with
  | CList _ | CDict _ | CConf _ _ | CPlain _ _ => true
  | CAtom _ | CUncopyable _ => false
  end.

Definition copyable (c : cell) : bool :=
  match c with CUncopyable _ => false | _ => true end.

(** The set [A] of objects is closed under reference, holds nothing that
    cannot be copied, and tuples are nested at most [H] deep in what its
    objects hold. *)
Definition region (st : store) (A : gset loc) (H : nat) : Prop :=
  ∀ l, l ∈ A →
       ∃ c, st !! l = Some c
            ∧ copyable c = true
            ∧ (∀ r, r ∈ cell_refs c → r ∈ A)
            ∧ Forall (fun x => (height x ≤ H)%nat) (children c).

(** The reference [r] is to a copied object or to one that is its own
    copy. *)
Definition covered (st : store) (m : gmap loc loc) (r : loc) : Prop :=
  is_Some (m !! r) ∨ ∃ what, st !! r = Some (CAtom what).

(** The copy of [c] under [m] is complete at [l']. *)
Definition copied (st : store) (m : gmap loc loc) (st' : store) (c : cell)
    (l' : loc) : Prop :=
  st' !! l' = Some (rename_cell m c)
  ∧ ∀ r, r ∈ cell_refs c → covered st m r.

(** The state of a deep copy of objects of [st] under way: the objects of
    [st] are as they were; the copies sit at identities [st] does not
    use, and are copies of objects of [A] that are built anew; no two
    objects share a copy; every object entered in the memo that is not
    being worked on (not in [pending]) has its complete copy; and nothing
    else is in the store. *)
Definition copy_inv (st : store) (A pending : gset loc) (s : copy_state)
  : Prop :=
  (∀ l c, st !! l = Some c → s.2 !! l = Some c)
  ∧ (∀ l l', s.1 !! l = Some l' →
             st !! l' = None ∧ is_Some (s.2 !! l') ∧ l ∈ A
             ∧ ∃ c, st !! l = Some c ∧ rebuilt c = true)
  ∧ (∀ l1 l2 l', s.1 !! l1 = Some l' → s.1 !! l2 = Some l' → l1 = l2)
  ∧ (∀ l l' c, s.1 !! l = Some l' → l ∉ pending → st !! l = Some c →
               copied st s.1 s.2 c l')
  ∧ (∀ l, is_Some (s.2 !! l) →
          is_Some (st !! l) ∨ ∃ l0, s.1 !! l0 = Some l).

(** [deepcopy] copies [x] as a deep copy should: from a state as above,
    with a recursion limit that covers the tuples of [x] and the objects
    of [A] not yet in the memo, it returns, the memo only grows, the
    state is again as above, the result is [x] renamed, and every object
    [x] refers to is copied or its own copy. *)
Definition copies_well (st : store) (A : gset loc) (H : nat)
    (pending : gset loc) (fuel : nat) (x : pyval) : Prop :=
  ∀ s, copy_inv st A pending s →
       (∀ r, r ∈ refs x → r ∈ A) →
       (height x + size (A ∖ dom s.1) * S H < fuel)%nat →
       ∃ y s', deepcopy fuel x s = Ok (y, s')
               ∧ s.1 ⊆ s'.1
               ∧ copy_inv st A pending s'
               ∧ y = rename s'.1 x
               ∧ ∀ r, r ∈ refs x → covered st s'.1 r.

(** Values that [==] finds equal to their copies, within [n] levels of
    comparison: no NaN, no object that equals itself only unless it is
    its own copy, every key once. *)
Fixpoint comparable (n : nat) (st : store) (x : pyval) : bool :=
  match n with
  | 0 => false
  | S k =>
      match x with
      | PFloat r => negb (is_nan r)
      | PTuple xs => forallb (comparable k st) xs
      | PRef l =>
          match st !! l with
          | Some (CList xs) => forallb (comparable k st) xs
          | Some (CDict kvs) | Some (CConf _ kvs) =>
              bool_decide (NoDup (names kvs))
              && forallb (fun kv => comparable k st kv.2) kvs
          | Some (CAtom _) => true
          | _ => false
          end
      | _ => true
      end
  end.

Section pyval_ind_nested.
Variable P : pyval → Prop.
Hypothesis HNone : P PNone.
Hypothesis HBool : ∀ b, P (PBool b).
Hypothesis HInt : ∀ n, P (PInt n).
Hypothesis HFloat : ∀ r, P (PFloat r).
Hypothesis HStr : ∀ s, P (PStr s).
Hypothesis HTuple : ∀ xs, Forall P xs → P (PTuple xs).
Hypothesis HRef : ∀ l, P (PRef l).

Fixpoint pyval_ind_nested (v : pyval) : P v :=
  match v with
  | PNone => HNone
  | PBool b => HBool b
  | PInt n => HInt n
  | PFloat r => HFloat r
  | PStr s => HStr s
  | PTuple xs =>
      HTuple xs ((fix go (l : list pyval) : Forall P l :=
                    match l with
                    | [] => @List.Forall_nil _ P
                    | x :: l' =>
                        @List.Forall_cons _ P x l' (pyval_ind_nested x) (go l')
                    end) xs)
  | PRef l => HRef l
  end.
End pyval_ind_nested.

(** *** Sample stores *)

(** The fields of a configuration with a tuple, a list, a member of an
    enumeration and a nested configuration that two fields share, one of
    them through a list. *)
Definition sample_fields : list (string * pyval) :=
  [("lr", PFloat "0.1"); ("attn", PTuple [PInt 16; PInt 8]);
   ("dims", PRef 2); ("mode", PRef 3); ("enc", PRef 4); ("parts", PRef 5)].

Definition sample_store : store :=
  <[1 := CConf "TrainConfig" sample_fields]>
  (<[2 := CList [PInt 64; PInt 128]]>
  (<[3 := CAtom "TrainMode.diffusion"]>
  (<[4 := CConf "EncConfig" [("ch", PInt 128); ("mode", PRef 3)]]>
  (<[5 := CList [PRef 4; PTuple [PRef 2]]]> ∅)))).

(** Configurations that hold a generator (1), NaN (2), an instance of a
    class without [__eq__] (3) and a function (5). *)
Definition odd_store : store :=
  <[1 := CConf "C" [("a", PInt 1); ("data", PRef 9)]]>
  (<[2 := CConf "C" [("lr", PFloat "NaN")]]>
  (<[3 := CConf "C" [("opt", PRef 4)]]>
  (<[4 := CPlain "Options" [("depth", PInt 2)]]>
  (<[5 := CConf "C" [("act", PRef 6)]]>
  (<[6 := CAtom "function silu"]>
  (<[9 := CUncopyable "generator"]> ∅)))))).

(** ** The mode enumerations of choices.py *)

(** [self in [a, b, ...]] on enum members, which compare by identity. *)
Definition member_in {A : Type} (eqb : A → A → bool) (self : A) (l : list A)
  : bool :=
  existsb (eqb self) l.

Module TrainMode.
Inductive t : Type := manipulate | diffusion | latent_diffusion.

Definition value (m : t) : string :=
  match m with
  | manipulate => "manipulate"
  | diffusion => "diffusion"
  | latent_diffusion => "latentdiffusion"
  end.

Definition eqb (x y : t) : bool :=
  match x, y with
  | manipulate, manipulate => true
  | diffusion, diffusion => true
  | latent_diffusion, latent_diffusion => true
  | _, _ => false
  end.

Definition is_manipulate (self : t) : bool :=
  member_in eqb self [manipulate].

Definition is_diffusion (self : t) : bool :=
  member_in eqb self [diffusion; latent_diffusion].

Definition is_autoenc (self : t) : bool :=
  member_in eqb self [diffusion].

Definition is_latent_diffusion (self : t) : bool :=
  member_in eqb self [latent_diffusion].

Definition use_latent_net (self : t) : bool := is_latent_diffusion self.

Definition require_dataset_infer (self : t) : bool :=
  member_in eqb self [latent_diffusion; manipulate].

(** The members in the order of their definition, and [TrainMode(v)], the
    lookup of a member by its value ([None] for Python's [ValueError]). *)
Definition members : list t := [manipulate; diffusion; latent_diffusion].

Definition of_value (v : string) : option t :=
  List.find (fun m => String.eqb (value m) v) members.
End TrainMode.

Module ManipulateMode.
Inductive t : Type := celebahq_all | d2c_fewshot | d2c_fewshot_allneg.

Definition value (m : t) : string :=
  match m with
  | celebahq_all => "celebahq_all"
  | d2c_fewshot => "d2cfewshot"
  | d2c_fewshot_allneg => "d2cfewshotallneg"
  end.

Definition eqb (x y : t) : bool :=
  match x, y with
  | celebahq_all, celebahq_all => true
  | d2c_fewshot, d2c_fewshot => true
  | d2c_fewshot_allneg, d2c_fewshot_allneg => true
  | _, _ => false
  end.

Definition is_celeba_attr (self : t) : bool :=
  member_in eqb self [d2c_fewshot; d2c_fewshot_allneg; celebahq_all].

Definition is_single_class (self : t) : bool :=
  member_in eqb self [d2c_fewshot; d2c_fewshot_allneg].

Definition is_fewshot (self : t) : bool :=
  member_in eqb self [d2c_fewshot; d2c_fewshot_allneg].

Definition is_fewshot_allneg (self : t) : bool :=
  member_in eqb self [d2c_fewshot_allneg].

Definition members : list t :=
  [celebahq_all; d2c_fewshot; d2c_fewshot_allneg].

Definition of_value (v : string) : option t :=
  List.find (fun m => String.eqb (value m) v) members.
End ManipulateMode.

Module ModelType.
Inductive t : Type := ddpm | autoencoder.

Definition eqb (x y : t) : bool :=
  match x, y with
  | ddpm, ddpm => true
  | autoencoder, autoencoder => true
  | _, _ => false
  end.

Definition has_autoenc (self : t) : bool := member_in eqb self [autoencoder].

Definition can_sample (self : t) : bool := member_in eqb self [ddpm].
End ModelType.


(** ** Relations between heaps and between nodes *)

(** From [h] to [h']: the same objects under the same identities, each
    with the class-level names and the field names it had. *)
Definition schemas_kept (h h' : heap) : Prop :=
  (∀ l o, h !! l = Some o →
     ∃ o', h' !! l = Some o'
           ∧ type_attrs o' = type_attrs o
           ∧ keys (inst_dict o') = keys (inst_dict o))
  ∧ (∀ l, h !! l = None → h' !! l = None).

(** Node [l] holds node [c] in one of its fields. *)
Definition holds_node (h : heap) (l c : loc) : Prop :=
  ∃ o k, h !! l = Some o ∧ (k, VConf c) ∈ inst_dict o.




(** From [w] to [w']: what was printed is still there, followed by
    "loading extra" lines only. *)
Definition only_diagnostics (w w' : world) : Prop :=
  ∃ out, stdout w' = (stdout w ++ out)%list
         ∧ Forall (fun line => ∃ k, line = extra_msg k) out.


(** Every node held by a field of [dr], the dictionary of node [r], is
    another node, holds no node itself, and declares no field under a name
    where [dr] holds a node. *)
Definition leaf_children (h : heap) (r : loc) (dr : list (string * value))
  : bool :=
  forallb (fun kv =>
             match kv.2 with
             | VConf c =>
                 negb (Nat.eqb c r)
                 && match h !! c with
                    | Some oc =>
                        plain_fields (inst_dict oc)
                        && forallb (fun kc =>
                                      match dict_get kc.1 dr with
                                      | Some (VConf _) => false
                                      | _ => true
                                      end) (inst_dict oc)
                    | None => false
                    end
             | _ => true
             end) dr.

(** [oc'] is [oc] after inheriting from a node with dictionary [dr]. *)
Definition inherited_from (dr : list (string * value)) (oc oc' : obj)
  : Prop :=
  type_attrs oc' = type_attrs oc
  ∧ keys (inst_dict oc') = keys (inst_dict oc)
  ∧ ∀ x, dict_get x (inst_dict oc') =
         if has_key x (inst_dict oc) && has_key x dr
         then dict_get x dr else dict_get x (inst_dict oc).

(** The heaps [hc] met while the children of node [r] of [h] are visited:
    the node is as it was, and every object is as it was or is a child
    that has inherited from the node. *)
Definition star_inv (h : heap) (r : loc) (o_r : obj) (hc : heap) : Prop :=
  hc !! r = Some o_r
  ∧ ∀ l ol, h !! l = Some ol →
      hc !! l = Some ol
      ∨ ((∃ k, dict_get k (inst_dict o_r) = Some (VConf l))
         ∧ ∃ ol', hc !! l = Some ol'
                  ∧ inherited_from (inst_dict o_r) ol ol').

(** A root (1) with two nested leaves (2, 3), one of them held twice. *)
Definition star_heap : heap :=
  <[1 := Obj base_attrs
           [("lr", VFloat "0.1"); ("enc", VConf 2); ("seed", VInt 7);
            ("dec", VConf 3); ("ema", VConf 2)]]>
  (<[2 := Obj base_attrs [("ch", VInt 64); ("lr", VFloat "0.5")]]>
  (<[3 := Obj base_attrs [("seed", VInt 0); ("lr", VFloat "0.2")]]> ∅)).

(** * Properties *)

(** ** Dictionaries *)

Lemma dict_get_set_eq k v d : dict_get k (dict_set k v d) = Some v.
Proof.
  induction d as [|[k' v'] d IH]; simpl.
  - by rewrite String.eqb_refl.
  - destruct (String.eqb k k') eqn:E; simpl; by rewrite ?E, ?String.eqb_refl.
Qed.

Lemma dict_get_set_ne k k' v d :
  k ≠ k' → dict_get k' (dict_set k v d) = dict_get k' d.
Proof.
  intros Hne. induction d as [|[k0 v0] d IH]; simpl.
  - destruct (String.eqb_spec k' k); congruence.
  - destruct (String.eqb_spec k k0) as [->|]; simpl.
    + destruct (String.eqb_spec k' k0); congruence.
    + by rewrite IH.
Qed.

Lemma dict_set_id k v d : dict_get k d = Some v → dict_set k v d = d.
Proof.
  induction d as [|[k' v'] d IH]; simpl; [done|].
  destruct (String.eqb_spec k k') as [->|]; intros H.
  - congruence.
  - by rewrite IH.
Qed.

Lemma has_key_elem k d : has_key k d = true ↔ k ∈ keys d.
Proof.
  unfold has_key, keys. induction d as [|[k' v'] d IH]; simpl.
  - split; [done | intros H; inversion H].
  - destruct (String.eqb_spec k k') as [->|Hne].
    + split; [intros _; left | done].
    + rewrite IH. split; [by right | intros H].
      apply elem_of_cons in H as [?|?]; [done | done].
Qed.

Lemma has_key_false k d : has_key k d = false ↔ k ∉ keys d.
Proof.
  rewrite <- has_key_elem. destruct (has_key k d); naive_solver.
Qed.

Lemma has_key_get k d : has_key k d = true ↔ is_Some (dict_get k d).
Proof.
  unfold has_key. destruct (dict_get k d); split; try done.
Qed.

Lemma keys_dict_set k v d : has_key k d = true → keys (dict_set k v d) = keys d.
Proof.
  unfold has_key, keys. induction d as [|[k' v'] d IH]; simpl; [done|].
  destruct (String.eqb_spec k k') as [->|]; simpl; [done|].
  intros H. by rewrite IH.
Qed.

Lemma has_key_dict_set k k' v d :
  has_key k' (dict_set k v d) = has_key k' d || String.eqb k k'.
Proof.
  unfold has_key. destruct (String.eqb_spec k k') as [->|Hne].
  - rewrite dict_get_set_eq. by rewrite orb_true_r.
  - rewrite dict_get_set_ne by done. by rewrite orb_false_r.
Qed.

(** Two dictionaries with the same keys in the same order and the same
    lookups are the same, keys being unique. *)
Lemma dict_ext d d' :
  NoDup (keys d) → keys d = keys d' →
  (∀ k, dict_get k d = dict_get k d') → d = d'.
Proof.
  revert d'. induction d as [|[k v] d IH]; intros [|[k' v'] d'];
    simpl; try done.
  intros Hnd [= <- Hk] Hget. apply NoDup_cons in Hnd as [Hnotin Hnd].
  pose proof (Hget k) as Hk0. simpl in Hk0. rewrite String.eqb_refl in Hk0.
  injection Hk0 as <-. f_equal. apply IH; [done..|].
  intros k0. specialize (Hget k0). simpl in Hget.
  destruct (String.eqb_spec k0 k) as [Heq|]; [subst k0|done].
  assert (has_key k d = false) as H1 by by apply has_key_false.
  assert (has_key k d' = false) as H2 by (apply has_key_false; by rewrite <- Hk).
  unfold has_key in H1, H2.
  destruct (dict_get k d), (dict_get k d'); done.
Qed.

(** ** inherit *)

Lemma foldl_inherit_keys db ks d :
  Forall (fun k => has_key k d = true) ks →
  keys (foldl (inherit_step db) d ks) = keys d.
Proof.
  revert d. induction ks as [|k ks IH]; intros d Hks; simpl; [done|].
  apply Forall_cons in Hks as [Hk Hks].
  rewrite IH.
  - by apply keys_dict_set.
  - eapply Forall_impl; [exact Hks|]. intros k' Hk'. simpl in *.
    unfold inherit_step. rewrite has_key_dict_set, Hk'. done.
Qed.

Lemma foldl_inherit_get db ks d k :
  Forall (fun k => has_key k db = true) ks →
  dict_get k (foldl (inherit_step db) d ks) =
  if bool_decide (k ∈ ks) then dict_get k db else dict_get k d.
Proof.
  revert d. induction ks as [|k0 ks IH]; intros d Hks; simpl.
  - done.
  - apply Forall_cons in Hks as [Hk0 Hks]. rewrite IH by done.
    destruct (decide (k ∈ ks)) as [Hin|Hnin].
    + rewrite !bool_decide_eq_true_2; [done| |done]. by right.
    + rewrite (bool_decide_eq_false_2 (k ∈ ks)) by done.
      unfold inherit_step. destruct (decide (k = k0)) as [->|Hne].
      * rewrite bool_decide_eq_true_2 by left.
        rewrite dict_get_set_eq. apply has_key_get in Hk0 as [v ->]. done.
      * rewrite bool_decide_eq_false_2;
          [by rewrite dict_get_set_ne | intros [?|?]%elem_of_cons; done].
Qed.

Lemma common_keys_spec k da db :
  k ∈ common_keys da db ↔ has_key k da = true ∧ has_key k db = true.
Proof.
  unfold common_keys. rewrite list_elem_of_In, filter_In.
  rewrite <- list_elem_of_In, <- has_key_elem. done.
Qed.

Lemma inherit_loop_ne ks h a b oa ob :
  a ≠ b → h !! a = Some oa → h !! b = Some ob →
  Forall (fun k => has_key k (inst_dict ob) = true) ks →
  inherit_loop ks h a b =
  Some (<[a := Obj (type_attrs oa)
                   (foldl (inherit_step (inst_dict ob)) (inst_dict oa) ks)]> h).
Proof.
  intros Hne. revert h oa.
  induction ks as [|k ks IH]; intros h oa Ha Hb Hks; simpl.
  - f_equal. destruct oa. simpl. by rewrite insert_id.
  - apply Forall_cons in Hks as [Hk Hks].
    apply has_key_get in Hk as [v Hv].
    unfold getattr, setattr. rewrite Hb, Ha. simpl. rewrite Hv. simpl.
    erewrite IH; [|by rewrite lookup_insert_eq
                   |by rewrite lookup_insert_ne|done].
    simpl. rewrite insert_insert_eq. unfold inherit_step.
    by rewrite Hv.
Qed.

Lemma inherit_loop_self ks h a oa :
  h !! a = Some oa →
  Forall (fun k => has_key k (inst_dict oa) = true) ks →
  inherit_loop ks h a a = Some h.
Proof.
  intros Ha Hks. induction ks as [|k ks IH]; simpl; [done|].
  apply Forall_cons in Hks as [Hk Hks].
  apply has_key_get in Hk as [v Hv].
  unfold getattr, setattr. rewrite Ha. simpl. rewrite Hv. simpl.
  rewrite (dict_set_id _ _ _ Hv). destruct oa. simpl.
  rewrite insert_id by done. by apply IH.
Qed.

(** What [inherit] leaves in the heap: only [self] is written, its keys
    stay as they are, and its values are [another]'s on the common keys. *)
Lemma inherit_spec h a b oa ob :
  h !! a = Some oa → h !! b = Some ob →
  ∃ d', inherit h a b = Some (<[a := Obj (type_attrs oa) d']> h)
        ∧ keys d' = keys (inst_dict oa)
        ∧ (∀ k, dict_get k d' =
                if has_key k (inst_dict oa) && has_key k (inst_dict ob)
                then dict_get k (inst_dict ob)
                else dict_get k (inst_dict oa))
        ∧ (a = b → d' = inst_dict oa).
Proof.
  intros Ha Hb. unfold inherit. rewrite Ha, Hb. simpl.
  set (ks := common_keys (inst_dict oa) (inst_dict ob)).
  assert (Hfa : Forall (fun k => has_key k (inst_dict oa) = true) ks).
  { apply Forall_forall. intros k Hk. by apply common_keys_spec in Hk as [? ?]. }
  assert (Hfb : Forall (fun k => has_key k (inst_dict ob) = true) ks).
  { apply Forall_forall. intros k Hk. by apply common_keys_spec in Hk as [? ?]. }
  destruct (decide (a = b)) as [->|Hne].
  - assert (ob = oa) as -> by congruence.
    exists (inst_dict oa). split; [|split; [done|split; [|done]]].
    + erewrite inherit_loop_self; [|done..].
      f_equal. destruct oa. simpl. by rewrite insert_id.
    + intros k. by destruct (has_key k (inst_dict oa) && _).
  - exists (foldl (inherit_step (inst_dict ob)) (inst_dict oa) ks).
    split; [|split; [|split; [|done]]].
    + by apply inherit_loop_ne.
    + by apply foldl_inherit_keys.
    + intros k. rewrite foldl_inherit_get by done.
      destruct (has_key k (inst_dict oa) && has_key k (inst_dict ob)) eqn:E.
      * rewrite bool_decide_eq_true_2; [done|].
        apply common_keys_spec. by apply andb_true_iff.
      * rewrite bool_decide_eq_false_2; [done|].
        intros [? ?]%common_keys_spec. apply andb_false_iff in E.
        destruct E; congruence.
Qed.

(** The order in which the set of common keys is walked is immaterial. *)
Lemma inherit_loop_order ks h a b oa ob :
  h !! a = Some oa → h !! b = Some ob →
  NoDup (keys (inst_dict oa)) →
  (∀ k, k ∈ ks ↔ k ∈ common_keys (inst_dict oa) (inst_dict ob)) →
  inherit_loop ks h a b = inherit h a b.
Proof.
  intros Ha Hb Hnd Hks.
  assert (Hfa : Forall (fun k => has_key k (inst_dict oa) = true) ks).
  { apply Forall_forall. intros k Hk.
    by apply Hks, common_keys_spec in Hk as [? ?]. }
  assert (Hfb : Forall (fun k => has_key k (inst_dict ob) = true) ks).
  { apply Forall_forall. intros k Hk.
    by apply Hks, common_keys_spec in Hk as [? ?]. }
  destruct (inherit_spec h a b oa ob Ha Hb) as (d' & -> & Hkeys & Hget & Hself).
  destruct (decide (a = b)) as [->|Hne].
  - assert (ob = oa) as -> by congruence.
    rewrite (Hself eq_refl). destruct oa. simpl. rewrite insert_id by done.
    by eapply inherit_loop_self.
  - erewrite inherit_loop_ne; [|done..].
    do 3 f_equal. apply dict_ext.
    + by rewrite foldl_inherit_keys.
    + rewrite Hkeys. by apply foldl_inherit_keys.
    + intros k. rewrite Hget, foldl_inherit_get by done.
      destruct (has_key k (inst_dict oa) && has_key k (inst_dict ob)) eqn:E.
      * rewrite bool_decide_eq_true_2; [done|].
        apply Hks, common_keys_spec. by apply andb_true_iff.
      * rewrite bool_decide_eq_false_2; [done|].
        intros [? ?]%Hks%common_keys_spec. apply andb_false_iff in E.
        destruct E; congruence.
Qed.

(** C2. After [a.inherit(b)]: the call returns; every field name declared
    by both [a] and [b] holds in [a] the value [b] had before the call;
    every field of [a] whose name [b] does not declare is unchanged; the
    field names of [a] stay as they were; [b] and every object other than
    [a] are left as they were; with disjoint schemas nothing changes. *)
Theorem inherit_common_fields (h : heap) (a b : loc) (oa ob : obj) :
  h !! a = Some oa → h !! b = Some ob →
  ∃ h' oa',
    inherit h a b = Some h'
    ∧ h' !! a = Some oa'
    ∧ keys (inst_dict oa') = keys (inst_dict oa)
    ∧ type_attrs oa' = type_attrs oa
    ∧ (∀ k, has_key k (inst_dict oa) = true →
            has_key k (inst_dict ob) = true →
            getattr h' a k = getattr h b k)
    ∧ (∀ k, has_key k (inst_dict ob) = false →
            getattr h' a k = getattr h a k)
    ∧ h' !! b = Some ob
    ∧ (∀ l, l ≠ a → h' !! l = h !! l)
    ∧ ((∀ k, has_key k (inst_dict oa) = true →
             has_key k (inst_dict ob) = false) → h' = h).
Proof.
  intros Ha Hb.
  destruct (inherit_spec h a b oa ob Ha Hb) as (d' & Hinh & Hkeys & Hget & Hself).
  exists (<[a := Obj (type_attrs oa) d']> h), (Obj (type_attrs oa) d').
  split; [done|]. split; [by rewrite lookup_insert_eq|].
  split; [done|]. split; [done|].
  split; [|split; [|split; [|split]]].
  - intros k Hka Hkb. unfold getattr. rewrite lookup_insert_eq, Hb. simpl.
    by rewrite Hget, Hka, Hkb.
  - intros k Hkb. unfold getattr. rewrite lookup_insert_eq, Ha. simpl.
    by rewrite Hget, Hkb, andb_false_r.
  - destruct (decide (a = b)) as [->|Hne].
    + rewrite lookup_insert_eq, (Hself eq_refl).
      assert (ob = oa) as -> by congruence. by destruct oa.
    + by rewrite lookup_insert_ne.
  - intros l Hl. by rewrite lookup_insert_ne.
  - intros Hdisj. apply insert_id. rewrite Ha. destruct oa as [ta da].
    simpl in *. do 2 f_equal.
    unfold inherit in Hinh. rewrite Ha, Hb in Hinh. simpl in Hinh.
    assert (common_keys da (inst_dict ob) = []) as Hnil.
    { apply elem_of_nil_inv. intros k [Hk1 Hk2]%common_keys_spec.
      rewrite (Hdisj k Hk1) in Hk2. done. }
    rewrite Hnil in Hinh. simpl in Hinh. injection Hinh as Hinh.
    assert (<[a := Obj ta d']> h !! a = h !! a) as Hl by by rewrite <- Hinh.
    rewrite lookup_insert_eq, Ha in Hl. congruence.
Qed.

Lemma inherit_common_fields_witness :
  ∃ h' oa',
    inherit pair_heap 1 2 = Some h'
    ∧ h' !! 1 = Some oa'
    ∧ keys (inst_dict oa') = ["lr"; "name"; "seed"]
    ∧ type_attrs oa' = base_attrs
    ∧ (∀ k, has_key k [("lr", VFloat "0.2"); ("name", VStr "net");
                       ("seed", VInt 7)] = true →
            has_key k [("seed", VInt 0); ("lr", VFloat "0.1");
                       ("steps", VInt 100)] = true →
            getattr h' 1 k = getattr pair_heap 2 k)
    ∧ (∀ k, has_key k [("seed", VInt 0); ("lr", VFloat "0.1");
                       ("steps", VInt 100)] = false →
            getattr h' 1 k = getattr pair_heap 1 k)
    ∧ h' !! 2 = Some (Obj base_attrs [("seed", VInt 0); ("lr", VFloat "0.1");
                                      ("steps", VInt 100)])
    ∧ (∀ l, l ≠ 1 → h' !! l = pair_heap !! l)
    ∧ ((∀ k, has_key k [("lr", VFloat "0.2"); ("name", VStr "net");
                        ("seed", VInt 7)] = true →
             has_key k [("seed", VInt 0); ("lr", VFloat "0.1");
                        ("steps", VInt 100)] = false) → h' = pair_heap).
Proof.
  apply (inherit_common_fields pair_heap 1 2
           (Obj base_attrs [("lr", VFloat "0.2"); ("name", VStr "net");
                            ("seed", VInt 7)])
           (Obj base_attrs [("seed", VInt 0); ("lr", VFloat "0.1");
                            ("steps", VInt 100)])); reflexivity.
Defined.

(** ** propagate *)

Lemma has_key_keys k d d' : keys d = keys d' → has_key k d = has_key k d'.
Proof.
  intros Hk. destruct (has_key k d') eqn:E.
  - apply has_key_elem. rewrite Hk. by apply has_key_elem.
  - apply has_key_false. rewrite Hk. by apply has_key_false.
Qed.

Lemma propagate_S n h self :
  propagate (S n) h self =
  o ← h !! self; propagate_items (propagate n) self (keys (inst_dict o)) h.
Proof. done. Qed.

Lemma propagate_items_plain rec self o ks h :
  h !! self = Some o →
  (∀ k, k ∈ ks → ∃ v, dict_get k (inst_dict o) = Some v ∧ is_conf v = false) →
  propagate_items rec self ks h = Some h.
Proof.
  intros Ho. induction ks as [|k ks IH]; intros Hplain; simpl; [done|].
  destruct (Hplain k) as (v & Hv & Hc); [by left|].
  unfold getattr. rewrite Ho. simpl. rewrite Hv. simpl.
  rewrite IH; [|intros k' Hk'; apply Hplain; by right].
  by destruct v.
Qed.

(** The loop of [propagate] on a node whose only nested node sits under
    [kc]: the child inherits and is propagated into, nothing else happens. *)
Lemma propagate_items_one rec self o ks kc c h h1 h2 :
  NoDup ks →
  h !! self = Some o → h2 !! self = Some o →
  (∀ k, k ∈ ks → k ≠ kc →
        ∃ v, dict_get k (inst_dict o) = Some v ∧ is_conf v = false) →
  dict_get kc (inst_dict o) = Some (VConf c) →
  inherit h c self = Some h1 → rec h1 c = Some h2 →
  kc ∈ ks →
  propagate_items rec self ks h = Some h2.
Proof.
  intros Hnd Ho Ho2 Hplain Hlink Hinh Hrec.
  induction ks as [|k ks IH]; intros Hin; [by apply elem_of_nil in Hin|].
  apply NoDup_cons in Hnd as [Hk Hnd]. simpl.
  destruct (decide (k = kc)) as [->|Hne].
  - unfold getattr. rewrite Ho. simpl. rewrite Hlink. simpl.
    rewrite Hinh. simpl. rewrite Hrec. simpl.
    eapply propagate_items_plain; [done|].
    intros k' Hk'. apply Hplain; [by right|]. by intros ->.
  - destruct (Hplain k) as (v & Hv & Hc); [by left|done|].
    unfold getattr. rewrite Ho. simpl. rewrite Hv. simpl.
    assert (propagate_items rec self ks h = Some h2) as ->.
    { apply IH; [done| |].
      - intros k' Hk'. apply Hplain. by right.
      - apply elem_of_cons in Hin as [?|?]; [congruence|done]. }
    by destruct v.
Qed.

(** In [alias_heap] the child ends up as its own child, and the walk never
    comes back. *)
Lemma propagate_alias_child fuel : propagate fuel alias_heap_inherited 2 = None.
Proof.
  induction fuel as [|n IH]; [done|].
  change (propagate (S n) alias_heap_inherited 2) with
    (o ← alias_heap_inherited !! 2;
     propagate_items (propagate n) 2 (keys (inst_dict o)) alias_heap_inherited).
  change (alias_heap_inherited !! 2) with
    (Some (Obj base_attrs [("lr", VFloat "0.1"); ("sub", VConf 2)])).
  change (propagate_items (propagate n) 2 ["lr"; "sub"] alias_heap_inherited
          = None).
  assert (inherit alias_heap_inherited 2 2 = Some alias_heap_inherited) as Hinh
    by (vm_compute; reflexivity).
  cbn [propagate_items].
  change (getattr alias_heap_inherited 2 "lr") with (Some (VFloat "0.1")).
  change (getattr alias_heap_inherited 2 "sub") with (Some (VConf 2)).
  cbn [mbind option_bind]. rewrite Hinh. cbn [mbind option_bind].
  by rewrite IH.
Qed.

Lemma propagate_alias_root fuel : propagate fuel alias_heap 1 = None.
Proof.
  destruct fuel as [|n]; [done|].
  change (propagate (S n) alias_heap 1) with
    (o ← alias_heap !! 1;
     propagate_items (propagate n) 1 (keys (inst_dict o)) alias_heap).
  change (alias_heap !! 1) with
    (Some (Obj base_attrs [("lr", VFloat "0.1"); ("sub", VConf 2)])).
  change (propagate_items (propagate n) 1 ["lr"; "sub"] alias_heap = None).
  assert (inherit alias_heap 2 1 = Some alias_heap_inherited) as Hinh
    by (vm_compute; reflexivity).
  cbn [propagate_items].
  change (getattr alias_heap 1 "lr") with (Some (VFloat "0.1")).
  change (getattr alias_heap 1 "sub") with (Some (VConf 2)).
  cbn [mbind option_bind]. rewrite Hinh. cbn [mbind option_bind].
  by rewrite propagate_alias_child.
Qed.

(** Root and child both name their nested node [sub]: [root.propagate()]
    does not return, whatever the recursion budget, so it does not leave
    child and grandchild with the root's [lr]. *)
Lemma propagate_shared_link_fails :
  ¬ ∃ fuel h',
      propagate fuel alias_heap 1 = Some h'
      ∧ getattr h' 2 "lr" = Some (VFloat "0.1")
      ∧ getattr h' 3 "lr" = Some (VFloat "0.1").
Proof.
  intros (fuel & h' & Hp & _). by rewrite propagate_alias_root in Hp.
Qed.

Lemma dict_get_elem k v d : dict_get k d = Some v → (k, v) ∈ d.
Proof.
  induction d as [|[k' v'] d IH]; simpl; [done|].
  destruct (String.eqb_spec k k') as [->|]; intros H.
  - injection H as ->. by left.
  - right. by apply IH.
Qed.

Lemma plain_fields_get d k w :
  plain_fields d = true → dict_get k d = Some w → is_conf w = false.
Proof.
  unfold plain_fields. rewrite forallb_forall. intros Hall Hget.
  apply dict_get_elem, list_elem_of_In, Hall in Hget. simpl in Hget.
  by destruct (is_conf w).
Qed.

Lemma sole_link_get k c d :
  sole_link k c d = true → dict_get k d = Some (VConf c).
Proof.
  unfold sole_link. rewrite andb_true_iff, forallb_forall.
  intros [[w Hw]%has_key_get Hall]. rewrite Hw.
  apply dict_get_elem, list_elem_of_In, Hall in Hw. simpl in Hw.
  rewrite String.eqb_refl in Hw. destruct w; try done.
  apply Nat.eqb_eq in Hw. by subst.
Qed.

Lemma sole_link_others k c d k' w :
  sole_link k c d = true → dict_get k' d = Some w → k' ≠ k →
  is_conf w = false.
Proof.
  unfold sole_link. rewrite andb_true_iff, forallb_forall.
  intros [_ Hall] Hget Hne.
  apply dict_get_elem, list_elem_of_In, Hall in Hget. simpl in Hget.
  destruct (String.eqb_spec k' k); [done|]. by destruct (is_conf w).
Qed.

Section propagate_chain.
Variables (h : heap) (r c g : loc) (o_r o_c o_g : obj) (kc kg : string).

Hypothesis (Hrc : r ≠ c) (Hrg : r ≠ g) (Hcg : c ≠ g).
Hypothesis (Hr : h !! r = Some o_r) (Hc : h !! c = Some o_c)
           (Hg : h !! g = Some o_g).
Hypothesis (Hnd_r : NoDup (keys (inst_dict o_r)))
           (Hnd_c : NoDup (keys (inst_dict o_c))).
(** root holds child under [kc] and no other node, child holds
    grandchild under [kg] and no other node, grandchild holds none *)
Hypothesis Hr_sole : sole_link kc c (inst_dict o_r) = true.
Hypothesis Hc_sole : sole_link kg g (inst_dict o_c) = true.
Hypothesis Hg_plain' : plain_fields (inst_dict o_g) = true.
(** the link names are not shared along the chain *)
Hypothesis Hkg_r : has_key kg (inst_dict o_r) = false.
Hypothesis Hkc_c : has_key kc (inst_dict o_c) = false.
Hypothesis Hkg_g : has_key kg (inst_dict o_g) = false.

Let Hr_link : dict_get kc (inst_dict o_r) = Some (VConf c) :=
  sole_link_get _ _ _ Hr_sole.
Let Hr_plain k w :
  dict_get k (inst_dict o_r) = Some w → k ≠ kc → is_conf w = false :=
  sole_link_others _ _ _ k w Hr_sole.
Let Hc_link : dict_get kg (inst_dict o_c) = Some (VConf g) :=
  sole_link_get _ _ _ Hc_sole.
Let Hc_plain k w :
  dict_get k (inst_dict o_c) = Some w → k ≠ kg → is_conf w = false :=
  sole_link_others _ _ _ k w Hc_sole.
Let Hg_plain k w :
  dict_get k (inst_dict o_g) = Some w → is_conf w = false :=
  plain_fields_get _ k w Hg_plain'.

Lemma chain_child_dict d1 :
  keys d1 = keys (inst_dict o_c) →
  (∀ k, dict_get k d1 =
        if has_key k (inst_dict o_c) && has_key k (inst_dict o_r)
        then dict_get k (inst_dict o_r) else dict_get k (inst_dict o_c)) →
  dict_get kg d1 = Some (VConf g)
  ∧ (∀ k, k ∈ keys d1 → k ≠ kg →
          ∃ v, dict_get k d1 = Some v ∧ is_conf v = false).
Proof.
  intros Hk1 Hget. split.
  - by rewrite Hget, Hkg_r, andb_false_r.
  - intros k Hk Hne. rewrite Hk1 in Hk. apply has_key_elem in Hk.
    rewrite Hget, Hk. simpl.
    destruct (has_key k (inst_dict o_r)) eqn:E.
    + apply has_key_get in E as [v Hv]. exists v. split; [done|].
      apply (Hr_plain k v Hv). intros ->. congruence.
    + apply has_key_get in Hk as [v Hv]. exists v. split; [done|].
      by apply (Hc_plain k v Hv).
Qed.

Lemma chain_grandchild_dict d1 d2 :
  keys d2 = keys (inst_dict o_g) →
  (∀ k, k ≠ kg → ∀ v, dict_get k d1 = Some v → is_conf v = false) →
  (∀ k, dict_get k d2 =
        if has_key k (inst_dict o_g) && has_key k d1
        then dict_get k d1 else dict_get k (inst_dict o_g)) →
  ∀ k, k ∈ keys d2 → ∃ v, dict_get k d2 = Some v ∧ is_conf v = false.
Proof.
  intros Hk2 Hd1 Hget k Hk. rewrite Hk2 in Hk. apply has_key_elem in Hk.
  rewrite Hget, Hk. simpl.
  destruct (has_key k d1) eqn:E.
  - apply has_key_get in E as [v Hv]. exists v. split; [done|].
    apply (Hd1 k); [|done]. intros ->. congruence.
  - apply has_key_get in Hk as [v Hv]. exists v. split; [done|].
    by apply (Hg_plain k v Hv).
Qed.

Lemma propagate_chain_run n :
  ∃ d1 d2,
    propagate (S (S (S n))) h r =
      Some (<[g := Obj (type_attrs o_g) d2]>
              (<[c := Obj (type_attrs o_c) d1]> h))
    ∧ (∀ k, has_key k (inst_dict o_c) = true →
            has_key k (inst_dict o_r) = true →
            dict_get k d1 = dict_get k (inst_dict o_r))
    ∧ (∀ k, has_key k (inst_dict o_g) = true →
            has_key k (inst_dict o_c) = true →
            dict_get k d2 = dict_get k d1).
Proof.
  destruct (inherit_spec h c r o_c o_r Hc Hr) as (d1 & Hi1 & Hk1 & Hg1 & _).
  set (h1 := <[c := Obj (type_attrs o_c) d1]> h) in *.
  assert (h1 !! c = Some (Obj (type_attrs o_c) d1)) as Hc1
    by apply lookup_insert_eq.
  assert (h1 !! g = Some o_g) as Hg1'
    by (unfold h1; by rewrite lookup_insert_ne).
  destruct (inherit_spec h1 g c o_g _ Hg1' Hc1) as (d2 & Hi2 & Hk2 & Hg2 & _).
  simpl in Hg2.
  set (h2 := <[g := Obj (type_attrs o_g) d2]> h1) in *.
  assert (h2 !! g = Some (Obj (type_attrs o_g) d2)) as Hg2'
    by apply lookup_insert_eq.
  destruct (chain_child_dict d1 Hk1 Hg1) as [Hlink1 Hplain1].
  exists d1, d2. split; [|split].
  - (* the walk *)
    assert (propagate (S n) h2 g = Some h2) as Hpg.
    { rewrite propagate_S, Hg2'. simpl.
      eapply propagate_items_plain; [exact Hg2'|]. simpl.
      apply (chain_grandchild_dict d1 d2 Hk2); [|done].
      intros k Hne v Hv. destruct (Hplain1 k) as (v' & Hv' & Hc'); [|done|].
      - rewrite <- has_key_elem. apply has_key_get. by eexists.
      - congruence. }
    assert (propagate (S (S n)) h1 c = Some h2) as Hpc.
    { rewrite propagate_S, Hc1. simpl.
      eapply (propagate_items_one _ c _ _ kg g h1 h2 h2);
        [by rewrite Hk1|exact Hc1| |exact Hplain1|exact Hlink1
        |exact Hi2|exact Hpg|].
      - unfold h2. by rewrite lookup_insert_ne.
      - rewrite <- has_key_elem. apply has_key_get. by eexists. }
    rewrite propagate_S, Hr. simpl.
    eapply (propagate_items_one _ r _ _ kc c h h1 h2);
      [done|exact Hr| | |exact Hr_link|exact Hi1|exact Hpc|].
    + unfold h2, h1. by rewrite !lookup_insert_ne.
    + intros k Hk Hne. apply has_key_elem, has_key_get in Hk as [v Hv].
      exists v. split; [done|]. by apply (Hr_plain k v Hv).
    + rewrite <- has_key_elem. apply has_key_get. by eexists.
  - intros k Hkc Hkr. by rewrite Hg1, Hkc, Hkr.
  - intros k Hkg Hkc. rewrite Hg2, Hkg. simpl.
    by rewrite (has_key_keys k d1 (inst_dict o_c) Hk1), Hkc.
Qed.

(** C1 (amended). In a chain root, child, grandchild of three distinct
    nodes, where root's only nested node is child, child's only nested
    node is grandchild, grandchild has none, and the field name of each
    link is declared by neither the parent nor the child of that link's
    owner ([kg] not by root nor grandchild, [kc] not by child):
    [root.propagate()] returns, and every field name declared by all
    three holds root's value in child and in grandchild afterwards,
    root itself being left as it was. *)
Theorem propagate_chain_top_down (x : string) (v : value) (fuel : nat) :
  dict_get x (inst_dict o_r) = Some v →
  has_key x (inst_dict o_c) = true →
  has_key x (inst_dict o_g) = true →
  (3 ≤ fuel)%nat →
  ∃ h', propagate fuel h r = Some h'
        ∧ getattr h' c x = Some v
        ∧ getattr h' g x = Some v
        ∧ h' !! r = Some o_r.
Proof.
  intros Hxr Hxc Hxg Hfuel.
  destruct fuel as [|[|[|n]]]; [lia..|].
  destruct (propagate_chain_run n) as (d1 & d2 & Hrun & Hd1 & Hd2).
  assert (has_key x (inst_dict o_r) = true) as Hxr'
    by (apply has_key_get; by eexists).
  eexists. split; [exact Hrun|]. unfold getattr. split; [|split].
  - rewrite lookup_insert_ne, lookup_insert_eq by done. simpl.
    by rewrite Hd1.
  - rewrite lookup_insert_eq. simpl. by rewrite Hd2, Hd1.
  - by rewrite !lookup_insert_ne.
Qed.
End propagate_chain.

Lemma propagate_chain_top_down_witness :
  ∃ h', propagate 3 chain_heap 1 = Some h'
        ∧ getattr h' 2 "lr" = Some (VFloat "0.1")
        ∧ getattr h' 3 "lr" = Some (VFloat "0.1")
        ∧ h' !! 1 = Some (Obj base_attrs
                            [("lr", VFloat "0.1"); ("child", VConf 2);
                             ("seed", VInt 1)]).
Proof.
  apply (propagate_chain_top_down chain_heap 1 2 3
           (Obj base_attrs
              [("lr", VFloat "0.1"); ("child", VConf 2); ("seed", VInt 1)])
           (Obj base_attrs
              [("lr", VFloat "0.2"); ("inner", VConf 3);
               ("shape", VTuple [VInt 1; VInt 2])])
           (Obj base_attrs [("depth", VInt 4); ("lr", VFloat "0.3")])
           "child" "inner");
    try reflexivity; try lia; try (simpl; by compute_done).
Defined.

(** ** Loops that stop at the first exception *)

Lemma mapR_Ok {A B} (f : A → result B) (l : list A) (ys : list B) :
  mapR f l = Ok ys ↔ Forall2 (fun x y => f x = Ok y) l ys.
Proof.
  revert ys. induction l as [|x l IH]; intros ys; simpl.
  - split; [by intros [= <-]; constructor|by inversion 1].
  - destruct (f x) as [y|e] eqn:Hx.
    + destruct (mapR f l) as [ys'|e] eqn:Hl.
      * split.
        { intros [= <-]. constructor; [done|]. by apply IH. }
        { inversion 1 as [|? y' ? ys'' Hy Hrest]; subst.
          apply IH in Hrest. congruence. }
      * split; [done|]. inversion 1 as [|? y' ? ys'' Hy Hrest]; subst.
        by apply IH in Hrest.
    + split; [done|]. inversion 1; congruence.
Qed.



(** ** json.dumps and jsonable *)





Lemma jsonable_true d x :
  jsonable d x = Ok true ↔ ∃ j, dumps d x = Ok j.
Proof.
  unfold jsonable. destruct (dumps d x) as [j|e].
  - split; [by eexists|done].
  - split; [by destruct e|by intros [? ?]].
Qed.

(** ** as_dict_jsonable *)

Lemma as_dict_jsonable_S n h self :
  as_dict_jsonable (S n) h self =
  match h !! self with
  | None => Raise NoObject
  | Some o => as_dict_items (as_dict_jsonable n h) n (inst_dict o) []
  end.
Proof. done. Qed.

Lemma as_dict_items_conf rec depth k c rest conf :
  as_dict_items rec depth ((k, VConf c) :: rest) conf =
  match rec c with
  | Ok d => as_dict_items rec depth rest (dict_set k (VDict d) conf)
  | Raise e => Raise e
  end.
Proof. done. Qed.

Lemma as_dict_items_plain rec depth k v rest conf :
  is_conf v = false →
  as_dict_items rec depth ((k, v) :: rest) conf =
  match jsonable depth v with
  | Ok true => as_dict_items rec depth rest (dict_set k v conf)
  | Ok false => as_dict_items rec depth rest conf
  | Raise e => Raise e
  end.
Proof. by destruct v. Qed.

Lemma dict_set_fresh k v d :
  k ∉ keys d → dict_set k v d = (d ++ [(k, v)])%list.
Proof.
  induction d as [|[k' v'] d IH]; simpl; [done|].
  intros Hk. apply not_elem_of_cons in Hk as [Hne Hk].
  destruct (String.eqb_spec k k'); [done|]. by rewrite IH.
Qed.

Lemma dict_get_NoDup k v d : NoDup (keys d) → (k, v) ∈ d → dict_get k d = Some v.
Proof.
  induction d as [|[k' v'] d IH]; simpl.
  - by intros _ ?%elem_of_nil.
  - intros [Hk Hnd]%NoDup_cons [[= -> ->]|Hin]%elem_of_cons.
    + by rewrite String.eqb_refl.
    + destruct (String.eqb_spec k k') as [->|_]; [|by apply IH].
      destruct Hk. apply list_elem_of_fmap. by exists (k', v).
Qed.

(** The loop of [as_dict_jsonable] over fields with distinct names, none
    of which raises: the entries kept are appended in order. [keep] says
    what each field contributes. *)
Lemma as_dict_items_kept rec depth
    (keep : string * value → option (string * value)) items conf0 :
  NoDup (keys conf0 ++ keys items) →
  Forall (fun kv =>
            (∀ c, kv.2 = VConf c →
                  ∃ d, rec c = Ok d ∧ keep kv = Some (kv.1, VDict d))
            ∧ (is_conf kv.2 = false →
               ∃ b, jsonable depth kv.2 = Ok b
                    ∧ keep kv = if b then Some kv else None)) items →
  as_dict_items rec depth items conf0 = Ok (conf0 ++ omap keep items)%list.
Proof.
  revert conf0. induction items as [|[k v] items IH]; intros conf0 Hnd Hall.
  - simpl. by rewrite app_nil_r.
  - apply Forall_cons in Hall as [[Hc Hp] Hall]. simpl in Hc, Hp.
    change (keys ((k, v) :: items)) with (k :: keys items) in Hnd.
    assert (k ∉ keys conf0) as Hk.
    { apply NoDup_app in Hnd as (_ & Hdisj & _). intros Hin.
      apply (Hdisj k Hin). by left. }
    assert (Hadd : ∀ w, as_dict_items rec depth items (dict_set k w conf0)
                        = Ok (conf0 ++ (k, w) :: omap keep items)%list).
    { intros w. rewrite dict_set_fresh by done. rewrite IH; [|  |done].
      - by rewrite <- app_assoc.
      - unfold keys at 1. rewrite map_app. simpl. by rewrite <- app_assoc. }
    assert (Hskip : as_dict_items rec depth items conf0
                    = Ok (conf0 ++ omap keep items)%list).
    { apply IH; [|done]. apply NoDup_app in Hnd as (H1 & H2 & H3).
      apply NoDup_cons in H3 as [_ H3]. apply NoDup_app.
      split; [done|]. split; [|done]. intros x Hx Hx'. apply (H2 x Hx).
      by right. }
    destruct (is_conf v) eqn:Hv.
    + destruct v as [| | | | | | | | |c|]; try done.
      destruct (Hc c eq_refl) as (d & Hd & Hkeep).
      rewrite as_dict_items_conf, Hd, Hadd.
      change (omap keep ((k, VConf c) :: items))
        with (match keep (k, VConf c) with
              | Some e => e :: omap keep items
              | None => omap keep items
              end).
      by rewrite Hkeep.
    + destruct (Hp eq_refl) as (b & Hb & Hkeep).
      rewrite as_dict_items_plain, Hb by done.
      change (omap keep ((k, v) :: items))
        with (match keep (k, v) with
              | Some e => e :: omap keep items
              | None => omap keep items
              end).
      rewrite Hkeep. by destruct b.
Qed.

(** How [as_dict_jsonable] looks at one field, for reading off a result
    that is there. *)
Lemma as_dict_items_Ok rec depth items conf0 conf :
  as_dict_items rec depth items conf0 = Ok conf →
  Forall (fun kv =>
            (∀ c, kv.2 = VConf c → ∃ d, rec c = Ok d)
            ∧ (is_conf kv.2 = false → ∃ b, jsonable depth kv.2 = Ok b)) items.
Proof.
  revert conf0. induction items as [|[k v] items IH]; intros conf0; [done|].
  destruct (is_conf v) eqn:Hv.
  - destruct v as [| | | | | | | | |c|]; try done.
    rewrite as_dict_items_conf. destruct (rec c) as [d|e] eqn:Hd; [|done].
    intros Hrest. constructor; [|by eapply IH]. simpl. split; [|done].
    intros c' [= <-]. by eexists.
  - rewrite as_dict_items_plain by done.
    destruct (jsonable depth v) as [b|e] eqn:Hb; [|done].
    intros Hrest. constructor.
    + simpl. split; [by intros c ->|]. intros _. by eexists.
    + destruct b; by eapply IH.
Qed.










(** The node with [a = 1] and an opaque [b] serializes to exactly
    [{"a": 1}], also when it is nested. *)
Lemma as_dict_jsonable_drops_opaque :
  as_dict_jsonable 1 opaque_heap 1 = Ok [("a", VInt 1)]
  ∧ as_dict_jsonable 2 opaque_heap 2 =
    Ok [("net", VDict [("a", VInt 1)]);
        ("dims", VList [VInt 64; VInt 128])].
Proof. split; vm_compute; reflexivity. Qed.



(** ** from_dict *)

Lemma from_dict_VDict kvs self strict w :
  from_dict (VDict kvs) self strict w =
  from_dict_items (fun v c => from_dict v c false) self strict kvs w.
Proof. done. Qed.

Lemma nodes_kept_refl h : nodes_kept h h.
Proof. intros l o Ho. by exists o. Qed.

Lemma nodes_kept_trans h1 h2 h3 :
  nodes_kept h1 h2 → nodes_kept h2 h3 → nodes_kept h1 h3.
Proof.
  intros H12 H23 l o1 Ho1.
  destruct (H12 l o1 Ho1) as (o2 & Ho2 & Ht2 & Hk2 & Hl2).
  destruct (H23 l o2 Ho2) as (o3 & Ho3 & Ht3 & Hk3 & Hl3).
  exists o3. repeat split; [done|congruence|congruence|].
  intros k c Hk. by apply Hl3, Hl2.
Qed.

(** The assignment [self.__dict__[k] = v] to a field that holds no node. *)
Lemma nodes_kept_assign h self o k v w0 :
  h !! self = Some o → dict_get k (inst_dict o) = Some w0 →
  is_conf w0 = false →
  nodes_kept h (<[self := Obj (type_attrs o) (dict_set k v (inst_dict o))]> h).
Proof.
  intros Ho Hk Hplain l o1 Ho1. destruct (decide (l = self)) as [->|Hne].
  - assert (o1 = o) as -> by congruence.
    eexists. split; [apply lookup_insert_eq|]. simpl.
    split; [done|]. split.
    + apply keys_dict_set, has_key_get. by eexists.
    + intros k' c Hk'. destruct (decide (k = k')) as [->|Hkk].
      * rewrite Hk in Hk'. injection Hk' as ->. done.
      * by rewrite dict_get_set_ne.
  - exists o1. by rewrite lookup_insert_ne.
Qed.

Lemma nodes_kept_hasattr h h' l o o' k :
  nodes_kept h h' → h !! l = Some o → h' !! l = Some o' →
  hasattr o' k = hasattr o k.
Proof.
  intros Hkept Ho Ho'. destruct (Hkept l o Ho) as (o2 & Ho2 & Ht & Hk & _).
  assert (o2 = o') as -> by congruence. unfold hasattr.
  by rewrite Ht, (has_key_keys k _ _ Hk).
Qed.

Lemma from_dict_items_kept rec self strict items w :
  Forall (fun kv => ∀ c w0, nodes_kept (objects w0) (objects (rec kv.2 c w0).2))
         items →
  nodes_kept (objects w) (objects (from_dict_items rec self strict items w).2).
Proof.
  intros Hrec. revert w.
  induction Hrec as [|[k v] items Hv _ IH]; intros w; simpl.
  - apply nodes_kept_refl.
  - destruct (objects w !! self) as [o|] eqn:Ho; [|apply nodes_kept_refl].
    destruct (hasattr o k); simpl.
    + destruct (dict_get k (inst_dict o)) as [w0|] eqn:Hk;
        [|apply nodes_kept_refl].
      assert (Hassign : is_conf w0 = false →
                nodes_kept (objects w)
                  (objects (from_dict_items rec self strict items
                     (World (<[self := Obj (type_attrs o)
                                           (dict_set k v (inst_dict o))]>
                               (objects w)) (stdout w))).2)).
      { intros Hplain. eapply nodes_kept_trans; [|apply IH]. simpl.
        by eapply nodes_kept_assign. }
      destruct w0; try (by apply Hassign).
      specialize (Hv l w). simpl in Hv.
      destruct (rec v l w) as [[[]|e] w']; simpl in *; [|done].
      eapply nodes_kept_trans; [exact Hv|apply IH].
    + destruct strict; [apply nodes_kept_refl|]. apply (IH (World _ _)).
Qed.

(** Every object survives [from_dict] with its field names and its nested
    nodes, whatever the data, the mode and the outcome. *)
Lemma from_dict_kept data self strict w :
  nodes_kept (objects w) (objects (from_dict data self strict w).2).
Proof.
  revert self strict w.
  induction data as [| | | | | | |kvs IH| | |] using value_ind_nested;
    intros self strict w; try apply nodes_kept_refl.
  rewrite from_dict_VDict. apply from_dict_items_kept.
  eapply Forall_impl; [exact IH|]. intros kv Hkv c w0. apply Hkv.
Qed.

(** [strict] is consulted for the keys of the outermost mapping only. *)
Lemma from_dict_items_strict_top rec self items w o :
  (∀ v c w0, nodes_kept (objects w0) (objects (rec v c w0).2)) →
  objects w !! self = Some o →
  Forall (fun kv => hasattr o kv.1 = true) items →
  from_dict_items rec self true items w =
  from_dict_items rec self false items w.
Proof.
  intros Hrec. revert w o.
  induction items as [|[k v] items IH]; intros w o Ho Hall; simpl; [done|].
  apply Forall_cons in Hall as [Hk Hall]. simpl in Hk.
  rewrite Ho, Hk. simpl.
  assert (Hnext : ∀ w1, nodes_kept (objects w) (objects w1) →
            from_dict_items rec self true items w1 =
            from_dict_items rec self false items w1).
  { intros w1 Hkept. destruct (Hkept self o Ho) as (o1 & Ho1 & _).
    apply (IH w1 o1 Ho1). eapply Forall_impl; [exact Hall|].
    intros kv Hkv. simpl in *. rewrite <- Hkv.
    by eapply nodes_kept_hasattr. }
  destruct (dict_get k (inst_dict o)) as [w0|] eqn:Hget; [|done].
  assert (Hassign : is_conf w0 = false →
            from_dict_items rec self true items
              (World (<[self := Obj (type_attrs o)
                                    (dict_set k v (inst_dict o))]>
                        (objects w)) (stdout w)) =
            from_dict_items rec self false items
              (World (<[self := Obj (type_attrs o)
                                    (dict_set k v (inst_dict o))]>
                        (objects w)) (stdout w))).
  { intros Hplain. apply Hnext. simpl. by eapply nodes_kept_assign. }
  destruct w0; try (by apply Hassign).
  pose proof (Hrec v l w) as Hkept.
  destruct (rec v l w) as [[[]|e] w']; simpl in *; [|done].
  by apply Hnext.
Qed.

(** Lenient mode never raises the "extra" error. *)
Lemma from_dict_items_lenient_no_extra rec self items w msg :
  Forall (fun kv => ∀ c w0, (rec kv.2 c w0).1 ≠ Raise (ValueError msg))
         items →
  (from_dict_items rec self false items w).1 ≠ Raise (ValueError msg).
Proof.
  intros Hrec. revert w.
  induction Hrec as [|[k v] items Hv _ IH]; intros w; simpl; [done|].
  destruct (objects w !! self) as [o|]; [|done].
  destruct (hasattr o k); simpl; [|apply IH].
  destruct (dict_get k (inst_dict o)) as [w0|]; [|done].
  destruct w0; try apply IH.
  specialize (Hv l w). simpl in Hv.
  destruct (rec v l w) as [[[]|e] w']; simpl in *; [apply IH|done].
Qed.

Lemma from_dict_lenient_no_extra data self w msg :
  (from_dict data self false w).1 ≠ Raise (ValueError msg).
Proof.
  revert self w.
  induction data as [| | | | | | |kvs IH| | |] using value_ind_nested;
    intros self w; try done.
  rewrite from_dict_VDict. apply from_dict_items_lenient_no_extra.
  eapply Forall_impl; [exact IH|]. intros kv Hkv c w0. apply Hkv.
Qed.

Lemma hasattr_of_field o k v : dict_get k (inst_dict o) = Some v → hasattr o k = true.
Proof.
  intros Hk. unfold hasattr, has_key. by rewrite Hk.
Qed.

(** C4 (the code departs from it). The test for an extra key is
    [hasattr(self, k)], which also answers True for a name that resolves
    through the class; the value is then taken from [self.__dict__[k]],
    where only the fields are. The model has no field [save], yet
    [from_dict({save: 5})] raises neither the "extra" error in strict mode
    nor prints the diagnostic in lenient mode: in both it raises
    [KeyError]. *)
Theorem from_dict_extra_key_unnoticed :
  (∃ o, model_heap !! 1 = Some o
        ∧ has_key "save" (inst_dict o) = false
        ∧ hasattr o "save" = true)
  ∧ from_dict (VDict [("save", VInt 5)]) 1 true (World model_heap [])
    = (Raise (KeyError "save"), World model_heap [])
  ∧ from_dict (VDict [("save", VInt 5)]) 1 false (World model_heap [])
    = (Raise (KeyError "save"), World model_heap []).
Proof.
  split; [|split; reflexivity].
  eexists. split; [reflexivity|]. split; reflexivity.
Qed.

(** C5 (the code departs from it). The same defect one level down: the
    encoder nested in the model has no field [save], and
    [from_dict({enc: {save: 5}})] does not get past that key with a
    diagnostic: it raises [KeyError], in strict and in lenient mode. *)
Theorem from_dict_nested_extra_key_raises :
  (∃ o oc, model_heap !! 1 = Some o
           ∧ dict_get "enc" (inst_dict o) = Some (VConf 2)
           ∧ model_heap !! 2 = Some oc
           ∧ has_key "save" (inst_dict oc) = false
           ∧ hasattr oc "save" = true)
  ∧ from_dict (VDict [("enc", VDict [("save", VInt 5)])]) 1 true
              (World model_heap [])
    = (Raise (KeyError "save"), World model_heap [])
  ∧ from_dict (VDict [("enc", VDict [("save", VInt 5)])]) 1 false
              (World model_heap [])
    = (Raise (KeyError "save"), World model_heap []).
Proof.
  split; [|split; reflexivity].
  do 2 eexists. split; [reflexivity|]. repeat split; reflexivity.
Qed.

(** X19. On a node on which the name [z] does not resolve at all (no
    field and no name of the class, [hasattr] false), [from_dict({z: v})]
    in strict mode raises the "extra" error and leaves everything as it
    was; in lenient mode it returns, prints the diagnostic and leaves every
    object as it was. Whatever the data and the mode, the field names of
    every object are the same after the call: no key is ever added. *)
Theorem from_dict_unknown_key (w : world) (self : loc) (o : obj)
    (z : string) (v : value) :
  objects w !! self = Some o →
  hasattr o z = false →
  from_dict (VDict [(z, v)]) self true w
    = (Raise (ValueError (extra_msg z)), w)
  ∧ from_dict (VDict [(z, v)]) self false w
    = (Ok tt, World (objects w) (stdout w ++ [extra_msg z]))
  ∧ (∀ data strict l o1,
       objects w !! l = Some o1 →
       ∃ o2, objects (from_dict data self strict w).2 !! l = Some o2
             ∧ keys (inst_dict o2) = keys (inst_dict o1)
             ∧ has_key z (inst_dict o2) = has_key z (inst_dict o1)).
Proof.
  intros Ho Hz. split; [|split].
  - rewrite from_dict_VDict. simpl. by rewrite Ho, Hz.
  - rewrite from_dict_VDict. simpl. by rewrite Ho, Hz.
  - intros data strict l o1 Ho1.
    destruct (from_dict_kept data self strict w l o1 Ho1)
      as (o2 & Ho2 & _ & Hkeys & _).
    exists o2. split; [done|]. split; [done|]. by apply has_key_keys.
Qed.

Lemma from_dict_unknown_key_witness :
  from_dict (VDict [("z", VInt 5)]) 1 true (World model_heap [])
    = (Raise (ValueError "loading extra 'z'"), World model_heap [])
  ∧ from_dict (VDict [("z", VInt 5)]) 1 false (World model_heap [])
    = (Ok tt, World model_heap ["loading extra 'z'"])
  ∧ (∀ data strict l o1,
       model_heap !! l = Some o1 →
       ∃ o2, objects (from_dict data 1 strict (World model_heap [])).2 !! l
             = Some o2
             ∧ keys (inst_dict o2) = keys (inst_dict o1)
             ∧ has_key "z" (inst_dict o2) = has_key "z" (inst_dict o1)).
Proof.
  apply (from_dict_unknown_key (World model_heap []) 1
           (Obj ("version" :: base_attrs)
              [("lr", VFloat "0.1"); ("enc", VConf 2); ("name", VStr "unet")])
           "z" (VInt 5)); reflexivity.
Defined.

(** X20. [strict] does not reach nested nodes. With field [f] of [self]
    holding the node [c], and [u] a name that does not resolve on [c]
    ([hasattr] false): strict
    [from_dict({f: {u: v}})] returns, prints the diagnostic for [u] and
    changes no object, whereas the same key at the top level raises when
    [self] does not have it either. More generally, as long as every key of
    the outermost mapping is an attribute of [self], strict and lenient
    mode do the same, whatever the nested mappings contain, and the
    "extra" error is not raised. *)
Theorem from_dict_strict_not_forwarded (w : world) (self c : loc)
    (o oc : obj) (f u : string) (v : value) :
  objects w !! self = Some o →
  dict_get f (inst_dict o) = Some (VConf c) →
  objects w !! c = Some oc →
  hasattr oc u = false →
  from_dict (VDict [(f, VDict [(u, v)])]) self true w
    = (Ok tt, World (objects w) (stdout w ++ [extra_msg u]))
  ∧ (hasattr o u = false →
     from_dict (VDict [(u, v)]) self true w
       = (Raise (ValueError (extra_msg u)), w))
  ∧ (∀ kvs, Forall (fun kv => hasattr o kv.1 = true) kvs →
            from_dict (VDict kvs) self true w
              = from_dict (VDict kvs) self false w
            ∧ ∀ msg, (from_dict (VDict kvs) self true w).1
                     ≠ Raise (ValueError msg)).
Proof.
  intros Ho Hf Hc Hu. split; [|split].
  - rewrite from_dict_VDict. simpl.
    rewrite Ho, (hasattr_of_field _ _ _ Hf), Hf. simpl.
    by rewrite Hc, Hu.
  - intros Hou. rewrite from_dict_VDict. simpl. by rewrite Ho, Hou.
  - intros kvs Hall.
    assert (from_dict (VDict kvs) self true w
            = from_dict (VDict kvs) self false w) as Heq.
    { rewrite !from_dict_VDict.
      eapply from_dict_items_strict_top; [|exact Ho|exact Hall].
      intros v0 c0 w0. apply from_dict_kept. }
    split; [done|]. rewrite Heq. apply from_dict_lenient_no_extra.
Qed.

Lemma from_dict_strict_not_forwarded_witness :
  from_dict (VDict [("enc", VDict [("zz", VInt 5)])]) 1 true
            (World model_heap [])
    = (Ok tt, World model_heap ["loading extra 'zz'"])
  ∧ (hasattr (Obj ("version" :: base_attrs)
                [("lr", VFloat "0.1"); ("enc", VConf 2);
                 ("name", VStr "unet")]) "zz" = false →
     from_dict (VDict [("zz", VInt 5)]) 1 true (World model_heap [])
       = (Raise (ValueError "loading extra 'zz'"), World model_heap []))
  ∧ (∀ kvs,
       Forall (fun kv => hasattr (Obj ("version" :: base_attrs)
                                    [("lr", VFloat "0.1"); ("enc", VConf 2);
                                     ("name", VStr "unet")]) kv.1 = true)
              kvs →
       from_dict (VDict kvs) 1 true (World model_heap [])
         = from_dict (VDict kvs) 1 false (World model_heap [])
       ∧ ∀ msg, (from_dict (VDict kvs) 1 true (World model_heap [])).1
                ≠ Raise (ValueError msg)).
Proof.
  apply (from_dict_strict_not_forwarded (World model_heap []) 1 2
           (Obj ("version" :: base_attrs)
              [("lr", VFloat "0.1"); ("enc", VConf 2); ("name", VStr "unet")])
           (Obj base_attrs [("ch", VInt 64); ("depth", VInt 4)])
           "enc" "zz" (VInt 5)); reflexivity.
Defined.

Lemma load_kept fs path self w :
  nodes_kept (objects w) (objects (load fs path self w).2).
Proof.
  unfold load.
  destruct (read_file fs path) as [[j|]|]; try apply nodes_kept_refl.
  destruct (loads j); [apply from_dict_kept|apply nodes_kept_refl].
Qed.

(** C10. A field that holds a nested node before [from_dict] or [load]
    holds the same node afterwards, in every object of the heap, whatever
    the data, the mode and the outcome; a mapping given for such a field is
    handed to that node, which is updated in place. *)
Theorem from_dict_keeps_nested_nodes (data : value) (self : loc)
    (strict : bool) (w : world) (fs : fsys) (path : string)
    (l : loc) (o : obj) (k : string) (c : loc) :
  objects w !! l = Some o →
  dict_get k (inst_dict o) = Some (VConf c) →
  (∃ o', objects (from_dict data self strict w).2 !! l = Some o'
         ∧ dict_get k (inst_dict o') = Some (VConf c))
  ∧ (∃ o', objects (load fs path self w).2 !! l = Some o'
           ∧ dict_get k (inst_dict o') = Some (VConf c))
  ∧ from_dict (VDict [(k, data)]) l strict w = from_dict data c false w.
Proof.
  intros Ho Hk. split; [|split].
  - destruct (from_dict_kept data self strict w l o Ho)
      as (o' & Ho' & _ & _ & Hlinks).
    exists o'. split; [done|]. by apply Hlinks.
  - destruct (load_kept fs path self w l o Ho) as (o' & Ho' & _ & _ & Hlinks).
    exists o'. split; [done|]. by apply Hlinks.
  - rewrite from_dict_VDict. simpl.
    rewrite Ho, (hasattr_of_field _ _ _ Hk), Hk. simpl.
    by destruct (from_dict data c false w) as [[[]|e] w'].
Qed.

Lemma from_dict_keeps_nested_nodes_witness :
  (∃ o', objects (from_dict (VDict [("enc", VInt 3); ("lr", VInt 1)]) 1 true
                            (World model_heap [])).2 !! 1 = Some o'
         ∧ dict_get "enc" (inst_dict o') = Some (VConf 2))
  ∧ (∃ o', objects (load (fs_with (Doc (JObj [("enc", JNull)])))
                         "out/c.json" 1 (World model_heap [])).2 !! 1 = Some o'
           ∧ dict_get "enc" (inst_dict o') = Some (VConf 2))
  ∧ from_dict (VDict [("enc", VDict [("enc", VInt 3); ("lr", VInt 1)])]) 1 true
              (World model_heap [])
    = from_dict (VDict [("enc", VInt 3); ("lr", VInt 1)]) 2 false
                (World model_heap []).
Proof.
  apply (from_dict_keeps_nested_nodes
           (VDict [("enc", VInt 3); ("lr", VInt 1)]) 1 true
           (World model_heap [])
           (fs_with (Doc (JObj [("enc", JNull)]))) "out/c.json" 1
           (Obj ("version" :: base_attrs)
              [("lr", VFloat "0.1"); ("enc", VConf 2); ("name", VStr "unet")])
           "enc" 2); reflexivity.
Defined.

(** ** Activation.get_act *)

Lemma exp1_bounds : (2 < exp 1 <= 3)%R.
Proof.
  split; [|apply exp_le_3].
  pose proof (exp_ineq1 1 ltac:(lra)). lra.
Qed.

Lemma act_relu_m1 : act_fn ReLU (-1) = 0%R.
Proof. simpl. unfold Rmax. destruct (Rle_dec 0 (-1)); lra. Qed.

Lemma slope_02 : Q2R (Q2Qc (2 # 10)) = (2 / 10)%R.
Proof. vm_compute. lra. Qed.

Lemma act_lrelu_m1 : act_fn (LeakyReLU (Q2Qc (2 # 10))) (-1) = (- (2 / 10))%R.
Proof.
  unfold act_fn. rewrite slope_02. unfold Rmax, Rmin.
  destruct (Rle_dec 0 (-1)); lra.
Qed.

Lemma act_silu_m1 : (- (1 / 3) < act_fn SiLU (-1) <= - (1 / 4))%R.
Proof.
  unfold act_fn. replace (- -1)%R with 1%R by lra. pose proof exp1_bounds as [H2 H3].
  assert (0 < / (1 + exp 1) )%R as Hpos by (apply Rinv_0_lt_compat; lra).
  assert ((1 + exp 1) * / (1 + exp 1) = 1)%R as Hinv by (apply Rinv_r; lra).
  unfold Rdiv. set (i := (/ (1 + exp 1))%R) in *.
  assert (0 < i * (exp 1 - 2))%R by (apply Rmult_lt_0_compat; lra).
  assert (0 <= i * (3 - exp 1))%R by (apply Rmult_le_pos; lra).
  lra.
Qed.

Lemma act_tanh_m1 : (- 1 < act_fn Tanh (-1) < - (1 / 2))%R.
Proof.
  unfold act_fn, Rtrigo_def.tanh, sinh, cosh. replace (- -1)%R with 1%R by lra.
  pose proof exp1_bounds as [H2 H3].
  assert (exp (-1) * exp 1 = 1)%R as Hmul.
  { rewrite <- exp_plus. replace (-1 + 1)%R with 0%R by lra. apply exp_0. }
  assert (0 < exp (-1))%R as Ha by apply exp_pos.
  set (a := exp (-1)) in *. set (e := exp 1) in *.
  assert (0 < / ((a + e) / 2))%R as Hpos by (apply Rinv_0_lt_compat; lra).
  assert (((a + e) / 2) * / ((a + e) / 2) = 1)%R as Hinv by (apply Rinv_r; lra).
  unfold Rdiv at 1. unfold Rdiv at 3.
  set (d := (/ ((a + e) / 2))%R) in *.
  assert (0 < d * a)%R by (apply Rmult_lt_0_compat; lra).
  assert (0 < d * (e - 2))%R by (apply Rmult_lt_0_compat; lra).
  assert (a * e = 1)%R by lra.
  assert (a < 1 / 2)%R by nra.
  assert (0 < d * (e - 3 * a))%R by (apply Rmult_lt_0_compat; lra).
  lra.
Qed.

(** C8. [get_act] sends [none], [relu], [lrelu], [silu] and [tanh] to the
    identity, the rectifier, the leaky rectifier of slope 0.2, the sigmoid
    linear unit and the hyperbolic tangent; it is defined on each of the
    five members, the five functions differ from one another (already at
    the point -1), the result depends on the tag alone, and on anything
    that is not one of the five members it raises [NotImplementedError]. *)
Theorem get_act_table :
  get_act (Member none) = Ok Identity
  ∧ get_act (Member relu) = Ok ReLU
  ∧ get_act (Member lrelu) = Ok (LeakyReLU (Q2Qc (2 # 10)))
  ∧ Q2R (Q2Qc (2 # 10)) = (2 / 10)%R
  ∧ get_act (Member silu) = Ok SiLU
  ∧ get_act (Member tanh) = Ok Tanh
  ∧ (∀ a b m1 m2,
       get_act (Member a) = Ok m1 → get_act (Member b) = Ok m2 → a ≠ b →
       act_fn m1 (-1) ≠ act_fn m2 (-1))
  ∧ (∀ t, (∀ a, t ≠ Member a) → get_act t = Raise NotImplementedError).
Proof.
  repeat split; try reflexivity.
  - apply slope_02.
  - pose proof act_relu_m1 as Hrelu. pose proof act_lrelu_m1 as Hlrelu.
    pose proof act_silu_m1 as Hsilu. pose proof act_tanh_m1 as Htanh.
    assert (act_fn Identity (-1) = (-1)%R) as Hid by reflexivity.
    intros a b m1 m2 Ha Hb Hab.
    destruct a, b; try done; injection Ha as <-; injection Hb as <-; lra.
  - intros t Ht. destruct t as [a|what]; [by destruct (Ht a)|done].
Qed.

Lemma get_act_table_witness :
  act_fn ReLU (-1) ≠ act_fn SiLU (-1)
  ∧ get_act (Foreign "gelu") = Raise NotImplementedError.
Proof.
  destruct get_act_table as (_ & _ & _ & _ & _ & _ & Hdiff & Hout). split.
  - apply (Hdiff relu silu); [reflexivity | reflexivity | discriminate].
  - apply Hout. discriminate.
Defined.

(** ** save *)

(** A path without a directory part never gets written: its [dirname] is
    the empty string, which does not exist, and [os.makedirs('')] fails. *)
Lemma save_no_directory_part fuel fs h self save_path :
  dirname save_path = "" →
  save fuel fs h self save_path = Raise FileNotFoundError.
Proof.
  intros Hdir. unfold save. rewrite Hdir. reflexivity.
Qed.

(** C9 (the code departs from it). [save("conf.json")] raises
    [FileNotFoundError] from the creation of the empty directory name,
    on every file system and for every node, where the specification has
    it succeed without creating anything. *)
Theorem save_bare_filename_raises :
  ∀ fuel fs h self,
    save fuel fs h self "conf.json" = Raise FileNotFoundError.
Proof.
  intros. by apply save_no_directory_part.
Qed.

(** With a directory part, the missing parents are created and the
    document is written, also under another spelling of the path. A
    directory that may not be written to makes the creation, and with it
    [save], fail; so do a path that ends in a slash and a regular file in
    the place of a directory. *)
Lemma save_creates_parents :
  save 1 work_fs opaque_heap 1 "out/run/conf.json"
    = Ok (Fs (<[["work"; "out"; "run"; "conf.json"] :=
                  EFile true (Doc (JObj [("a", JInt 1)]))]>
                (<[["work"; "out"; "run"] := EDir true]>
                   (<[["work"; "out"] := EDir true]> (tree work_fs))))
             ["work"])
  ∧ save 1 work_fs opaque_heap 1 "./out//run/conf.json"
    = save 1 work_fs opaque_heap 1 "/work/out/run/conf.json"
  ∧ save 1 (Fs (<[["work"] := EDir false]> (tree work_fs)) ["work"])
         opaque_heap 1 "out/conf.json"
    = Raise PermissionError
  ∧ save 1 (fs_with NoDoc) opaque_heap 1 "out/" = Raise IsADirectoryError
  ∧ save 1 (fs_with NoDoc) opaque_heap 1 "out/c.json/conf.json"
    = Raise NotADirectoryError.
Proof. repeat split; vm_compute; reflexivity. Qed.

(** ** The file system under save *)

Lemma extends_refl fs : extends fs fs.
Proof. split; [done|]. split; [done|]. intros l e Hl. by left. Qed.

Lemma extends_trans fs1 fs2 fs3 :
  extends fs1 fs2 → extends fs2 fs3 → extends fs1 fs3.
Proof.
  intros (Hc1 & H1 & Hn1) (Hc2 & H2 & Hn2). split; [congruence|]. split.
  - intros l e Hl. by apply H2, H1.
  - intros l e Hl. destruct (Hn2 l e Hl) as [Hl2| ->]; [|by right].
    by apply Hn1.
Qed.

(** A walk only depends on the directories it goes through. *)
Lemma walk_stable (t t' : gmap (list string) entry) names :
  (∀ l w, t !! l = Some (EDir w) → ∃ w', t' !! l = Some (EDir w')) →
  ∀ cur d, walk t cur names = Ok d → walk t' cur names = Ok d.
Proof.
  intros Hdirs. induction names as [|n names IH]; intros cur d; [done|].
  simpl. destruct (String.eqb n "."); [apply IH|].
  destruct (String.eqb n ".."); [apply IH|].
  destruct (t !! (cur ++ [n])%list) as [[w|w c]|] eqn:Hn; [|done..].
  destruct (Hdirs _ _ Hn) as [w' ->]. apply IH.
Qed.

(** A path that led to an entry leads to what is now in its place, as
    long as the directories are where they were. *)
Lemma lookup_path_stable (fs : fsys) (t' : gmap (list string) entry) p l e e' :
  (∀ l w, tree fs !! l = Some (EDir w) → ∃ w', t' !! l = Some (EDir w')) →
  lookup_path fs p = Ok (Existing l e) → t' !! l = Some e' →
  lookup_path (Fs t' (cwd fs)) p = Ok (Existing l e').
Proof.
  intros Hdirs. unfold lookup_path, entry_at. simpl.
  destruct (String.eqb p ""); [done|].
  destruct (walk (tree fs) _ _) as [dir|] eqn:Hw; [|done].
  rewrite (walk_stable _ t' _ Hdirs _ _ Hw).
  destruct (last _) as [n|].
  - destruct (String.eqb n ".").
    { destruct (tree fs !! dir); [|done]. intros [= <- <-] ->. done. }
    destruct (String.eqb n "..").
    { destruct (tree fs !! parent dir); [|done]. intros [= <- <-] ->. done. }
    destruct (tree fs !! (dir ++ [n])%list); [|done].
    intros [= <- <-] ->. done.
  - destruct (tree fs !! dir); [|done]. intros [= <- <-] ->. done.
Qed.

(** A path that led to a free name leads to what has been put there. *)
Lemma lookup_path_created (fs : fsys) (t' : gmap (list string) entry) p dir n e' :
  (∀ l w, tree fs !! l = Some (EDir w) → ∃ w', t' !! l = Some (EDir w')) →
  lookup_path fs p = Ok (Absent dir n) → t' !! (dir ++ [n])%list = Some e' →
  lookup_path (Fs t' (cwd fs)) p = Ok (Existing (dir ++ [n])%list e').
Proof.
  intros Hdirs. unfold lookup_path, entry_at. simpl.
  destruct (String.eqb p ""); [done|].
  destruct (walk (tree fs) _ _) as [d|] eqn:Hw; [|done].
  rewrite (walk_stable _ t' _ Hdirs _ _ Hw).
  destruct (last _) as [n0|].
  - destruct (String.eqb n0 "."); [by destruct (tree fs !! d)|].
    destruct (String.eqb n0 ".."); [by destruct (tree fs !! parent d)|].
    destruct (tree fs !! (d ++ [n0])%list); [done|].
    intros [= <- <-] ->. done.
  - by destruct (tree fs !! d).
Qed.

Lemma lookup_path_absent fs p dir n :
  lookup_path fs p = Ok (Absent dir n) → tree fs !! (dir ++ [n])%list = None.
Proof.
  unfold lookup_path, entry_at. destruct (String.eqb p ""); [done|].
  destruct (walk (tree fs) _ _) as [d|]; [|done].
  destruct (last _) as [n0|].
  - destruct (String.eqb n0 "."); [by destruct (tree fs !! d)|].
    destruct (String.eqb n0 ".."); [by destruct (tree fs !! parent d)|].
    destruct (tree fs !! (d ++ [n0])%list) eqn:Hn; [done|].
    by intros [= <- <-].
  - by destruct (tree fs !! d).
Qed.

Lemma lookup_path_existing fs p l e :
  lookup_path fs p = Ok (Existing l e) → tree fs !! l = Some e.
Proof.
  unfold lookup_path, entry_at. destruct (String.eqb p ""); [done|].
  destruct (walk (tree fs) _ _) as [d|]; [|done].
  destruct (last _) as [n0|].
  - destruct (String.eqb n0 ".").
    { destruct (tree fs !! d) eqn:Hd; [|done]. by intros [= <- <-]. }
    destruct (String.eqb n0 "..").
    { destruct (tree fs !! parent d) eqn:Hd; [|done]. by intros [= <- <-]. }
    destruct (tree fs !! (d ++ [n0])%list) eqn:Hn; [|done].
    by intros [= <- <-].
  - destruct (tree fs !! d) eqn:Hd; [|done]. by intros [= <- <-].
Qed.

Lemma mkdir_extends fs p fs' : mkdir fs p = Ok fs' → extends fs fs'.
Proof.
  unfold mkdir. destruct (lookup_path fs p) as [[l e|dir n]|] eqn:Hp; try done.
  destruct (dir_writable fs dir); [|done]. intros [= <-].
  apply lookup_path_absent in Hp.
  split; [done|]. simpl. split; intros l e.
  - intros Hl. rewrite lookup_insert_ne; [done|]. intros <-. congruence.
  - destruct (decide (l = (dir ++ [n])%list)) as [->|Hne].
    + rewrite lookup_insert_eq. intros [= <-]. by right.
    + rewrite lookup_insert_ne by done. by left.
Qed.

Lemma makedirs_aux_extends n :
  ∀ fs name r fs', makedirs_aux n fs name = (r, fs') → extends fs fs'.
Proof.
  assert (Hleaf : ∀ fs0 name r fs',
            match mkdir fs0 name with
            | Ok fs1 => (Ok tt, fs1)
            | Raise e => (Raise e, fs0)
            end = (r, fs') → extends fs0 fs').
  { intros fs0 name r fs'. destruct (mkdir fs0 name) as [fs1|] eqn:Hm.
    - intros [= <- <-]. by eapply mkdir_extends.
    - intros [= <- <-]. apply extends_refl. }
  induction n as [|n IH]; intros fs name r fs'; simpl.
  - destruct (_ && _); [intros [= <- <-]; apply extends_refl|apply Hleaf].
  - destruct (_ && _); [|apply Hleaf].
    destruct (makedirs_aux n fs _) as [r1 fs1] eqn:H1.
    apply IH in H1.
    assert (Hnext : (if String.eqb
                          (if String.eqb (split name).2 ""
                           then split (split name).1 else split name).2 "."
                     then (Ok tt, fs1)
                     else match mkdir fs1 name with
                          | Ok fs2 => (Ok tt, fs2)
                          | Raise e => (Raise e, fs1)
                          end) = (r, fs') → extends fs fs').
    { destruct (String.eqb _ ".").
      - by intros [= <- <-].
      - intros H2. eapply extends_trans; [exact H1|]. by eapply Hleaf. }
    destruct r1 as [[]|e]; [exact Hnext|].
    destruct e; try (by intros [= <- <-]). exact Hnext.
Qed.

Lemma extends_dirs fs fs' :
  extends fs fs' →
  ∀ l w, tree fs !! l = Some (EDir w) → ∃ w', tree fs' !! l = Some (EDir w').
Proof. intros (_ & H & _) l w Hl. exists w. by apply H. Qed.

Lemma extends_lookup fs fs' p l e :
  extends fs fs' → lookup_path fs p = Ok (Existing l e) →
  lookup_path fs' p = Ok (Existing l e).
Proof.
  intros Hext Hp. destruct fs' as [t' c']. destruct Hext as (Hc & Ht & _).
  simpl in Hc. subst c'.
  apply (lookup_path_stable fs t' p l e e); [|done|].
  - intros l0 w Hl0. exists w. by apply Ht.
  - apply Ht. by eapply lookup_path_existing.
Qed.

(** What [open(p, 'w')] followed by the writing of [j] leaves. *)
Lemma open_w_written fs p fs2 f j :
  open_w fs p = Ok (fs2, f) →
  trailing p = false
  ∧ cwd fs2 = cwd fs
  ∧ tree (write_doc fs2 f j) = <[f := EFile true (Doc j)]> (tree fs)
  ∧ (∀ w, tree fs !! f ≠ Some (EDir w))
  ∧ lookup_path (write_doc fs2 f j) p
    = Ok (Existing f (EFile true (Doc j))).
Proof.
  unfold open_w. destruct (lookup_path fs p) as [t|] eqn:Hp; [|done].
  destruct (trailing p); [done|]. intros Hopen. split; [done|].
  assert (Hdirs : ∀ l w,
            tree fs !! l = Some (EDir w) → l ≠ f →
            ∃ w', <[f := EFile true (Doc j)]> (tree fs) !! l = Some (EDir w')).
  { intros l w Hl Hne. exists w. by rewrite lookup_insert_ne. }
  destruct t as [l [w|w c]|dir n]; [done| |].
  - destruct w; [|done]. injection Hopen as <- <-. simpl.
    pose proof (lookup_path_existing _ _ _ _ Hp) as Hl.
    split; [done|]. split; [by rewrite insert_insert_eq|].
    split; [by rewrite Hl|]. unfold write_doc. simpl.
    rewrite insert_insert_eq.
    apply (lookup_path_stable fs _ p l (EFile true c)); [|done|].
    + intros l0 w Hl0. apply (Hdirs l0 w Hl0). intros ->. congruence.
    + apply lookup_insert_eq.
  - destruct (dir_writable fs dir); [|done]. injection Hopen as <- <-. simpl.
    pose proof (lookup_path_absent _ _ _ _ Hp) as Hl.
    split; [done|]. split; [by rewrite insert_insert_eq|].
    split; [by rewrite Hl|]. unfold write_doc. simpl.
    rewrite insert_insert_eq.
    apply (lookup_path_created fs _ p dir n); [|done|].
    + intros l0 w Hl0. apply (Hdirs l0 w Hl0). intros ->. congruence.
    + apply lookup_insert_eq.
Qed.

(** What a successful [save] has done: created directories, serialized the
    node, and written the document to the file its path leads to. *)
Lemma save_Ok fuel fs h self path fs' :
  save fuel fs h self path = Ok fs' →
  ∃ fs1 conf j f,
    extends fs fs1
    ∧ as_dict_jsonable fuel h self = Ok conf
    ∧ dumps fuel (VDict conf) = Ok j
    ∧ trailing path = false
    ∧ cwd fs' = cwd fs
    ∧ tree fs' = <[f := EFile true (Doc j)]> (tree fs1)
    ∧ (∀ w, tree fs1 !! f ≠ Some (EDir w))
    ∧ lookup_path fs' path = Ok (Existing f (EFile true (Doc j))).
Proof.
  unfold save.
  destruct (if negb (path_exists fs (dirname path)) then _ else _)
    as [[[]|] fs1] eqn:Hdirs; [|done].
  assert (extends fs fs1) as Hext.
  { destruct (negb (path_exists fs (dirname path))).
    - by eapply makedirs_aux_extends.
    - injection Hdirs as <-. apply extends_refl. }
  destruct (as_dict_jsonable fuel h self) as [conf|] eqn:Hconf; [|done].
  destruct (open_w fs1 path) as [[fs2 f]|] eqn:Hopen; [|done].
  destruct (dumps fuel (VDict conf)) as [j|] eqn:Hj; [|done].
  intros [= <-].
  destruct (open_w_written _ _ _ _ j Hopen) as (Ht & Hc & Htree & Hnd & Hl).
  exists fs1, conf, j, f. do 4 (split; [done|]).
  split; [|done]. simpl. rewrite Hc. by destruct Hext.
Qed.

Lemma save_then_read fuel fs h self path fs' :
  save fuel fs h self path = Ok fs' →
  ∃ conf j, as_dict_jsonable fuel h self = Ok conf
            ∧ dumps fuel (VDict conf) = Ok j
            ∧ read_file fs' path = Ok (Doc j).
Proof.
  intros (fs1 & conf & j & f & _ & Hconf & Hj & Ht & _ & _ & _ & Hl)%save_Ok.
  exists conf, j. do 2 (split; [done|]). unfold read_file.
  by rewrite Hl, Ht.
Qed.

(** ** Values, JSON documents and back *)

Lemma seq_eq_refl (eq : value → value → option bool) xs :
  Forall (fun x => eq x x = Some true) xs → seq_eq eq xs xs = Some true.
Proof. induction 1 as [|x xs Hx _ IH]; simpl; [done|]. by rewrite Hx. Qed.

Lemma entries_eq_refl (eq : value → value → option bool) kvs l :
  NoDup (keys kvs) → l ⊆ kvs →
  Forall (fun kv => eq kv.2 kv.2 = Some true) l →
  entries_eq eq kvs l = Some true.
Proof.
  intros Hnd Hsub. induction 1 as [|[k v] l Hv _ IH]; simpl; [done|].
  rewrite (dict_get_NoDup k v) by (done || (apply Hsub; by left)).
  simpl in Hv. rewrite Hv. apply IH. intros x Hx. apply Hsub. by right.
Qed.

(** A value of JSON's data model other than NaN equals itself. *)
Lemma elem_eq_refl x : json_native x = true → elem_eq x x = Some true.
Proof.
  induction x as [|a|a|a|a|xs IH|xs IH|kvs IH|a|a|a] using value_ind_nested;
    simpl; intros Hn; try done.
  - by rewrite Bool.eqb_reflx.
  - by rewrite Z.eqb_refl.
  - apply negb_true_iff in Hn. unfold float_eqb.
    by rewrite Hn, String.eqb_refl.
  - by rewrite String.eqb_refl.
  - rewrite Nat.eqb_refl. apply seq_eq_refl.
    rewrite forallb_forall in Hn. rewrite Forall_forall in IH.
    apply Forall_forall. intros x Hx. apply IH; [done|].
    by apply Hn, list_elem_of_In.
  - apply andb_true_iff in Hn as [Hnd%bool_decide_eq_true Hn].
    rewrite Nat.eqb_refl. apply entries_eq_refl; [done..|].
    rewrite forallb_forall in Hn. rewrite Forall_forall in IH.
    apply Forall_forall. intros kv Hx. apply IH; [done|].
    by apply Hn, list_elem_of_In.
Qed.

Lemma value_eqb_refl x : json_native x = true → value_eqb x x = true.
Proof.
  intros Hn. unfold value_eqb, py_eq.
  destruct x; try (by rewrite (elem_eq_refl _ Hn)).
  simpl in Hn. apply negb_true_iff in Hn. unfold float_eqb.
  by rewrite Hn, String.eqb_refl.
Qed.

Lemma dict_of_pairs_id d : NoDup (keys d) → dict_of_pairs d = d.
Proof.
  unfold dict_of_pairs. induction d as [|[k v] d IH] using rev_ind; [done|].
  unfold keys. rewrite map_app. simpl. intros Hnd.
  apply NoDup_app in Hnd as (Hnd & Hk & _).
  rewrite foldl_app. simpl. rewrite IH by done.
  apply dict_set_fresh. intros Hin. apply (Hk k Hin). by left.
Qed.

Lemma mapR_roundtrip {A B} (f : A → result B) (g : B → result A)
    (l : list A) (ys : list B) :
  Forall (fun x => ∀ y, f x = Ok y → g y = Ok x) l →
  mapR f l = Ok ys → mapR g ys = Ok l.
Proof.
  intros Hall Hm. apply mapR_Ok in Hm. apply mapR_Ok.
  induction Hm as [|x y l ys Hxy _ IH]; [done|].
  apply Forall_cons in Hall as [Hx Hall]. constructor; [by apply Hx|].
  by apply IH.
Qed.

(** A value of JSON's data model that is written is read back unchanged. *)
Lemma native_roundtrip x :
  json_native x = true → ∀ d j, dumps d x = Ok j → loads j = Ok x.
Proof.
  induction x as [|a|a|a|a|xs IH|xs IH|kvs IH|a|a|a] using value_ind_nested;
    simpl; intros Hn d j; try done; try (by intros [= <-]).
  - destruct (int_in_limit a) eqn:Ha; [|done]. intros [= <-]. simpl.
    by rewrite Ha.
  - destruct d as [|d]; [done|].
    destruct (mapR (dumps d) xs) as [js|] eqn:Hjs; [|done].
    intros [= <-]. simpl.
    rewrite (mapR_roundtrip (dumps d) loads xs js); [done| |done].
    rewrite forallb_forall in Hn. rewrite Forall_forall in IH.
    apply Forall_forall. intros x Hx y. apply IH; [done|].
    by apply Hn, list_elem_of_In.
  - apply andb_true_iff in Hn as [Hnd%bool_decide_eq_true Hn].
    destruct d as [|d]; [done|].
    destruct (mapR _ kvs) as [js|] eqn:Hjs; [|done].
    intros [= <-]. simpl.
    rewrite (mapR_roundtrip
               (fun kv : string * value =>
                  match dumps d kv.2 with
                  | Ok j => Ok (kv.1, j)
                  | Raise e => Raise e
                  end)
               (fun kv : string * json =>
                  match loads kv.2 with
                  | Ok v => Ok (kv.1, v)
                  | Raise e => Raise e
                  end) kvs js); [by rewrite dict_of_pairs_id| |done].
    rewrite forallb_forall in Hn. rewrite Forall_forall in IH.
    apply Forall_forall. intros [k v] Hx [k' j']. simpl.
    destruct (dumps d v) as [j|] eqn:Hj; [|done]. intros [= <- <-]. simpl.
    rewrite (IH (k, v) Hx) with (d := d) (j := j); [done| |done].
    by apply (Hn (k, v)), list_elem_of_In.
Qed.

(** ** Walking two trees side by side *)

Lemma same_tree_S leaf h h2 m a b :
  same_tree leaf h h2 (S m) a b =
  oa ← h !! a;
  ob ← h2 !! b;
  if bool_decide (keys (inst_dict oa) = keys (inst_dict ob)
                  ∧ NoDup (keys (inst_dict oa)))
  then nss ← mapM (tree_field leaf (same_tree leaf h h2 m) (inst_dict ob))
                  (inst_dict oa);
       Some (b :: concat nss)
  else None.
Proof. done. Qed.

Lemma tree_field_conf leaf rec db k ca ns :
  tree_field leaf rec db (k, VConf ca) = Some ns ↔
  ∃ cb, dict_get k db = Some (VConf cb) ∧ rec ca cb = Some ns.
Proof.
  unfold tree_field. simpl. split.
  - destruct (dict_get k db) as [[]|]; try done. intros H. by eexists.
  - by intros (cb & -> & H).
Qed.

Lemma tree_field_plain_eq leaf rec db k va :
  is_conf va = false →
  tree_field leaf rec db (k, va) =
  match dict_get k db with
  | Some vb => if negb (is_conf vb) && leaf va vb then Some [] else None
  | None => None
  end.
Proof.
  intros Hva. unfold tree_field. simpl.
  destruct va; try done; by destruct (dict_get k db).
Qed.

Lemma tree_field_plain leaf rec db k va ns :
  is_conf va = false →
  tree_field leaf rec db (k, va) = Some ns ↔
  ∃ vb, dict_get k db = Some vb ∧ is_conf vb = false
        ∧ leaf va vb = true ∧ ns = [].
Proof.
  intros Hva. rewrite tree_field_plain_eq by done. split.
  - destruct (dict_get k db) as [vb|]; [|done]. intros H. exists vb.
    destruct (is_conf vb), (leaf va vb); simpl in H; try done.
    by injection H as <-.
  - intros (vb & -> & -> & -> & ->). done.
Qed.

(** Only the nodes it lists matter to [same_tree]. *)
Lemma same_tree_local leaf h h2 h2' n a b ns :
  same_tree leaf h h2 n a b = Some ns →
  (∀ l, l ∈ ns → h2' !! l = h2 !! l) →
  same_tree leaf h h2' n a b = Some ns.
Proof.
  revert a b ns. induction n as [|m IH]; intros a b ns; [done|].
  rewrite !same_tree_S. destruct (h !! a) as [oa|]; [|done]. simpl.
  destruct (h2 !! b) as [ob|] eqn:Hb; [|done]. simpl.
  case_bool_decide as Hkeys; [|done].
  destruct (mapM _ (inst_dict oa)) as [nss|] eqn:Hnss; [|done]. simpl.
  intros [= <-] Hagree.
  rewrite (Hagree b), Hb by left. simpl.
  rewrite bool_decide_eq_true_2 by done.
  assert (mapM (tree_field leaf (same_tree leaf h h2' m) (inst_dict ob))
               (inst_dict oa) = Some nss) as ->; [|done].
  assert (Hsub : ∀ l, l ∈ concat nss → h2' !! l = h2 !! l)
    by (intros l Hl; apply Hagree; by right).
  clear Hagree Hkeys. apply mapM_Some in Hnss. apply mapM_Some.
  induction Hnss as [|[k va] ns_f fs nss' Hf _ IHf]; [done|].
  simpl in Hsub. constructor.
  - destruct (is_conf va) eqn:Hva.
    + destruct va; try done. apply tree_field_conf.
      apply tree_field_conf in Hf as (cb & Hk & Hrec).
      exists cb. split; [done|]. apply IH; [done|].
      intros l0 Hl0. apply Hsub, elem_of_app. by left.
    + apply tree_field_plain; [done|].
      by apply tree_field_plain in Hf.
  - apply IHf. intros l Hl. apply Hsub, elem_of_app. by right.
Qed.

(** What [field_equal] says of one level: the same field names, every
    plain field of the first node found with the same value in the second,
    every nested node facing a nested node that is field-equal in turn. *)
Lemma field_equal_sound m h a h2 b :
  field_equal (S m) h a h2 b = true →
  ∃ oa ob,
    h !! a = Some oa ∧ h2 !! b = Some ob
    ∧ keys (inst_dict oa) = keys (inst_dict ob)
    ∧ ∀ k va, (k, va) ∈ inst_dict oa →
        match va with
        | VConf ca => ∃ cb, dict_get k (inst_dict ob) = Some (VConf cb)
                            ∧ field_equal m h ca h2 cb = true
        | _ => ∃ vb, dict_get k (inst_dict ob) = Some vb
                     ∧ py_eq va vb = Some true
        end.
Proof.
  unfold field_equal. rewrite same_tree_S.
  destruct (h !! a) as [oa|]; [|done]. simpl.
  destruct (h2 !! b) as [ob|]; [|done]. simpl.
  case_bool_decide as Hk; [|done]. destruct Hk as [Hkeys _].
  destruct (mapM _ (inst_dict oa)) as [nss|] eqn:Hnss; [|done].
  intros _. exists oa, ob. do 3 (split; [done|]).
  apply mapM_Some in Hnss. intros k va Hin.
  apply list_elem_of_lookup in Hin as [i Hi].
  destruct (Forall2_lookup_l _ _ _ _ _ Hnss Hi) as (ns_f & _ & Hf).
  destruct (is_conf va) eqn:Hva.
  - destruct va as [| | | | | | | | |ca|]; try done.
    apply tree_field_conf in Hf as (cb & Hget & Hrec).
    exists cb. split; [done|]. by rewrite Hrec.
  - apply tree_field_plain in Hf as (vb & Hget & _ & Heq & _); [|done].
    assert (py_eq va vb = Some true) as Hpy.
    { unfold value_eqb in Heq. by destruct (py_eq va vb) as [[]|]. }
    destruct va; try done; by exists vb.
Qed.

(** ** The serialization of a node all of whose fields are kept *)

Lemma ser_field_key rec fa e : ser_field rec fa = Some e → e.1 = fa.1.
Proof.
  unfold ser_field. destruct fa as [k []]; simpl; try by intros [= <-].
  destruct (rec l); simpl; [|done]. by intros [= <-].
Qed.

Lemma mapM_ser_keys rec fs es :
  mapM (ser_field rec) fs = Some es → keys es = keys fs.
Proof.
  intros H. apply mapM_Some in H.
  induction H as [|fa e fs es He _ IH]; [done|]. simpl.
  by rewrite (ser_field_key _ _ _ He), IH.
Qed.

Lemma mapR_Raise_elem {A B} (f : A → result B) (l : list A) e :
  mapR f l = Raise e → ∃ x, x ∈ l ∧ f x = Raise e.
Proof.
  induction l as [|x l IH]; simpl; [done|].
  destruct (f x) as [y|e'] eqn:Hx.
  - destruct (mapR f l) as [ys|e'] eqn:Hl; [done|]. intros [= ->].
    destruct (IH eq_refl) as (x' & Hin & Hx'). exists x'. split; [by right|done].
  - intros [= ->]. exists x. split; [by left|done].
Qed.

(** [json.dumps] has no [TypeError] for a value of JSON's data model. *)
Lemma native_no_TypeError x :
  json_native x = true → ∀ d, dumps d x ≠ Raise TypeError.
Proof.
  induction x as [|a|a|a|a|xs IH|xs IH|kvs IH|a|a|a] using value_ind_nested;
    simpl; intros Hn d; try done.
  - by destruct (int_in_limit a).
  - destruct d as [|d]; [done|].
    destruct (mapR (dumps d) xs) as [js|e] eqn:Hm; [done|]. intros [= ->].
    apply mapR_Raise_elem in Hm as (x & Hin & Hx).
    rewrite forallb_forall in Hn. rewrite Forall_forall in IH.
    apply (IH x Hin (Hn x ltac:(by apply list_elem_of_In)) d Hx).
  - apply andb_true_iff in Hn as [_ Hn]. destruct d as [|d]; [done|].
    destruct (mapR _ kvs) as [js|e] eqn:Hm; [done|]. intros [= ->].
    apply mapR_Raise_elem in Hm as ([k v] & Hin & Hx). simpl in Hx.
    rewrite forallb_forall in Hn. rewrite Forall_forall in IH.
    destruct (dumps d v) as [j|e] eqn:Hv; [done|]. injection Hx as ->.
    apply (IH (k, v) Hin (Hn (k, v) ltac:(by apply list_elem_of_In)) d Hv).
Qed.

Lemma native_jsonable d v b :
  json_native v = true → jsonable d v = Ok b → b = true.
Proof.
  intros Hn. unfold jsonable. pose proof (native_no_TypeError v Hn d) as Hne.
  destruct (dumps d v) as [j|e]; [by intros [= <-]|]. by destruct e.
Qed.

Lemma mapM_omap {A B} (f : A → option B) (l : list A) :
  Forall (fun x => is_Some (f x)) l → mapM f l = Some (omap f l).
Proof.
  induction 1 as [|x l [y Hy] _ IH]; [done|].
  change (omap f (x :: l)) with (match f x with
                                 | Some y => y :: omap f l
                                 | None => omap f l
                                 end).
  simpl. rewrite Hy. simpl. by rewrite IH.
Qed.

(** Where every field that holds no node holds a value of JSON's data
    model, a serialization that is there has one entry per field. *)
Lemma as_dict_items_closed rec depth items conf0 conf :
  NoDup (keys conf0 ++ keys items) →
  Forall (fun fa => is_conf fa.2 = false → json_native fa.2 = true) items →
  as_dict_items rec depth items conf0 = Ok conf →
  ∃ es, mapM (ser_field (fun c => ok_of (rec c))) items = Some es
        ∧ conf = (conf0 ++ es)%list.
Proof.
  intros Hnd Hnat Hrun. pose proof (as_dict_items_Ok _ _ _ _ _ Hrun) as Hok.
  set (keep := ser_field (fun c => ok_of (rec c))).
  assert (Forall (fun kv =>
            (∀ c, kv.2 = VConf c →
                  ∃ d, rec c = Ok d ∧ keep kv = Some (kv.1, VDict d))
            ∧ (is_conf kv.2 = false →
               ∃ b, jsonable depth kv.2 = Ok b
                    ∧ keep kv = if b then Some kv else None)) items) as Hall.
  { apply Forall_forall. intros [k v] Hin.
    rewrite Forall_forall in Hok, Hnat.
    destruct (Hok _ Hin) as [Hc Hp]. simpl in *. split.
    - intros c ->. destruct (Hc c eq_refl) as [d Hd]. exists d.
      split; [done|]. unfold keep, ser_field. simpl. by rewrite Hd.
    - intros Hv. destruct (Hp Hv) as [b Hb]. exists b. split; [done|].
      rewrite (native_jsonable _ _ _ (Hnat _ Hin Hv) Hb).
      unfold keep, ser_field. by destruct v. }
  rewrite (as_dict_items_kept _ _ keep _ _ Hnd Hall) in Hrun.
  injection Hrun as <-. exists (omap keep items). split; [|done].
  apply mapM_omap. eapply Forall_impl; [exact Hall|].
  intros [k v] [Hc Hp]. simpl in *. destruct (is_conf v) eqn:Hv.
  - destruct v as [| | | | | | | | |c|]; try done.
    destruct (Hc c eq_refl) as (d & _ & ->). by eexists.
  - unfold keep, ser_field. simpl. destruct v; try done; by eexists.
Qed.

(** ** Loading what was saved *)

Lemma from_dict_items_conf rec self strict k v rest w o c :
  objects w !! self = Some o →
  dict_get k (inst_dict o) = Some (VConf c) →
  from_dict_items rec self strict ((k, v) :: rest) w =
  match rec v c w with
  | (Ok _, w') => from_dict_items rec self strict rest w'
  | (Raise e, w') => (Raise e, w')
  end.
Proof.
  intros Ho Hk. simpl. by rewrite Ho, (hasattr_of_field _ _ _ Hk), Hk.
Qed.

Lemma from_dict_items_plain rec self strict k v rest w o vb :
  objects w !! self = Some o →
  dict_get k (inst_dict o) = Some vb → is_conf vb = false →
  from_dict_items rec self strict ((k, v) :: rest) w =
  from_dict_items rec self strict rest
    (World (<[self := Obj (type_attrs o) (dict_set k v (inst_dict o))]>
              (objects w))
           (stdout w)).
Proof.
  intros Ho Hk Hvb. simpl. rewrite Ho, (hasattr_of_field _ _ _ Hk), Hk.
  simpl. by destruct vb.
Qed.

Lemma tree_fields_local leaf h h2 h2' m db db' fs nss :
  Forall2 (fun fa ns_f =>
             tree_field leaf (same_tree leaf h h2 m) db fa = Some ns_f)
          fs nss →
  (∀ l, l ∈ concat nss → h2' !! l = h2 !! l) →
  (∀ k, k ∈ keys fs → dict_get k db' = dict_get k db) →
  Forall2 (fun fa ns_f =>
             tree_field leaf (same_tree leaf h h2' m) db' fa = Some ns_f)
          fs nss.
Proof.
  induction 1 as [|[k va] ns_f fs nss Hf _ IH]; intros Hheap Hdb; [done|].
  simpl in Hheap. constructor.
  - assert (dict_get k db' = dict_get k db) as Hk by (apply Hdb; by left).
    destruct (is_conf va) eqn:Hva.
    + destruct va; try done. apply tree_field_conf.
      apply tree_field_conf in Hf as (cb & Hkb & Hrec).
      exists cb. split; [congruence|].
      eapply same_tree_local; [exact Hrec|].
      intros l0 Hl0. apply Hheap, elem_of_app. by left.
    + apply tree_field_plain; [done|].
      apply tree_field_plain in Hf as (vb & Hkb & Hrest); [|done].
      exists vb. split; [congruence|done].
  - apply IH.
    + intros l Hl. apply Hheap, elem_of_app. by right.
    + intros k' Hk'. apply Hdb. by right.
Qed.

Section round_trip_loop.
Variables (h : heap) (m : nat) (b : loc).

(** what a nested call achieves *)
Hypothesis nested_ok :
  ∀ a b w ns conf,
    mirrors m h a (objects w) b = Some ns → NoDup ns →
    as_dict_jsonable m h a = Ok conf →
    ∃ w', from_dict (VDict conf) b false w = (Ok tt, w')
          ∧ same_tree value_eqb h (objects w') m a b = Some ns
          ∧ (∀ l, l ∉ ns → objects w' !! l = objects w !! l)
          ∧ stdout w' = stdout w.

(** The loop of [from_dict] over the entries [es] written for the fields
    [fs], on a node [b] that mirrors them. *)
Lemma round_trip_loop fs :
  ∀ nss es w1 t db1,
    Forall2 (fun fa ns_f =>
               tree_field (fun va _ => json_native va)
                 (same_tree (fun va _ => json_native va) h (objects w1) m)
                 db1 fa = Some ns_f) fs nss →
    Forall2 (fun fa e => ser_field (serialized m h) fa = Some e) fs es →
    objects w1 !! b = Some (Obj t db1) →
    NoDup (keys fs) → NoDup (b :: concat nss) →
    ∃ w2 db2,
      from_dict_items (fun v c => from_dict v c false) b false es w1
        = (Ok tt, w2)
      ∧ objects w2 !! b = Some (Obj t db2)
      ∧ keys db2 = keys db1
      ∧ (∀ k, k ∉ keys fs → dict_get k db2 = dict_get k db1)
      ∧ Forall2 (fun fa ns_f =>
                   tree_field value_eqb
                     (same_tree value_eqb h (objects w2) m) db2 fa
                   = Some ns_f) fs nss
      ∧ (∀ l, l ∉ b :: concat nss → objects w2 !! l = objects w1 !! l)
      ∧ stdout w2 = stdout w1.
Proof.
  induction fs as [|[k va] fs IH]; intros nss es w1 t db1 HF Hes Hb Hndk Hnd.
  - inversion HF; subst. inversion Hes; subst. exists w1, db1. simpl.
    repeat split; done.
  - inversion HF as [|? ns_f ? nss' Hf HF']; subst.
    inversion Hes as [|? e ? es' He Hes']; subst.
    change (keys ((k, va) :: fs)) with (k :: keys fs) in *.
    apply NoDup_cons in Hndk as [Hk_notin Hndk].
    apply NoDup_cons in Hnd as [Hb_notin Hnd]. simpl in Hb_notin, Hnd.
    apply NoDup_app in Hnd as (Hnd_f & Hdisj & Hnd_rest).
    assert (b ∉ ns_f) as Hb_f by (intros ?; apply Hb_notin, elem_of_app; by left).
    assert (b ∉ concat nss') as Hb_rest
      by (intros ?; apply Hb_notin, elem_of_app; by right).
    destruct (is_conf va) eqn:Hva.
    + destruct va as [| | | | | | | | |ca|]; try done.
      apply tree_field_conf in Hf as (cb & Hk & Hrec).
      change (ser_field (serialized m h) (k, VConf ca))
        with (d ← serialized m h ca; Some (k, VDict d)) in He.
      unfold serialized in He.
      destruct (as_dict_jsonable m h ca) as [d|] eqn:Hd; [|done].
      simpl in He. injection He as <-.
      destruct (nested_ok ca cb w1 ns_f d Hrec Hnd_f Hd)
        as (w1' & Hfd & Htree & Hframe & Hout).
      assert (objects w1' !! b = Some (Obj t db1)) as Hb'
        by (by rewrite Hframe).
      destruct (IH nss' es' w1' t db1)
        as (w2 & db2 & Hrun & Hb2 & Hkeys2 & Hother & HF2 & Hframe2 & Hout2);
        [|done|done|done|by apply NoDup_cons|].
      { eapply tree_fields_local; [exact HF'| |done].
        intros l Hl. apply Hframe. intros Hin. by apply (Hdisj l Hin). }
      exists w2, db2.
      rewrite (from_dict_items_conf _ _ _ _ _ _ _ _ cb Hb Hk), Hfd.
      split; [done|]. split; [done|]. split; [done|].
      split; [|split; [|split]].
      * intros k0 Hk0. apply Hother. intros ?. apply Hk0. by right.
      * constructor; [|done]. apply tree_field_conf. exists cb. split.
        { by rewrite Hother. }
        eapply same_tree_local; [exact Htree|].
        intros l Hl. apply Hframe2. intros [->|Hin]%elem_of_cons; [done|].
        by apply (Hdisj l Hl).
      * intros l Hl. rewrite Hframe2, Hframe; [done| |].
        { intros ?. apply Hl. right. simpl. apply elem_of_app. by left. }
        { intros [->|?]%elem_of_cons; apply Hl; [by left|].
          right. simpl. apply elem_of_app. by right. }
      * congruence.
    + apply tree_field_plain in Hf as (vb & Hk & Hvb & Hnat & ->); [|done].
      assert (ser_field (serialized m h) (k, va) = Some (k, va)) as Hser
        by by destruct va.
      rewrite Hser in He. injection He as <-.
      set (w1' := World (<[b := Obj t (dict_set k va db1)]> (objects w1))
                        (stdout w1)).
      destruct (IH nss' es' w1' t (dict_set k va db1))
        as (w2 & db2 & Hrun & Hb2 & Hkeys2 & Hother & HF2 & Hframe2 & Hout2);
        [|done|apply lookup_insert_eq|done|by apply NoDup_cons|].
      { eapply tree_fields_local; [exact HF'| |].
        - intros l Hl. simpl. apply lookup_insert_ne. by intros <-.
        - intros k' Hk'. apply dict_get_set_ne. by intros <-. }
      exists w2, db2.
      rewrite (from_dict_items_plain _ _ _ _ _ _ _ _ vb Hb Hk Hvb).
      split; [exact Hrun|]. split; [done|]. split.
      { rewrite Hkeys2. apply keys_dict_set, has_key_get. by eexists. }
      split; [|split; [|split]].
      * intros k0 Hk0. rewrite Hother.
        { apply dict_get_set_ne. intros <-. apply Hk0. by left. }
        intros ?. apply Hk0. by right.
      * constructor; [|done]. apply tree_field_plain; [done|].
        exists va. rewrite Hother, dict_get_set_eq by done.
        repeat split; [done|]. by apply value_eqb_refl.
      * intros l Hl. rewrite Hframe2.
        { simpl. apply lookup_insert_ne. intros <-. apply Hl. by left. }
        intros [->|?]%elem_of_cons; apply Hl; [by left|by right].
      * done.
Qed.
End round_trip_loop.

Lemma mirrored_fields_native leaf_rec db fs nss :
  Forall2 (fun fa ns_f =>
             tree_field (fun va _ => json_native va) leaf_rec db fa
             = Some ns_f) fs nss →
  Forall (fun fa : string * value =>
            is_conf fa.2 = false → json_native fa.2 = true) fs.
Proof.
  induction 1 as [|[k va] ns_f fs nss Hf _ IH]; constructor; [|done].
  simpl. intros Hva.
  by apply tree_field_plain in Hf as (vb & _ & _ & Hnat & _).
Qed.

(** What [as_dict_jsonable] returns for a mirrored node: one entry per
    field, in order. *)
Lemma mirrored_serialization h h2 m a b oa ns conf :
  mirrors (S m) h a h2 b = Some ns →
  h !! a = Some oa →
  as_dict_jsonable (S m) h a = Ok conf →
  ∃ ob nss,
    h2 !! b = Some ob
    ∧ keys (inst_dict oa) = keys (inst_dict ob)
    ∧ NoDup (keys (inst_dict oa))
    ∧ Forall2 (fun fa ns_f =>
                 tree_field (fun va _ => json_native va)
                   (same_tree (fun va _ => json_native va) h h2 m)
                   (inst_dict ob) fa = Some ns_f) (inst_dict oa) nss
    ∧ ns = b :: concat nss
    ∧ Forall2 (fun fa e => ser_field (serialized m h) fa = Some e)
              (inst_dict oa) conf.
Proof.
  unfold mirrors. rewrite same_tree_S, as_dict_jsonable_S.
  intros Hmir Ha. rewrite Ha in Hmir |- *. simpl in *.
  destruct (h2 !! b) as [ob|]; [|done]. simpl in Hmir.
  case_bool_decide as Hk; [|done]. destruct Hk as [Hkeys Hndk].
  destruct (mapM _ (inst_dict oa)) as [nss|] eqn:Hnss; [|done].
  injection Hmir as <-. apply mapM_Some in Hnss.
  intros Hrun.
  destruct (as_dict_items_closed _ _ _ [] _ Hndk
              (mirrored_fields_native _ _ _ _ Hnss) Hrun) as (es & Hes & ->).
  apply mapM_Some in Hes. by exists ob, nss.
Qed.

Lemma round_trip_core h n :
  ∀ a b w ns conf,
    mirrors n h a (objects w) b = Some ns → NoDup ns →
    as_dict_jsonable n h a = Ok conf →
    ∃ w', from_dict (VDict conf) b false w = (Ok tt, w')
          ∧ same_tree value_eqb h (objects w') n a b = Some ns
          ∧ (∀ l, l ∉ ns → objects w' !! l = objects w !! l)
          ∧ stdout w' = stdout w.
Proof.
  induction n as [|m IH]; intros a b w ns conf Hmir Hnd Hser; [done|].
  destruct (h !! a) as [oa|] eqn:Ha;
    [|by rewrite as_dict_jsonable_S, Ha in Hser].
  destruct (mirrored_serialization _ _ _ _ _ _ _ _ Hmir Ha Hser)
    as ([t db] & nss & Hb & Hkeys & Hndk & HF & -> & Hes).
  simpl in Hb, Hkeys, HF.
  destruct (round_trip_loop h m b IH (inst_dict oa) nss conf w t db)
    as (w2 & db2 & Hrun & Hb2 & Hkeys2 & _ & HF2 & Hframe & Hout);
    [done..|].
  exists w2. split; [exact Hrun|].
  split; [|done]. rewrite same_tree_S, Ha, Hb2. simpl.
  rewrite bool_decide_eq_true_2 by (split; [congruence|done]).
  apply mapM_Some in HF2. by rewrite HF2.
Qed.

Lemma mirrored_conf_native h h2 n :
  ∀ a b ns conf,
    mirrors n h a h2 b = Some ns → as_dict_jsonable n h a = Ok conf →
    json_native (VDict conf) = true.
Proof.
  induction n as [|m IH]; intros a b ns conf Hmir Hser; [done|].
  destruct (h !! a) as [oa|] eqn:Ha;
    [|by rewrite as_dict_jsonable_S, Ha in Hser].
  destruct (mirrored_serialization _ _ _ _ _ _ _ _ Hmir Ha Hser)
    as (ob & nss & Hb & Hkeys & Hndk & HF & -> & Hes).
  simpl. apply andb_true_iff. split.
  - apply bool_decide_eq_true.
    apply mapM_Some, mapM_ser_keys in Hes. by rewrite Hes.
  - clear Hndk Hkeys Hmir Hser. revert conf Hes.
    induction HF as [|[k va] ns_f fs nss' Hf _ IHf]; intros conf Hes;
      inversion Hes as [|? e ? es' He Hes']; subst; [done|].
    simpl. rewrite (IHf _ Hes'), andb_true_r.
    destruct (is_conf va) eqn:Hva.
    + destruct va as [| | | | | | | | |ca|]; try done.
      apply tree_field_conf in Hf as (cb & _ & Hrec).
      change (ser_field (serialized m h) (k, VConf ca))
        with (d ← serialized m h ca; Some (k, VDict d)) in He.
      unfold serialized in He.
      destruct (as_dict_jsonable m h ca) as [d|] eqn:Hd; [|done].
      injection He as <-. by apply (IH ca cb ns_f d).
    + apply tree_field_plain in Hf as (vb & _ & _ & Hnat & _); [|done].
      assert (ser_field (serialized m h) (k, va) = Some (k, va)) as Hser
        by by destruct va.
      rewrite Hser in He. by injection He as <-.
Qed.

(** A [shape] that is a tuple is written as an array and comes back as a
    list, and a learning rate that is NaN comes back as NaN, which equals
    nothing: after [save] and [load] the reloaded instance differs from the
    original in that field, although every field is JSON-representable. *)
Lemma round_trip_tuple_differs :
  (∃ fs' w',
     jsonable 2 (VFloat "0.1") = Ok true
     ∧ jsonable 2 (VTuple [VInt 1; VInt 2]) = Ok true
     ∧ jsonable 2 (VInt 128) = Ok true
     ∧ save 2 work_fs tuple_heap 1 "out/c.json" = Ok fs'
     ∧ load fs' "out/c.json" 3 (World tuple_heap []) = (Ok tt, w')
     ∧ getattr tuple_heap 1 "shape" = Some (VTuple [VInt 1; VInt 2])
     ∧ getattr (objects w') 3 "shape" = Some (VList [VInt 1; VInt 2])
     ∧ py_eq (VList [VInt 1; VInt 2]) (VTuple [VInt 1; VInt 2]) = Some false)
  ∧ (∃ fs' w',
       jsonable 2 (VFloat "NaN") = Ok true
       ∧ jsonable 2 (VInt 128) = Ok true
       ∧ save 2 work_fs nan_heap 1 "out/c.json" = Ok fs'
       ∧ load fs' "out/c.json" 3 (World nan_heap []) = (Ok tt, w')
       ∧ getattr nan_heap 1 "lr" = Some (VFloat "NaN")
       ∧ getattr (objects w') 3 "lr" = Some (VFloat "NaN")
       ∧ py_eq (VFloat "NaN") (VFloat "NaN") = Some false).
Proof.
  split; do 2 eexists; repeat split; vm_compute; reflexivity.
Qed.

(** C3 (amended). Let the fields of a node, and of the nodes nested in
    it, hold nested nodes or values that JSON gives back as they are
    (null, booleans, integers, floats other than NaN, strings, lists,
    mappings with each key once; no tuples), and let a second instance be a
    tree with the same field names and nested nodes in the same fields. If
    [save(path)] succeeds on the first, [load(path)] on the second returns
    normally and leaves it equal to the first in every field, nested nodes
    included; objects outside the second tree are not touched. *)
Theorem save_load_round_trip (n : nat) (fs fs' : fsys) (h : heap) (a : loc)
    (path : string) (w : world) (b : loc) (ns : list loc) :
  mirrors n h a (objects w) b = Some ns →
  NoDup ns →
  save n fs h a path = Ok fs' →
  ∃ w', load fs' path b w = (Ok tt, w')
        ∧ field_equal n h a (objects w') b = true
        ∧ (∀ l, l ∉ ns → objects w' !! l = objects w !! l).
Proof.
  intros Hmir Hnd Hsave.
  destruct (save_then_read _ _ _ _ _ _ Hsave) as (conf & j & Hconf & Hj & Hread).
  assert (loads j = Ok (VDict conf)) as Hloads.
  { eapply native_roundtrip; [|exact Hj]. by eapply mirrored_conf_native. }
  destruct (round_trip_core h n a b w ns conf Hmir Hnd Hconf)
    as (w' & Hfd & Htree & Hframe & _).
  exists w'. unfold load. rewrite Hread, Hloads. split; [done|].
  split; [|done]. unfold field_equal. by rewrite Htree.
Qed.

Lemma save_load_round_trip_witness :
  ∃ w', load (fs_with (Doc (JObj [("lr", JFloat "0.1");
                                  ("shape", JArr [JInt 1; JInt 2]);
                                  ("enc", JObj [("ch", JInt 128)])])))
             "out/c.json" 3 (World list_heap []) = (Ok tt, w')
        ∧ field_equal 2 list_heap 1 (objects w') 3 = true
        ∧ (∀ l, l ∉ [3; 4] → objects w' !! l = list_heap !! l).
Proof.
  apply (save_load_round_trip 2 work_fs _ list_heap 1 "out/c.json"
           (World list_heap []) 3 [3; 4]).
  - reflexivity.
  - by compute_done.
  - vm_compute. reflexivity.
Defined.

(** ** clone *)

Lemma elem_of_concat_map {A} (f : A → list loc) (xs : list A) (r : loc) :
  r ∈ concat (map f xs) ↔ ∃ x, x ∈ xs ∧ r ∈ f x.
Proof.
  induction xs as [|x xs IH]; simpl.
  - split; [by intros ?%elem_of_nil | by intros (? & ?%elem_of_nil & _)].
  - rewrite elem_of_app, IH. split.
    + intros [?|(y & ? & ?)]; [exists x | exists y]; split; try done;
        [by left | by right].
    + intros (y & [->|?]%elem_of_cons & ?); [by left|right; by exists y].
Qed.

Lemma deepcopy_S n x s :
  deepcopy (S n) x s =
  match x with
  | PTuple xs =>
      match copy_seq (deepcopy n) xs s with
      | Raise e => Raise e
      | Ok (ys, s') => Ok (PTuple ys, s')
      end
  | PRef l =>
      match s.1 !! l with
      | Some l' => Ok (PRef l', s)
      | None =>
          let l' := fresh (dom s.2) in
          match s.2 !! l with
          | None => Raise NoObject
          | Some (CAtom _) => Ok (PRef l, s)
          | Some (CUncopyable _) => Raise TypeError
          | Some (CList xs) =>
              match copy_seq (deepcopy n) xs
                      (<[l := l']> s.1, <[l' := CList []]> s.2) with
              | Raise e => Raise e
              | Ok (ys, s') =>
                  Ok (PRef l', (s'.1, <[l' := CList ys]> s'.2))
              end
          | Some (CDict kvs) =>
              match copy_seq (copy_entry (deepcopy n)) kvs
                      (<[l := l']> s.1, <[l' := CDict []]> s.2) with
              | Raise e => Raise e
              | Ok (kvs', s') =>
                  Ok (PRef l', (s'.1, <[l' := CDict kvs']> s'.2))
              end
          | Some (CConf cls fields) =>
              match copy_seq (copy_entry (deepcopy n)) fields
                      (<[l := l']> s.1, <[l' := CConf cls []]> s.2) with
              | Raise e => Raise e
              | Ok (fields', s') =>
                  Ok (PRef l', (s'.1, <[l' := CConf cls fields']> s'.2))
              end
          | Some (CPlain cls fields) =>
              match copy_seq (copy_entry (deepcopy n)) fields
                      (<[l := l']> s.1, <[l' := CPlain cls []]> s.2) with
              | Raise e => Raise e
              | Ok (fields', s') =>
                  Ok (PRef l', (s'.1, <[l' := CPlain cls fields']> s'.2))
              end
          end
      end
  | _ => Ok (x, s)
  end.
Proof. done. Qed.

(** Copying the entries of a mapping is copying their values. *)
Lemma copy_seq_entries copy (kvs : list (string * pyval)) s :
  copy_seq (copy_entry copy) kvs s =
  match copy_seq copy (map snd kvs) s with
  | Raise e => Raise e
  | Ok (ys, s') => Ok (zip (map fst kvs) ys, s')
  end.
Proof.
  revert s. induction kvs as [|[k v] kvs IH]; intros s; simpl; [done|].
  unfold copy_entry at 1. simpl.
  destruct (copy v s) as [[y s1]|e]; [|done].
  rewrite IH. by destruct (copy_seq copy (map snd kvs) s1) as [[ys s2]|e].
Qed.

Lemma zip_names_nil (kvs : list (string * pyval)) :
  zip (map fst kvs) ([] : list pyval) = [].
Proof. by destruct kvs. Qed.

(** All the objects built anew are copied in one way. *)
Lemma deepcopy_rebuilt n l s c :
  s.1 !! l = None → s.2 !! l = Some c → rebuilt c = true →
  deepcopy (S n) (PRef l) s =
  match copy_seq (deepcopy n) (children c)
          (<[l := fresh (dom s.2)]> s.1,
           <[fresh (dom s.2) := with_children c []]> s.2) with
  | Raise e => Raise e
  | Ok (ys, s') =>
      Ok (PRef (fresh (dom s.2)),
          (s'.1, <[fresh (dom s.2) := with_children c ys]> s'.2))
  end.
Proof.
  intros Hmiss Hc Hreb. rewrite deepcopy_S, Hmiss, Hc.
  destruct c as [xs|kvs|cls kvs|cls kvs| |]; try done; simpl;
    rewrite ?copy_seq_entries, ?zip_names_nil; simpl;
    by destruct (copy_seq _ _ _) as [[ys s']|e].
Qed.

Lemma zip_rename (m : gmap loc loc) (kvs : list (string * pyval)) :
  zip (map fst kvs) (map (rename m) (map snd kvs)) = rename_entries m kvs.
Proof.
  induction kvs as [|[k v] kvs IH]; simpl; [done|]. by rewrite IH.
Qed.

Lemma rename_cell_children (m : gmap loc loc) c :
  with_children c (map (rename m) (children c)) = rename_cell m c.
Proof. destruct c; simpl; by rewrite ?zip_rename. Qed.

(** A larger memo renames a value in the same way, once every object the
    value refers to is in the smaller memo or in neither. *)
Lemma rename_mono (m m' : gmap loc loc) x :
  m ⊆ m' → (∀ r, r ∈ refs x → is_Some (m !! r) ∨ m' !! r = None) →
  rename m' x = rename m x.
Proof.
  intros Hsub.
  induction x as [| | | | |xs IH|l] using pyval_ind_nested;
    simpl; intros Hrefs; try done.
  - f_equal. apply map_ext_Forall. rewrite Forall_forall in IH |- *.
    intros x Hx. apply IH; [done|]. intros r Hr. apply Hrefs.
    apply elem_of_concat_map. by exists x.
  - destruct (Hrefs l) as [[l' Hl']|Hnone]; [by left| |].
    + by rewrite Hl', (lookup_weaken _ _ _ _ Hl' Hsub).
    + rewrite Hnone. destruct (m !! l) as [l'|] eqn:Hl; [|done].
      by rewrite (lookup_weaken _ _ _ _ Hl Hsub) in Hnone.
Qed.

Lemma rename_cell_mono (m m' : gmap loc loc) c :
  m ⊆ m' → (∀ r, r ∈ cell_refs c → is_Some (m !! r) ∨ m' !! r = None) →
  rename_cell m' c = rename_cell m c.
Proof.
  intros Hsub Hrefs. rewrite <- !rename_cell_children. f_equal.
  apply map_ext_Forall, Forall_forall. intros x Hx.
  apply rename_mono; [done|]. intros r Hr. apply Hrefs.
  apply elem_of_concat_map. by exists x.
Qed.

(** An object that is its own copy is never entered in the memo. *)
Lemma covered_stable st (m m' : gmap loc loc) r :
  covered st m r →
  (∀ l l', m' !! l = Some l' → ∃ c, st !! l = Some c ∧ rebuilt c = true) →
  is_Some (m !! r) ∨ m' !! r = None.
Proof.
  intros [Hm|[what Hatom]] Hmemo; [by left|right].
  destruct (m' !! r) as [r'|] eqn:Hr; [|done].
  destruct (Hmemo _ _ Hr) as (c & Hc & Hreb). by simplify_eq.
Qed.

Lemma covered_mono st (m m' : gmap loc loc) r :
  m ⊆ m' → covered st m r → covered st m' r.
Proof.
  intros Hsub [[r' Hr']|Hatom]; [left|by right].
  exists r'. by eapply lookup_weaken.
Qed.

Lemma copy_budget_mono (A : gset loc) (m m' : gmap loc loc) :
  m ⊆ m' → (size (A ∖ dom m') ≤ size (A ∖ dom m))%nat.
Proof.
  intros Hsub%subseteq_dom. apply subseteq_size.
  intros x [Hx Hm']%elem_of_difference. apply elem_of_difference.
  split; [done|]. intros Hm. by apply Hm', Hsub.
Qed.

Lemma copy_budget_insert (A : gset loc) (m : gmap loc loc) l l' :
  l ∈ A → m !! l = None →
  (size (A ∖ dom (<[l := l']> m)) < size (A ∖ dom m))%nat.
Proof.
  intros Hl Hm%not_elem_of_dom. apply subset_size.
  rewrite dom_insert_L. split.
  - intros x [Hx Hn]%elem_of_difference. apply elem_of_difference.
    split; [done|]. intros ?. apply Hn, elem_of_union. by right.
  - intros Hsub. assert (l ∈ A ∖ dom m) as Hin
      by by apply elem_of_difference.
    apply Hsub, elem_of_difference in Hin as [_ Hn].
    apply Hn, elem_of_union. left. by apply elem_of_singleton.
Qed.

(** Entering the object [l] in the memo with a fresh identity, which gets
    an empty object of the same kind: the state is as it should be, with
    [l] pending. *)
Lemma copy_inv_enter st A pending s l c :
  copy_inv st A pending s →
  l ∈ A → st !! l = Some c → rebuilt c = true → s.1 !! l = None →
  copy_inv st A (pending ∪ {[l]})
    (<[l := fresh (dom s.2)]> s.1,
     <[fresh (dom s.2) := with_children c []]> s.2).
Proof.
  intros (Hold & Hmemo & Hinj & Hdone & Honly) HA Hl Hreb Hnone.
  set (l' := fresh (dom s.2)).
  assert (s.2 !! l' = None) as Hfresh by apply not_elem_of_dom, is_fresh.
  assert (s.1 ⊆ <[l := l']> s.1) as Hsub by by apply insert_subseteq.
  split; [|split; [|split; [|split]]]; simpl.
  - intros l0 c0 Hl0. rewrite lookup_insert_ne; [by apply Hold|].
    intros <-. apply Hold in Hl0. congruence.
  - intros l0 l0' Hl0. destruct (decide (l = l0)) as [<-|Hne].
    + rewrite lookup_insert_eq in Hl0. injection Hl0 as <-.
      split; [|split; [by rewrite lookup_insert_eq|split; [done|by exists c]]].
      destruct (st !! l') as [c'|] eqn:Hc'; [|done].
      apply Hold in Hc'. congruence.
    + rewrite lookup_insert_ne in Hl0 by done.
      destruct (Hmemo _ _ Hl0) as (? & [c0 Hc0] & ? & ?).
      split; [done|]. split; [|done].
      rewrite lookup_insert_ne; [by eexists|]. intros <-. congruence.
  - intros l1 l2 l0' H1 H2.
    destruct (decide (l = l1)) as [<-|Hne1], (decide (l = l2)) as [<-|Hne2];
      try done.
    + rewrite lookup_insert_eq in H1. injection H1 as <-.
      rewrite lookup_insert_ne in H2 by done.
      destruct (Hmemo _ _ H2) as (_ & [c' Hc'] & _). congruence.
    + rewrite lookup_insert_eq in H2. injection H2 as <-.
      rewrite lookup_insert_ne in H1 by done.
      destruct (Hmemo _ _ H1) as (_ & [c' Hc'] & _). congruence.
    + rewrite lookup_insert_ne in H1, H2 by done. by eapply Hinj.
  - intros l0 l0' c0 Hl0 Hpend Hc0.
    apply not_elem_of_union in Hpend as [Hpend Hne%not_elem_of_singleton].
    rewrite lookup_insert_ne in Hl0 by done.
    destruct (Hdone l0 l0' c0 Hl0 Hpend Hc0) as [Hcopy Hrefs].
    destruct (Hmemo _ _ Hl0) as (_ & [c0' Hc0'] & _).
    split.
    + rewrite lookup_insert_ne by (intros <-; congruence).
      rewrite (rename_cell_mono s.1); [done..|].
      intros r Hr. apply (covered_stable st); [by apply Hrefs|].
      intros l1 l1' Hl1. destruct (decide (l = l1)) as [<-|Hne1].
      * by exists c.
      * rewrite lookup_insert_ne in Hl1 by done.
        by destruct (Hmemo _ _ Hl1) as (_ & _ & _ & ?).
    + intros r Hr. eapply covered_mono; [exact Hsub|by apply Hrefs].
  - intros l0 [c0 Hc0]. destruct (decide (l' = l0)) as [<-|Hne].
    + right. exists l. apply lookup_insert_eq.
    + rewrite lookup_insert_ne in Hc0 by done.
      destruct (Honly l0) as [?|[l1 Hl1]]; [by eexists|by left|].
      right. exists l1. by eapply lookup_weaken.
Qed.

(** Filling the copy of [l] once the values [l] holds are copied: [l] is
    no longer pending. *)
Lemma copy_inv_leave st A pending s l l' c :
  copy_inv st A (pending ∪ {[l]}) s →
  st !! l = Some c → s.1 !! l = Some l' →
  (∀ r, r ∈ cell_refs c → covered st s.1 r) →
  copy_inv st A pending (s.1, <[l' := rename_cell s.1 c]> s.2).
Proof.
  intros (Hold & Hmemo & Hinj & Hdone & Honly) Hl Hl' Hrefs.
  destruct (Hmemo _ _ Hl') as (Hnew & _ & _).
  split; [|split; [|split; [|split]]]; simpl.
  - intros l0 c0 Hl0. rewrite lookup_insert_ne; [by apply Hold|].
    intros <-. congruence.
  - intros l0 l0' Hl0. destruct (Hmemo _ _ Hl0) as (? & [c0 Hc0] & ? & ?).
    split; [done|]. split; [|done].
    destruct (decide (l' = l0')) as [<-|Hne].
    + rewrite lookup_insert_eq. by eexists.
    + rewrite lookup_insert_ne by done. by eexists.
  - done.
  - intros l0 l0' c0 Hl0 Hpend Hc0. destruct (decide (l0 = l)) as [->|Hne].
    + assert (l0' = l') as -> by congruence.
      assert (c0 = c) as -> by congruence.
      split; [apply lookup_insert_eq|done].
    + destruct (Hdone l0 l0' c0 Hl0) as [Hcopy Hrefs0]; [|done|].
      { intros [?|?%elem_of_singleton]%elem_of_union; done. }
      split; [|done]. rewrite lookup_insert_ne; [done|].
      intros <-. apply Hne. by eapply Hinj.
  - intros l0 [c0 Hc0]. destruct (decide (l' = l0)) as [<-|Hne].
    + right. by exists l.
    + rewrite lookup_insert_ne in Hc0 by done. apply Honly. by eexists.
Qed.

Lemma height_elem x xs :
  x ∈ xs → (height x ≤ foldr (fun x m => Nat.max (height x) m) 0 xs)%nat.
Proof.
  induction xs as [|y xs IH]; [by intros ?%elem_of_nil|].
  intros [->|Hx]%elem_of_cons; simpl; [lia|]. specialize (IH Hx). lia.
Qed.

(** Copying a sequence of values one after the other. *)
Lemma copy_seq_well st A H pending n xs :
  (∀ x, copies_well st A H pending n x) →
  ∀ s, copy_inv st A pending s →
       (∀ r, r ∈ concat (map refs xs) → r ∈ A) →
       Forall (fun x => (height x + size (A ∖ dom s.1) * S H < n)%nat) xs →
       ∃ ys s', copy_seq (deepcopy n) xs s = Ok (ys, s')
                ∧ s.1 ⊆ s'.1
                ∧ copy_inv st A pending s'
                ∧ ys = map (rename s'.1) xs
                ∧ ∀ r, r ∈ concat (map refs xs) → covered st s'.1 r.
Proof.
  intros Hwell. induction xs as [|x xs IH]; intros s Hinv Hrefs Hfuel; simpl.
  - exists [], s. do 4 (split; [done|]). intros r Hr.
    by apply elem_of_nil in Hr.
  - apply Forall_cons in Hfuel as [Hx Hxs].
    destruct (Hwell x s Hinv) as (y & s1 & -> & Hsub1 & Hinv1 & -> & Hin1);
      [|done|].
    { intros r Hr. apply Hrefs. simpl. apply elem_of_app. by left. }
    destruct (IH s1 Hinv1) as (ys & s2 & -> & Hsub2 & Hinv2 & -> & Hin2).
    { intros r Hr. apply Hrefs. simpl. apply elem_of_app. by right. }
    { eapply Forall_impl; [exact Hxs|]. intros x0 Hx0. simpl in Hx0.
      pose proof (copy_budget_mono A _ _ Hsub1).
      assert (size (A ∖ dom s1.1) * S H ≤ size (A ∖ dom s.1) * S H)%nat
        by (apply Nat.mul_le_mono_r; lia).
      lia. }
    exists (rename s1.1 x :: map (rename s2.1) xs), s2.
    split; [done|]. split; [by etrans|]. split; [done|]. split.
    + simpl. f_equal. symmetry. apply rename_mono; [done|].
      intros r Hr. apply (covered_stable st); [by apply Hin1|].
      intros l l' Hl. destruct Hinv2 as (_ & Hmemo2 & _).
      by destruct (Hmemo2 _ _ Hl) as (_ & _ & _ & ?).
    + intros r [Hr|Hr]%elem_of_app; [|by apply Hin2].
      eapply covered_mono; [exact Hsub2|by apply Hin1].
Qed.

(** [deepcopy] on a region, with a recursion limit that covers it. *)
Lemma deepcopy_well st A H :
  region st A H → ∀ fuel pending x, copies_well st A H pending fuel x.
Proof.
  intros Hreg fuel.
  induction fuel as [|n IH]; intros pending x s Hinv Hrefs Hfuel; [lia|].
  destruct x as [| | | | |xs|l];
    try (eexists _, s; do 4 (split; [done|]);
         by intros ? ?%elem_of_nil).
  - rewrite deepcopy_S.
    destruct (copy_seq_well st A H pending n xs (IH pending) s Hinv Hrefs)
      as (ys & s' & -> & Hsub & Hinv' & -> & Hin).
    { apply Forall_forall. intros x Hx.
      pose proof (height_elem x xs Hx). simpl in Hfuel. lia. }
    by exists (PTuple (map (rename s'.1) xs)), s'.
  - assert (l ∈ A) as HA by (apply Hrefs; by left).
    destruct (Hreg l HA) as (c & Hc & Hcopy & Hclosed & Hheight).
    pose proof Hinv as (Hold & Hmemo & _).
    destruct (s.1 !! l) as [l'|] eqn:Hl.
    + exists (PRef l'), s. rewrite deepcopy_S, Hl.
      do 3 (split; [done|]). simpl. rewrite Hl.
      split; [done|]. intros r ->%list_elem_of_singleton. left. by eexists.
    + destruct (rebuilt c) eqn:Hreb.
      * rewrite (deepcopy_rebuilt n l s c Hl (Hold _ _ Hc) Hreb).
        set (l' := fresh (dom s.2)).
        pose proof (copy_inv_enter st A pending s l c Hinv HA Hc Hreb Hl)
          as Hin. fold l' in Hin.
        destruct (copy_seq_well st A H (pending ∪ {[l]}) n (children c)
                    (IH (pending ∪ {[l]})) _ Hin Hclosed)
          as (ys & s2 & -> & Hsub & Hinv2 & -> & Hcover).
        { eapply Forall_impl; [exact Hheight|]. intros x Hx. simpl in *.
          pose proof (copy_budget_insert A s.1 l l' HA Hl).
          assert (S (size (A ∖ dom (<[l := l']> s.1))) * S H
                  ≤ size (A ∖ dom s.1) * S H)%nat
            by (apply Nat.mul_le_mono_r; lia).
          lia. }
        simpl in Hsub.
        assert (s2.1 !! l = Some l') as Hl2.
        { eapply lookup_weaken; [|exact Hsub]. apply lookup_insert_eq. }
        rewrite rename_cell_children.
        exists (PRef l'), (s2.1, <[l' := rename_cell s2.1 c]> s2.2).
        split; [done|]. simpl. split; [|split; [|split]].
        -- etrans; [|exact Hsub]. by apply insert_subseteq.
        -- by apply (copy_inv_leave st A pending s2 l l' c).
        -- by rewrite Hl2.
        -- intros r ->%list_elem_of_singleton. left. by eexists.
      * rewrite deepcopy_S, Hl, (Hold _ _ Hc).
        destruct c as [| | | |what|]; try done.
        exists (PRef l), s. do 3 (split; [done|]). simpl. rewrite Hl.
        split; [done|]. intros r ->%list_elem_of_singleton. right.
        by exists what.
Qed.

Lemma rename_refs (m : gmap loc loc) x y :
  y ∈ refs (rename m x) → ∃ r, r ∈ refs x ∧ y = default r (m !! r).
Proof.
  induction x as [| | | | |xs IH|l] using pyval_ind_nested;
    simpl; try (by intros ?%elem_of_nil).
  - rewrite map_map. intros (x & Hx & Hy)%elem_of_concat_map.
    rewrite Forall_forall in IH. destruct (IH x Hx Hy) as (r & Hr & ->).
    exists r. split; [|done]. apply elem_of_concat_map. by exists x.
  - intros ->%list_elem_of_singleton. exists l. split; [by left|done].
Qed.

Lemma children_rename (m : gmap loc loc) c :
  children (rename_cell m c) = map (rename m) (children c).
Proof.
  destruct c; simpl; try done; unfold rename_entries; rewrite !map_map;
    by apply map_ext.
Qed.

Lemma rename_cell_refs (m : gmap loc loc) c y :
  y ∈ cell_refs (rename_cell m c) →
  ∃ r, r ∈ cell_refs c ∧ y = default r (m !! r).
Proof.
  unfold cell_refs. rewrite children_rename, map_map.
  intros (x & Hx & Hy)%elem_of_concat_map.
  destruct (rename_refs _ _ _ Hy) as (r & Hr & ->).
  exists r. split; [|done]. apply elem_of_concat_map. by exists x.
Qed.

(** *** The copy is equal to the original *)

Lemma entry_get_rename (m : gmap loc loc) k d :
  entry_get k (rename_entries m d) = rename m <$> entry_get k d.
Proof.
  induction d as [|[k' v] d IH]; simpl; [done|].
  by destruct (String.eqb k k').
Qed.

Lemma names_rename (m : gmap loc loc) d : names (rename_entries m d) = names d.
Proof.
  unfold names, rename_entries. rewrite map_map. by apply map_ext.
Qed.

Lemma entry_get_NoDup k v d :
  NoDup (names d) → (k, v) ∈ d → entry_get k d = Some v.
Proof.
  induction d as [|[k' v'] d IH]; simpl.
  - by intros _ ?%elem_of_nil.
  - change (names ((k', v') :: d)) with (k' :: names d).
    intros [Hk' Hnd]%NoDup_cons [[= -> ->]|Hin]%elem_of_cons.
    + by rewrite String.eqb_refl.
    + destruct (String.eqb_spec k k') as [->|]; [|by apply IH].
      destruct Hk'. apply list_elem_of_fmap. by exists (k', v).
Qed.

Lemma seq_equal_rename eq (m : gmap loc loc) xs :
  Forall (fun x => eq x (rename m x) = Some true) xs →
  seq_equal eq xs (map (rename m) xs) = Some true.
Proof. induction 1 as [|x xs Hx _ IH]; simpl; [done|]. by rewrite Hx. Qed.

Lemma entries_equal_rename eq (m : gmap loc loc) d l :
  NoDup (names d) →
  Forall (fun kv => kv ∈ d ∧ eq kv.2 (rename m kv.2) = Some true) l →
  entries_equal eq (rename_entries m d) l = Some true.
Proof.
  intros Hnd. induction 1 as [|[k v] l [Hin Hkv] _ IH]; simpl; [done|].
  rewrite entry_get_rename, (entry_get_NoDup k v d Hnd Hin). simpl.
  simpl in Hkv. by rewrite Hkv.
Qed.

Lemma float_eqb_refl r : is_nan r = false → float_eqb r r = true.
Proof. intros Hr. unfold float_eqb. by rewrite Hr, String.eqb_refl. Qed.

(** A value that can be compared is found equal to its renaming, both as
    the value of a field and as an element of a container. *)
Lemma copy_equal (st st' : store) (m : gmap loc loc) :
  (∀ l c, st !! l = Some c → st' !! l = Some c) →
  (∀ l l', m !! l = Some l' →
     st !! l' = None
     ∧ ∃ c, st !! l = Some c ∧ rebuilt c = true
            ∧ st' !! l' = Some (rename_cell m c)
            ∧ ∀ r, r ∈ cell_refs c → covered st m r) →
  ∀ n elem x, comparable n st x = true →
              (∀ r, r ∈ refs x → covered st m r) →
              py_equal n st' elem x (rename m x) = Some true.
Proof.
  intros Hold Hmemo. induction n as [|n IH]; intros elem x Hcmp Hcov; [done|].
  destruct x as [|b|z|r|t|xs|l]; simpl in Hcmp |- *.
  - done.
  - by rewrite Bool.eqb_reflx.
  - by rewrite Z.eqb_refl.
  - apply negb_true_iff in Hcmp. rewrite Hcmp, andb_false_r. simpl.
    by rewrite float_eqb_refl.
  - by rewrite String.eqb_refl.
  - rewrite length_map, Nat.eqb_refl. apply seq_equal_rename.
    rewrite forallb_forall in Hcmp. apply Forall_forall. intros x Hx.
    apply IH; [by apply Hcmp, list_elem_of_In|].
    intros r Hr. apply Hcov. simpl. apply elem_of_concat_map. by exists x.
  - destruct (Hcov l) as [[l' Hl']|[what Hatom]]; [by left| |].
    + rewrite Hl'. simpl.
      destruct (Hmemo l l' Hl') as (Hnew & c & Hc & Hreb & Hc' & Hrefs).
      assert (Nat.eqb l l' = false) as ->
        by (apply Nat.eqb_neq; intros <-; congruence).
      rewrite andb_false_r, (Hold _ _ Hc), Hc'. rewrite Hc in Hcmp.
      assert (Helems : ∀ x, x ∈ children c → comparable n st x = true →
                            py_equal n st' true x (rename m x) = Some true).
      { intros x Hx Hcx. apply IH; [done|]. intros r Hr. apply Hrefs.
        apply elem_of_concat_map. by exists x. }
      destruct c as [xs|kvs|cls kvs|cls kvs| |]; try done; simpl.
      * rewrite length_map, Nat.eqb_refl. apply seq_equal_rename.
        rewrite forallb_forall in Hcmp. apply Forall_forall. intros x Hx.
        apply Helems; [done|]. by apply Hcmp, list_elem_of_In.
      * apply andb_true_iff in Hcmp as [Hnd%bool_decide_eq_true Hall].
        rewrite forallb_forall in Hall.
        unfold rename_entries at 1. rewrite length_map, Nat.eqb_refl.
        apply entries_equal_rename; [done|]. apply Forall_forall.
        intros kv Hkv. split; [done|]. apply Helems.
        -- simpl. apply list_elem_of_fmap. by exists kv.
        -- by apply Hall, list_elem_of_In.
      * apply andb_true_iff in Hcmp as [Hnd%bool_decide_eq_true Hall].
        rewrite forallb_forall in Hall.
        rewrite String.eqb_refl, names_rename, bool_decide_eq_true_2 by done.
        apply entries_equal_rename; [done|]. apply Forall_forall.
        intros kv Hkv. split; [done|]. apply Helems.
        -- simpl. apply list_elem_of_fmap. by exists kv.
        -- by apply Hall, list_elem_of_In.
    + assert (m !! l = None) as Hl.
      { destruct (m !! l) as [l'|] eqn:Hl; [|done].
        destruct (Hmemo l l' Hl) as (_ & c & Hc & Hreb & _). by simplify_eq. }
      rewrite Hl. simpl. rewrite Nat.eqb_refl, (Hold _ _ Hatom).
      by destruct elem.
Qed.

(** C7 (amended). Let [A] be a set of objects that is closed under
    reference and holds nothing that cannot be copied, [self] a
    configuration in it, and let the recursion limit cover the objects of
    [A] and the tuples nested in them. Then [clone] returns a new
    configuration of the same class. There is a one-to-one correspondence
    [m] from the objects reached that are built anew (lists, mappings,
    instances) to identities not in use before, under which the copy of
    each object is that object with every reference [r] it holds replaced
    by [m r]; what is left in place refers to an object that is its own
    copy (a member of an enumeration, a function, a class), which the
    clone shares with the original. Every object of the store is as it
    was; the store holds nothing new but the copies; and overwriting a
    copy leaves every old object as it is. Where the values can be
    compared (no NaN, no instance of a class without [__eq__], every key
    once, within the recursion limit) the clone is equal to [self], and
    each of its fields is equal to the field of [self]. *)
Theorem clone_deep_copy (fuel : nat) (st : store) (self : loc)
    (A : gset loc) (H : nat) (cls : string)
    (fields : list (string * pyval)) :
  region st A H →
  self ∈ A →
  st !! self = Some (CConf cls fields) →
  (size A * S H < fuel)%nat →
  ∃ self' st' (m : gmap loc loc),
    clone fuel st self = Ok (PRef self', st')
    ∧ m !! self = Some self'
    ∧ st' !! self' = Some (CConf cls (rename_entries m fields))
    ∧ (∀ l c, st !! l = Some c → st' !! l = Some c)
    ∧ (∀ l, is_Some (st' !! l) →
            is_Some (st !! l) ∨ ∃ l0, m !! l0 = Some l)
    ∧ (∀ l1 l2 l', m !! l1 = Some l' → m !! l2 = Some l' → l1 = l2)
    ∧ (∀ l l', m !! l = Some l' →
         l ∈ A ∧ st !! l' = None
         ∧ ∃ c, st !! l = Some c ∧ rebuilt c = true
                ∧ st' !! l' = Some (rename_cell m c)
                ∧ (∀ r, r ∈ cell_refs c → covered st m r)
                ∧ (∀ y, y ∈ cell_refs (rename_cell m c) →
                        st !! y = None
                        ∨ ∃ what, st !! y = Some (CAtom what)))
    ∧ (∀ l l' c', m !! l = Some l' →
         ∀ x c, st !! x = Some c → <[l' := c']> st' !! x = Some c)
    ∧ (∀ n, comparable (S n) st (PRef self) = true →
            py_equal (S n) st' false (PRef self) (PRef self') = Some true
            ∧ ∀ k v, (k, v) ∈ fields →
                     entry_get k (rename_entries m fields)
                     = Some (rename m v)
                     ∧ py_equal n st' false v (rename m v) = Some true).
Proof.
  intros Hreg Hself Hc Hfuel.
  assert (copy_inv st A ∅ (∅, st)) as Hinv.
  { split; [|split; [|split; [|split]]]; simpl; try done.
    intros l Hl. by left. }
  destruct (deepcopy_well st A H Hreg fuel ∅ (PRef self) (∅, st) Hinv)
    as (y & [m st'] & Hcopy & _ & (Hold & Hmemo & Hinj & Hdone & Honly)
        & -> & Hin).
  { by intros r ->%list_elem_of_singleton. }
  { simpl. rewrite dom_empty_L, difference_empty_L. lia. }
  simpl in Hcopy, Hold, Hmemo, Hinj, Hdone, Honly, Hin.
  assert (Hall : ∀ l l', m !! l = Some l' →
            st !! l' = None
            ∧ ∃ c, st !! l = Some c ∧ rebuilt c = true
                   ∧ st' !! l' = Some (rename_cell m c)
                   ∧ ∀ r, r ∈ cell_refs c → covered st m r).
  { intros l l' Hl. destruct (Hmemo l l' Hl) as (Hnew & _ & _ & c & Hlc & Hreb).
    split; [done|]. exists c. do 2 (split; [done|]).
    by destruct (Hdone l l' c Hl) as [Hcopied Hrefs]; [set_solver|done|]. }
  destruct (Hin self) as [[self' Hself']|[what Hatom]];
    [by left| |congruence].
  rewrite Hself' in Hcopy. simpl in Hcopy.
  destruct (Hall self self' Hself') as (_ & c & Hc0 & _ & Hc' & Hcov).
  assert (c = CConf cls fields) as -> by congruence. simpl in Hc'.
  assert (clone fuel st self = Ok (PRef self', st')) as Hclone
    by (unfold clone; by rewrite Hcopy).
  exists self', st', m. do 6 (split; [done|]). split; [|split].
  - intros l l' Hl. destruct (Hmemo l l' Hl) as (_ & _ & HA & _).
    destruct (Hall l l' Hl) as (Hnew & c & Hlc & Hreb & Hlc' & Hrefs).
    do 2 (split; [done|]). exists c. do 4 (split; [done|]).
    intros y (r & Hr & ->)%rename_cell_refs.
    destruct (Hrefs r Hr) as [[r' Hr']|[what Hatom]].
    + rewrite Hr'. simpl. left. by destruct (Hall r r' Hr').
    + right. exists what. destruct (m !! r) as [r'|] eqn:Hmr; [|done].
      destruct (Hall r r' Hmr) as (_ & c0 & ? & ? & _). by simplify_eq.
  - intros l l' c' Hl x c Hx. destruct (Hall l l' Hl) as (Hnew & _).
    rewrite lookup_insert_ne; [by apply Hold|]. intros <-. congruence.
  - intros n Hcmp. split.
    + replace (PRef self') with (rename m (PRef self))
        by (simpl; by rewrite Hself').
      apply (copy_equal st st' m Hold Hall); [done|].
      intros r ->%list_elem_of_singleton. left. by eexists.
    + intros k v Hkv. simpl in Hcmp. rewrite Hc in Hcmp.
      apply andb_true_iff in Hcmp as [Hnd%bool_decide_eq_true Hfields].
      rewrite forallb_forall in Hfields. split.
      * by rewrite entry_get_rename, (entry_get_NoDup k v fields).
      * apply (copy_equal st st' m Hold Hall).
        -- by apply (Hfields (k, v)), list_elem_of_In.
        -- intros r Hr. apply Hcov. apply elem_of_concat_map.
           exists v. split; [|done]. simpl. apply list_elem_of_fmap.
           by exists (k, v).
Qed.

Lemma sample_region : region sample_store {[1; 2; 3; 4; 5]} 1.
Proof.
  intros l Hl.
  assert (l = 1 ∨ l = 2 ∨ l = 3 ∨ l = 4 ∨ l = 5) as Hcases by set_solver.
  destruct Hcases as [->|[->|[->|[->| ->]]]];
    (eexists; split; [reflexivity|]; split; [done|]; split;
     [intros r Hr; vm_compute in Hr; set_solver
     |repeat constructor; simpl; lia]).
Qed.

Lemma clone_deep_copy_witness :
  ∃ self' st' (m : gmap loc loc),
    clone 11 sample_store 1 = Ok (PRef self', st')
    ∧ m !! 1 = Some self'
    ∧ st' !! self'
      = Some (CConf "TrainConfig" (rename_entries m sample_fields))
    ∧ (∀ l c, sample_store !! l = Some c → st' !! l = Some c)
    ∧ (∀ l, is_Some (st' !! l) →
            is_Some (sample_store !! l) ∨ ∃ l0, m !! l0 = Some l)
    ∧ (∀ l1 l2 l', m !! l1 = Some l' → m !! l2 = Some l' → l1 = l2)
    ∧ (∀ l l', m !! l = Some l' →
         l ∈ ({[1; 2; 3; 4; 5]} : gset loc) ∧ sample_store !! l' = None
         ∧ ∃ c, sample_store !! l = Some c ∧ rebuilt c = true
                ∧ st' !! l' = Some (rename_cell m c)
                ∧ (∀ r, r ∈ cell_refs c → covered sample_store m r)
                ∧ (∀ y, y ∈ cell_refs (rename_cell m c) →
                        sample_store !! y = None
                        ∨ ∃ what, sample_store !! y = Some (CAtom what)))
    ∧ (∀ l l' c', m !! l = Some l' →
         ∀ x c, sample_store !! x = Some c → <[l' := c']> st' !! x = Some c)
    ∧ py_equal 5 st' false (PRef 1) (PRef self') = Some true
    ∧ (∀ k v, (k, v) ∈ sample_fields →
              entry_get k (rename_entries m sample_fields)
              = Some (rename m v)
              ∧ py_equal 4 st' false v (rename m v) = Some true).
Proof.
  destruct (clone_deep_copy 11 sample_store 1 {[1; 2; 3; 4; 5]} 1
              "TrainConfig" sample_fields sample_region)
    as (self' & st' & m & H1 & H2 & H3 & H4 & H5 & H6 & H7 & H8 & H9).
  - set_solver.
  - reflexivity.
  - vm_compute. lia.
  - exists self', st', m. do 8 (split; [done|]). by apply (H9 4).
Defined.

(** The clone of the sample configuration: the list [dims], the nested
    configuration [enc] and the list [parts] are copied once each, the
    copy of [parts] holds the copies of the other two, and the member of
    the enumeration is shared. *)
Lemma clone_sample :
  ∃ st',
    clone 11 sample_store 1 = Ok (PRef 6, st')
    ∧ st' !! 6
      = Some (CConf "TrainConfig"
                [("lr", PFloat "0.1"); ("attn", PTuple [PInt 16; PInt 8]);
                 ("dims", PRef 7); ("mode", PRef 3); ("enc", PRef 8);
                 ("parts", PRef 9)])
    ∧ st' !! 7 = Some (CList [PInt 64; PInt 128])
    ∧ st' !! 8 = Some (CConf "EncConfig" [("ch", PInt 128); ("mode", PRef 3)])
    ∧ st' !! 9 = Some (CList [PRef 8; PTuple [PRef 7]])
    ∧ st' !! 1 = sample_store !! 1
    ∧ st' !! 5 = sample_store !! 5
    ∧ py_equal 5 st' false (PRef 1) (PRef 6) = Some true
    ∧ py_equal 4 st' false (PRef 5) (PRef 9) = Some true.
Proof.
  eexists. split; [vm_compute; reflexivity|].
  repeat split; vm_compute; reflexivity.
Qed.

(** Where C7 fails as stated: a configuration that holds a generator is
    not cloned, [deepcopy] raises [TypeError]; the clone of a
    configuration whose field is NaN, or an instance of a class without
    [__eq__], does not have that field equal to the original's; and a
    function held by a field is shared by the clone. *)
Lemma clone_raises_or_differs :
  (∀ fuel, clone (S (S fuel)) odd_store 1 = Raise TypeError)
  ∧ (∃ st', clone 10 odd_store 2 = Ok (PRef 10, st')
            ∧ st' !! 2 = Some (CConf "C" [("lr", PFloat "NaN")])
            ∧ st' !! 10 = Some (CConf "C" [("lr", PFloat "NaN")])
            ∧ ∀ n, py_equal (S n) st' false (PFloat "NaN") (PFloat "NaN")
                   = Some false)
  ∧ (∃ st', clone 10 odd_store 3 = Ok (PRef 10, st')
            ∧ st' !! 3 = Some (CConf "C" [("opt", PRef 4)])
            ∧ st' !! 10 = Some (CConf "C" [("opt", PRef 11)])
            ∧ ∀ n, py_equal (S n) st' false (PRef 4) (PRef 11) = Some false)
  ∧ (∃ st', clone 10 odd_store 5 = Ok (PRef 10, st')
            ∧ st' !! 5 = Some (CConf "C" [("act", PRef 6)])
            ∧ st' !! 10 = Some (CConf "C" [("act", PRef 6)])
            ∧ st' !! 6 = Some (CAtom "function silu")).
Proof.
  split; [intros fuel; vm_compute; reflexivity|].
  split; [|split].
  - eexists. split; [vm_compute; reflexivity|].
    repeat split; try intros n; vm_compute; reflexivity.
  - eexists. split; [vm_compute; reflexivity|].
    repeat split; try intros n; vm_compute; reflexivity.
  - eexists. split; [vm_compute; reflexivity|].
    repeat split; vm_compute; reflexivity.
Qed.

(** * Further properties of the code *)

(** ** The mode predicates *)

(** X1. A training mode is [manipulate] or a diffusion mode, never both;
    a diffusion mode is the autoencoding one or the latent one, never
    both; the latent net is used exactly in latent diffusion; latents of
    the data set are inferred exactly when the mode is not the plain
    [diffusion] mode. *)
Theorem train_mode_predicates (m : TrainMode.t) :
  TrainMode.is_manipulate m = negb (TrainMode.is_diffusion m)
  ∧ TrainMode.is_diffusion m
    = xorb (TrainMode.is_autoenc m) (TrainMode.is_latent_diffusion m)
  ∧ TrainMode.is_autoenc m && TrainMode.is_latent_diffusion m = false
  ∧ TrainMode.use_latent_net m = TrainMode.is_latent_diffusion m
  ∧ TrainMode.require_dataset_infer m = negb (TrainMode.is_autoenc m)
  ∧ (TrainMode.is_autoenc m = true ↔ m = TrainMode.diffusion).
Proof.
  destruct m; repeat split; try reflexivity; try discriminate.
Qed.

(** X2. Every manipulation mode works on CelebA attributes; the
    single-class modes are exactly the few-shot modes, that is, every mode
    but [celebahq_all]; the all-negative mode is one of them. *)
Theorem manipulate_mode_predicates (m : ManipulateMode.t) :
  ManipulateMode.is_celeba_attr m = true
  ∧ ManipulateMode.is_single_class m = ManipulateMode.is_fewshot m
  ∧ (ManipulateMode.is_fewshot m = false ↔ m = ManipulateMode.celebahq_all)
  ∧ (ManipulateMode.is_fewshot_allneg m = true →
     ManipulateMode.is_fewshot m = true)
  ∧ (ManipulateMode.is_fewshot_allneg m = true
     ↔ m = ManipulateMode.d2c_fewshot_allneg).
Proof.
  destruct m; repeat split; try reflexivity; try discriminate.
Qed.

(** X3. A backbone can be sampled from without conditioning exactly when
    it has no autoencoder. *)
Theorem model_type_sample_or_autoenc (m : ModelType.t) :
  ModelType.can_sample m = negb (ModelType.has_autoenc m)
  ∧ (ModelType.has_autoenc m = true ↔ m = ModelType.autoencoder).
Proof.
  destruct m; repeat split; try reflexivity; try discriminate.
Qed.

(** X4. The values of [TrainMode] and of [ManipulateMode] identify their
    members: looking a member up by its value gives it back, and a lookup
    that succeeds returns a member with that value. *)
Theorem mode_value_lookup :
  (∀ m, TrainMode.of_value (TrainMode.value m) = Some m)
  ∧ (∀ v m, TrainMode.of_value v = Some m → TrainMode.value m = v)
  ∧ (∀ m, ManipulateMode.of_value (ManipulateMode.value m) = Some m)
  ∧ (∀ v m, ManipulateMode.of_value v = Some m →
            ManipulateMode.value m = v).
Proof.
  split; [by intros []|]. split.
  - intros v m Hfind. apply find_some in Hfind as [_ Heq].
    by apply String.eqb_eq.
  - split; [by intros []|].
    intros v m Hfind. apply find_some in Hfind as [_ Heq].
    by apply String.eqb_eq.
Qed.

(** ** inherit and propagate *)

(** X5. Inheriting twice from the same node is inheriting once, and
    inheriting from oneself changes nothing. *)
Theorem inherit_idempotent (h h' : heap) (a b : loc) (oa ob : obj) :
  h !! a = Some oa → h !! b = Some ob →
  NoDup (keys (inst_dict oa)) →
  inherit h a b = Some h' →
  inherit h' a b = Some h' ∧ (a = b → h' = h).
Proof.
  intros Ha Hb Hnd Hinh.
  destruct (inherit_spec h a b oa ob Ha Hb) as (d1 & Hi1 & Hk1 & Hg1 & Hself).
  rewrite Hi1 in Hinh. injection Hinh as <-.
  destruct (decide (a = b)) as [->|Hne].
  - assert (<[b := Obj (type_attrs oa) d1]> h = h) as Hid.
    { rewrite (Hself eq_refl). destruct oa. by apply insert_id. }
    rewrite Hid in Hi1 |- *. done.
  - split; [|done].
    set (h1 := <[a := Obj (type_attrs oa) d1]> h).
    assert (h1 !! a = Some (Obj (type_attrs oa) d1)) as Ha1
      by apply lookup_insert_eq.
    assert (h1 !! b = Some ob) as Hb1
      by (unfold h1; by rewrite lookup_insert_ne).
    destruct (inherit_spec h1 a b _ ob Ha1 Hb1) as (d2 & Hi2 & Hk2 & Hg2 & _).
    simpl in *. rewrite Hi2. unfold h1. rewrite insert_insert_eq.
    do 3 f_equal. apply dict_ext; [congruence|done|].
    intros k. rewrite Hg2, Hg1, (has_key_keys k d1 (inst_dict oa) Hk1).
    by destruct (has_key k (inst_dict oa) && has_key k (inst_dict ob)).
Qed.

Lemma inherit_idempotent_witness :
  inherit (<[1 := Obj base_attrs
                    [("lr", VFloat "0.1"); ("name", VStr "net");
                     ("seed", VInt 0)]]> pair_heap) 1 2
    = Some (<[1 := Obj base_attrs
                      [("lr", VFloat "0.1"); ("name", VStr "net");
                       ("seed", VInt 0)]]> pair_heap)
  ∧ (1 = 2 → <[1 := Obj base_attrs
                       [("lr", VFloat "0.1"); ("name", VStr "net");
                        ("seed", VInt 0)]]> pair_heap = pair_heap).
Proof.
  apply (inherit_idempotent pair_heap _ 1 2
           (Obj base_attrs
              [("lr", VFloat "0.2"); ("name", VStr "net"); ("seed", VInt 7)])
           (Obj base_attrs
              [("seed", VInt 0); ("lr", VFloat "0.1"); ("steps", VInt 100)]));
    [reflexivity | reflexivity | simpl; by compute_done | reflexivity].
Defined.

Lemma schemas_kept_refl h : schemas_kept h h.
Proof. split; [|done]. intros l o Ho. by exists o. Qed.

Lemma schemas_kept_trans h1 h2 h3 :
  schemas_kept h1 h2 → schemas_kept h2 h3 → schemas_kept h1 h3.
Proof.
  intros [H12 N12] [H23 N23]. split.
  - intros l o1 Ho1. destruct (H12 l o1 Ho1) as (o2 & Ho2 & Ht2 & Hk2).
    destruct (H23 l o2 Ho2) as (o3 & Ho3 & Ht3 & Hk3).
    exists o3. repeat split; congruence.
  - intros l Hl. by apply N23, N12.
Qed.

Lemma inherit_schemas_kept h a b h' :
  inherit h a b = Some h' → schemas_kept h h'.
Proof.
  intros Hinh. unfold inherit in Hinh.
  destruct (h !! a) as [oa|] eqn:Ha; [|done].
  destruct (h !! b) as [ob|] eqn:Hb; [|done].
  destruct (inherit_spec h a b oa ob Ha Hb) as (d1 & Hi1 & Hk1 & _).
  unfold inherit in Hi1. rewrite Ha, Hb in Hi1. simpl in *.
  rewrite Hi1 in Hinh. injection Hinh as <-. split.
  - intros l o Ho. destruct (decide (l = a)) as [->|Hne].
    + assert (o = oa) as -> by congruence.
      eexists. by rewrite lookup_insert_eq.
    + exists o. by rewrite lookup_insert_ne.
  - intros l Hl. rewrite lookup_insert_ne; [done|]. intros <-. congruence.
Qed.

Lemma propagate_items_schemas_kept rec self ks h h' :
  (∀ h1 c h2, rec h1 c = Some h2 → schemas_kept h1 h2) →
  propagate_items rec self ks h = Some h' → schemas_kept h h'.
Proof.
  intros Hrec. revert h.
  induction ks as [|k ks IH]; intros h; simpl.
  - intros [= <-]. apply schemas_kept_refl.
  - destruct (getattr h self k) as [v|]; [|done]. simpl.
    destruct v; try apply IH.
    destruct (inherit h l self) as [h1|] eqn:Hinh; [|done]. simpl.
    destruct (rec h1 l) as [h2|] eqn:Hr; [|done]. simpl. intros Hrest.
    eapply schemas_kept_trans; [by eapply inherit_schemas_kept|].
    eapply schemas_kept_trans; [by eapply Hrec|by apply IH].
Qed.

(** X6. Whenever [propagate] returns, the heap holds the same objects as
    before and each has the field names it had: values are overwritten,
    fields are neither added nor removed. *)
Theorem propagate_keeps_schemas (fuel : nat) (h h' : heap) (self : loc) :
  propagate fuel h self = Some h' →
  (∀ l o, h !! l = Some o →
     ∃ o', h' !! l = Some o'
           ∧ type_attrs o' = type_attrs o
           ∧ keys (inst_dict o') = keys (inst_dict o))
  ∧ dom h' = dom h.
Proof.
  intros Hp.
  assert (schemas_kept h h') as [Hkept Hnone].
  { revert h h' self Hp. induction fuel as [|n IH]; intros h h' self; [done|].
    rewrite propagate_S. destruct (h !! self) as [o|]; [|done]. simpl.
    apply propagate_items_schemas_kept. intros h1 c h2. apply IH. }
  split; [done|]. apply set_eq. intros l. rewrite !elem_of_dom. split.
  - intros [o' Ho']. destruct (h !! l) as [o|] eqn:Ho; [by eexists|].
    apply Hnone in Ho. congruence.
  - intros [o Ho]. destruct (Hkept l o Ho) as (o' & Ho' & _). by eexists.
Qed.

Lemma propagate_keeps_schemas_witness :
  (∀ l o, chain_heap !! l = Some o →
     ∃ o', <[3 := Obj base_attrs [("depth", VInt 4); ("lr", VFloat "0.1")]]>
             (<[2 := Obj base_attrs
                       [("lr", VFloat "0.1"); ("inner", VConf 3);
                        ("shape", VTuple [VInt 1; VInt 2])]]> chain_heap)
           !! l = Some o'
           ∧ type_attrs o' = type_attrs o
           ∧ keys (inst_dict o') = keys (inst_dict o))
  ∧ dom (<[3 := Obj base_attrs [("depth", VInt 4); ("lr", VFloat "0.1")]]>
           (<[2 := Obj base_attrs
                     [("lr", VFloat "0.1"); ("inner", VConf 3);
                      ("shape", VTuple [VInt 1; VInt 2])]]> chain_heap))
    = dom chain_heap.
Proof.
  apply (propagate_keeps_schemas 3 chain_heap _ 1). vm_compute. reflexivity.
Defined.

(** ** Cycles *)

Lemma as_dict_jsonable_child n h l d c :
  as_dict_jsonable n h l = Ok d → holds_node h l c →
  ∃ m d', n = S m ∧ as_dict_jsonable m h c = Ok d'.
Proof.
  intros Hsome (o & k & Ho & Hin). destruct n as [|m]; [done|].
  rewrite as_dict_jsonable_S, Ho in Hsome.
  apply as_dict_items_Ok in Hsome. rewrite Forall_forall in Hsome.
  destruct (Hsome _ Hin) as [Hc _]. destruct (Hc c eq_refl) as [d' Hd'].
  by exists m, d'.
Qed.

Lemma as_dict_jsonable_descendant h l c :
  tc (holds_node h) l c →
  ∀ n d, as_dict_jsonable n h l = Ok d →
         ∃ m d', (m < n)%nat ∧ as_dict_jsonable m h c = Ok d'.
Proof.
  induction 1 as [l c Hstep|l c c' Hstep _ IH]; intros n d Hd.
  - destruct (as_dict_jsonable_child n h l d c Hd Hstep) as (m & d' & -> & Hm).
    exists m, d'. split; [lia|done].
  - destruct (as_dict_jsonable_child n h l d c Hd Hstep) as (m & d' & -> & Hm).
    destruct (IH m d' Hm) as (m' & d'' & Hlt & Hm').
    exists m', d''. split; [lia|done].
Qed.

(** X7. A node that holds itself, directly or through nested nodes, is
    never serialized: [as_dict_jsonable] raises whatever the recursion
    limit, and so [save] never succeeds on it. *)
Theorem as_dict_jsonable_cycle (h : heap) (l : loc) :
  tc (holds_node h) l l →
  (∀ fuel, ∃ e, as_dict_jsonable fuel h l = Raise e)
  ∧ (∀ fuel fs path, ∃ e, save fuel fs h l path = Raise e).
Proof.
  intros Hcycle.
  assert (Hnone : ∀ fuel, ∃ e, as_dict_jsonable fuel h l = Raise e).
  { intros fuel. induction (lt_wf fuel) as [fuel _ IH].
    destruct (as_dict_jsonable fuel h l) as [d|e] eqn:Hd; [|by exists e].
    destruct (as_dict_jsonable_descendant h l l Hcycle fuel d Hd)
      as (m & d' & Hlt & Hd').
    destruct (IH m Hlt) as [e He]. congruence. }
  split; [done|]. intros fuel fs path. unfold save.
  destruct (if negb (path_exists fs (dirname path)) then _ else _)
    as [[[]|e] fs1]; [|by exists e].
  destruct (Hnone fuel) as [e ->]. by exists e.
Qed.

Lemma as_dict_jsonable_cycle_witness :
  (∀ fuel, ∃ e, as_dict_jsonable fuel shared_heap 1 = Raise e)
  ∧ (∀ fuel fs path, ∃ e, save fuel fs shared_heap 1 path = Raise e).
Proof.
  apply as_dict_jsonable_cycle.
  eapply tc_l; [|apply tc_once].
  - exists (Obj base_attrs
              [("enc", VConf 2); ("stages", VList [VConf 2; VInt 3]);
               ("lr", VFloat "0.1")]), "enc".
    split; [reflexivity|]. by left.
  - exists (Obj base_attrs [("owner", VConf 1); ("ch", VInt 64)]), "owner".
    split; [reflexivity|]. by left.
Defined.

Lemma dict_get_app_plain k pre post :
  has_key k pre = false → dict_get k (pre ++ post) = dict_get k post.
Proof.
  unfold has_key. induction pre as [|[k' v'] pre IH]; simpl; [done|].
  destruct (String.eqb k k'); [done|]. exact IH.
Qed.

Lemma dict_get_app_l k pre post :
  has_key k pre = true → dict_get k (pre ++ post) = dict_get k pre.
Proof.
  unfold has_key. induction pre as [|[k' v'] pre IH]; simpl; [done|].
  destruct (String.eqb k k'); [done|]. exact IH.
Qed.

(** X8. A node whose first nested node is itself makes [propagate] recurse
    without end: there is no result, whatever the recursion budget. *)
Theorem propagate_self_link (h : heap) (l : loc) (o : obj) (k : string)
    (pre post : list (string * value)) :
  h !! l = Some o →
  inst_dict o = (pre ++ (k, VConf l) :: post)%list →
  plain_fields pre = true →
  has_key k pre = false →
  ∀ fuel, propagate fuel h l = None.
Proof.
  intros Ho Hdict Hplain Hk fuel.
  induction fuel as [|n IH]; [done|].
  rewrite propagate_S, Ho. simpl. rewrite Hdict.
  unfold keys. rewrite map_app. simpl.
  assert (Hpre : ∀ ks rest,
            (∀ k', k' ∈ ks → has_key k' pre = true) →
            propagate_items (propagate n) l (ks ++ rest) h
            = propagate_items (propagate n) l rest h).
  { induction ks as [|k' ks IHks]; intros rest Hks; [done|]. simpl.
    unfold getattr. rewrite Ho. simpl. rewrite Hdict.
    rewrite dict_get_app_l by (apply Hks; by left).
    destruct (dict_get k' pre) as [v|] eqn:Hv.
    - simpl. pose proof (plain_fields_get pre k' v Hplain Hv) as Hc.
      rewrite IHks by (intros ? ?; apply Hks; by right).
      by destruct v.
    - assert (has_key k' pre = true) as Hin by (apply Hks; by left).
      unfold has_key in Hin. by rewrite Hv in Hin. }
  rewrite Hpre by (intros k' Hk'; by apply has_key_elem).
  simpl. unfold getattr. rewrite Ho. simpl. rewrite Hdict.
  rewrite dict_get_app_plain by done. simpl. rewrite String.eqb_refl. simpl.
  destruct (inherit_spec h l l o o Ho Ho) as (d' & Hinh & _ & _ & Hself).
  rewrite Hinh, (Hself eq_refl). simpl.
  assert (<[l := Obj (type_attrs o) (inst_dict o)]> h = h) as ->
    by (destruct o; by apply insert_id).
  by rewrite IH.
Qed.

Lemma propagate_self_link_witness :
  propagate 1000 alias_heap_inherited 2 = None.
Proof.
  apply (propagate_self_link alias_heap_inherited 2
           (Obj base_attrs [("lr", VFloat "0.1"); ("sub", VConf 2)])
           "sub" [("lr", VFloat "0.1")] []); reflexivity.
Defined.

(** ** What as_dict_jsonable returns *)

Lemma dumps_VDict d kvs :
  (∃ j, dumps (S d) (VDict kvs) = Ok j)
  ↔ Forall (fun kv => ∃ j, dumps d kv.2 = Ok j) kvs.
Proof.
  simpl. split.
  - intros [j Hj].
    destruct (mapR _ kvs) as [js|] eqn:Hm; [|done].
    apply mapR_Ok in Hm. clear Hj.
    induction Hm as [|[k v] [k' j'] kvs js Hx _ IH]; constructor; [|done].
    simpl in *. destruct (dumps d v) as [j0|]; [by eexists|done].
  - intros Hall.
    assert (∃ js, mapR (fun kv : string * value =>
                          match dumps d kv.2 with
                          | Ok j => Ok (kv.1, j)
                          | Raise e => Raise e
                          end) kvs = Ok js) as [js ->]; [|by eexists].
    induction Hall as [|[k v] kvs [j Hj] _ [js IH]]; [by eexists|].
    simpl in Hj. cbn [mapR snd fst]. rewrite Hj.
    cbn [mapR] in IH. rewrite IH. by eexists.
Qed.

Lemma dict_set_dumps n k v d :
  (∃ j, dumps n v = Ok j) → Forall (fun kv => ∃ j, dumps n kv.2 = Ok j) d →
  Forall (fun kv => ∃ j, dumps n kv.2 = Ok j) (dict_set k v d).
Proof.
  intros Hv. induction 1 as [|[k' v'] d Hv' Hd IH]; simpl.
  - by repeat constructor.
  - destruct (String.eqb k k'); by constructor.
Qed.

Lemma keys_dict_set_new k v d :
  has_key k d = false → keys (dict_set k v d) = (keys d ++ [k])%list.
Proof.
  intros Hk. apply has_key_false in Hk. rewrite dict_set_fresh by done.
  unfold keys. by rewrite map_app.
Qed.

Lemma dict_set_NoDup k v d : NoDup (keys d) → NoDup (keys (dict_set k v d)).
Proof.
  intros Hnd. destruct (has_key k d) eqn:Hk.
  - by rewrite keys_dict_set.
  - rewrite keys_dict_set_new by done. apply NoDup_app.
    split; [done|]. split; [|apply NoDup_singleton].
    intros x Hx ->%list_elem_of_singleton. by apply has_key_false in Hk.
Qed.

Lemma as_dict_items_result rec depth items conf0 conf :
  (∀ c d, rec c = Ok d → ∃ j, dumps depth (VDict d) = Ok j) →
  as_dict_items rec depth items conf0 = Ok conf →
  Forall (fun kv => ∃ j, dumps depth kv.2 = Ok j) conf0 →
  NoDup (keys conf0) →
  Forall (fun kv => ∃ j, dumps depth kv.2 = Ok j) conf
  ∧ NoDup (keys conf)
  ∧ ∀ k, has_key k conf = true →
         has_key k conf0 = true ∨ has_key k items = true.
Proof.
  intros Hrec. revert conf0.
  induction items as [|[k0 v0] items IH]; intros conf0.
  - intros [= <-] Hall Hnd. repeat split; try done. by left.
  - assert (Hstep : ∀ w, (∃ j, dumps depth w = Ok j) →
              as_dict_items rec depth items (dict_set k0 w conf0) = Ok conf →
              Forall (fun kv => ∃ j, dumps depth kv.2 = Ok j) conf0 →
              NoDup (keys conf0) →
              Forall (fun kv => ∃ j, dumps depth kv.2 = Ok j) conf
              ∧ NoDup (keys conf)
              ∧ ∀ k, has_key k conf = true →
                     has_key k conf0 = true
                     ∨ has_key k ((k0, v0) :: items) = true).
    { intros w Hw Hrun Hall Hnd.
      destruct (IH _ Hrun) as (Hall' & Hnd' & Hkeys);
        [by apply dict_set_dumps|by apply dict_set_NoDup|].
      do 2 (split; [done|]). intros k Hk.
      destruct (Hkeys k Hk) as [Hin|Hin].
      - rewrite has_key_dict_set in Hin.
        apply orb_true_iff in Hin as [?|Heq]; [by left|right].
        apply String.eqb_eq in Heq as ->. unfold has_key. simpl.
        by rewrite String.eqb_refl.
      - right. unfold has_key in *. simpl.
        by destruct (String.eqb k k0). }
    assert (Hskip :
              as_dict_items rec depth items conf0 = Ok conf →
              Forall (fun kv => ∃ j, dumps depth kv.2 = Ok j) conf0 →
              NoDup (keys conf0) →
              Forall (fun kv => ∃ j, dumps depth kv.2 = Ok j) conf
              ∧ NoDup (keys conf)
              ∧ ∀ k, has_key k conf = true →
                     has_key k conf0 = true
                     ∨ has_key k ((k0, v0) :: items) = true).
    { intros Hrun Hall Hnd.
      destruct (IH _ Hrun Hall Hnd) as (Hall' & Hnd' & Hkeys).
      do 2 (split; [done|]). intros k Hk.
      destruct (Hkeys k Hk) as [Hin|Hin]; [by left|right].
      unfold has_key in *. simpl. by destruct (String.eqb k k0). }
    destruct (is_conf v0) eqn:Hv.
    + destruct v0 as [| | | | | | | | |c|]; try done.
      rewrite as_dict_items_conf. destruct (rec c) as [d|] eqn:Hd; [|done].
      apply Hstep. by eapply Hrec.
    + rewrite as_dict_items_plain by done.
      destruct (jsonable depth v0) as [[]|] eqn:Hj; [|by apply Hskip|done].
      apply Hstep. by apply jsonable_true.
Qed.

(** X9. Whatever [as_dict_jsonable] returns can be written by
    [json.dump]: every value in it, at every depth, is accepted by
    [json.dumps]. Its keys are field names of the node, each once. *)
Theorem as_dict_jsonable_serializable (fuel : nat) (h : heap) (self : loc)
    (conf : list (string * value)) :
  as_dict_jsonable fuel h self = Ok conf →
  (∃ j, dumps fuel (VDict conf) = Ok j)
  ∧ NoDup (keys conf)
  ∧ ∃ o, h !! self = Some o
         ∧ ∀ k, has_key k conf = true → has_key k (inst_dict o) = true.
Proof.
  intros Hconf.
  assert (Hall : ∀ n l d, as_dict_jsonable n h l = Ok d →
                          ∃ j, dumps n (VDict d) = Ok j).
  { induction n as [|n IH]; intros l d; [done|].
    rewrite as_dict_jsonable_S. destruct (h !! l) as [o|]; [|done].
    intros Hrun. apply dumps_VDict.
    by destruct (as_dict_items_result _ _ _ _ _ (IH) Hrun)
      as (? & _); [constructor|apply NoDup_nil_2|]. }
  split; [by eapply Hall|].
  destruct fuel as [|n]; [done|]. rewrite as_dict_jsonable_S in Hconf.
  destruct (h !! self) as [o|]; [|done].
  destruct (as_dict_items_result _ _ _ _ _ (Hall n) Hconf)
    as (_ & Hnd & Hkeys); [constructor|apply NoDup_nil_2|].
  split; [done|]. exists o. split; [done|]. intros k Hk.
  by destruct (Hkeys k Hk).
Qed.

Lemma as_dict_jsonable_serializable_witness :
  (∃ j, dumps 2 (VDict [("net", VDict [("a", VInt 1)]);
                        ("dims", VList [VInt 64; VInt 128])]) = Ok j)
  ∧ NoDup (keys [("net", VDict [("a", VInt 1)]);
                 ("dims", VList [VInt 64; VInt 128])])
  ∧ ∃ o, opaque_heap !! 2 = Some o
         ∧ ∀ k, has_key k [("net", VDict [("a", VInt 1)]);
                           ("dims", VList [VInt 64; VInt 128])] = true →
                has_key k (inst_dict o) = true.
Proof.
  apply (as_dict_jsonable_serializable 2 opaque_heap 2). vm_compute.
  reflexivity.
Defined.

(** ** More on from_dict and load *)

Lemma from_dict_items_app rec self strict items1 items2 w :
  from_dict_items rec self strict (items1 ++ items2) w =
  match from_dict_items rec self strict items1 w with
  | (Ok _, w1) => from_dict_items rec self strict items2 w1
  | (Raise e, w1) => (Raise e, w1)
  end.
Proof.
  revert w. induction items1 as [|[k v] items1 IH]; intros w; simpl; [done|].
  destruct (objects w !! self) as [o|]; [|done].
  destruct (hasattr o k); simpl.
  - destruct (dict_get k (inst_dict o)) as [w0|]; [|done].
    destruct w0; try apply IH.
    destruct (rec v l w) as [[[]|e] w']; [apply IH|done].
  - destruct strict; [done|apply IH].
Qed.

(** X10. Applying a mapping equals applying its first entries and then
    the rest. When an entry raises, the entries before it have been
    applied and stay applied: nothing is rolled back, and the entries
    after it are not looked at. *)
Theorem from_dict_in_two_parts (d1 d2 : list (string * value)) (self : loc)
    (strict : bool) (w : world) :
  from_dict (VDict (d1 ++ d2)) self strict w =
  match from_dict (VDict d1) self strict w with
  | (Ok _, w1) => from_dict (VDict d2) self strict w1
  | (Raise e, w1) => (Raise e, w1)
  end.
Proof.
  rewrite !from_dict_VDict, from_dict_items_app.
  by destruct (from_dict_items _ self strict d1 w) as [[[]|e] w1].
Qed.

(** X11. A name that resolves through the class but is no field of the
    instance (a method such as [clone], a class-level constant) passes the
    [hasattr] test and then fails in [self.__dict__[k]]: [from_dict] raises
    [KeyError] in strict and in lenient mode alike, changing nothing. *)
Theorem from_dict_class_level_name (w : world) (self : loc) (o : obj)
    (k : string) (v : value) (strict : bool) :
  objects w !! self = Some o →
  k ∈ type_attrs o →
  has_key k (inst_dict o) = false →
  from_dict (VDict [(k, v)]) self strict w = (Raise (KeyError k), w).
Proof.
  intros Ho Hk Hnot. rewrite from_dict_VDict. simpl. rewrite Ho.
  unfold hasattr. rewrite Hnot, bool_decide_eq_true_2 by done. simpl.
  unfold has_key in Hnot. by destruct (dict_get k (inst_dict o)).
Qed.

Lemma from_dict_class_level_name_witness :
  from_dict (VDict [("clone", VInt 1)]) 1 false (World model_heap [])
  = (Raise (KeyError "clone"), World model_heap []).
Proof.
  apply (from_dict_class_level_name (World model_heap []) 1
           (Obj ("version" :: base_attrs)
              [("lr", VFloat "0.1"); ("enc", VConf 2); ("name", VStr "unet")])
           "clone" (VInt 1) false); [reflexivity|by compute_done|reflexivity].
Defined.

(** X12. An entry for a field that holds no nested node is assigned as it
    comes, without any check of the value: afterwards the field holds the
    given value (a nested node included, were one given), every other
    field and every other object is as before, and nothing is printed. *)
Theorem from_dict_assigns_plain_field (w : world) (self : loc) (o : obj)
    (k : string) (old v : value) (strict : bool) :
  objects w !! self = Some o →
  dict_get k (inst_dict o) = Some old →
  is_conf old = false →
  ∃ h', from_dict (VDict [(k, v)]) self strict w
        = (Ok tt, World h' (stdout w))
        ∧ getattr h' self k = Some v
        ∧ (∀ k', k' ≠ k → getattr h' self k' = getattr (objects w) self k')
        ∧ (∀ l, l ≠ self → h' !! l = objects w !! l).
Proof.
  intros Ho Hk Hold.
  exists (<[self := Obj (type_attrs o) (dict_set k v (inst_dict o))]>
            (objects w)).
  split; [|split; [|split]].
  - rewrite from_dict_VDict.
    by rewrite (from_dict_items_plain _ _ _ _ _ _ _ _ old Ho Hk Hold).
  - unfold getattr. rewrite lookup_insert_eq. simpl. apply dict_get_set_eq.
  - intros k' Hne. unfold getattr. rewrite lookup_insert_eq, Ho. simpl.
    by apply dict_get_set_ne.
  - intros l Hne. by rewrite lookup_insert_ne.
Qed.

Lemma from_dict_assigns_plain_field_witness :
  ∃ h', from_dict (VDict [("lr", VStr "fast")]) 1 true (World model_heap [])
        = (Ok tt, World h' [])
        ∧ getattr h' 1 "lr" = Some (VStr "fast")
        ∧ (∀ k', k' ≠ "lr" → getattr h' 1 k' = getattr model_heap 1 k')
        ∧ (∀ l, l ≠ 1 → h' !! l = model_heap !! l).
Proof.
  apply (from_dict_assigns_plain_field (World model_heap []) 1
           (Obj ("version" :: base_attrs)
              [("lr", VFloat "0.1"); ("enc", VConf 2); ("name", VStr "unet")])
           "lr" (VFloat "0.1") (VStr "fast") true); reflexivity.
Defined.



Lemma only_diagnostics_refl w : only_diagnostics w w.
Proof. exists []. by rewrite app_nil_r. Qed.

Lemma only_diagnostics_trans w1 w2 w3 :
  only_diagnostics w1 w2 → only_diagnostics w2 w3 → only_diagnostics w1 w3.
Proof.
  intros (o1 & H1 & F1) (o2 & H2 & F2). exists (o1 ++ o2)%list.
  split; [by rewrite H2, H1, app_assoc|by apply Forall_app].
Qed.

Lemma from_dict_items_diagnostics rec self strict items w :
  Forall (fun kv => ∀ c w0, only_diagnostics w0 (rec kv.2 c w0).2) items →
  only_diagnostics w (from_dict_items rec self strict items w).2.
Proof.
  intros Hrec. revert w.
  induction Hrec as [|[k v] items Hv _ IH]; intros w; simpl.
  - apply only_diagnostics_refl.
  - destruct (objects w !! self) as [o|]; [|apply only_diagnostics_refl].
    destruct (hasattr o k); simpl.
    + destruct (dict_get k (inst_dict o)) as [w0|];
        [|apply only_diagnostics_refl].
      assert (Hassign : ∀ h1,
                only_diagnostics w
                  (from_dict_items rec self strict items
                     (World h1 (stdout w))).2).
      { intros h1. eapply only_diagnostics_trans; [|apply IH].
        exists []. simpl. by rewrite app_nil_r. }
      destruct w0; try apply Hassign.
      specialize (Hv l w). simpl in Hv.
      destruct (rec v l w) as [[[]|e] w']; simpl in *; [|done].
      eapply only_diagnostics_trans; [exact Hv|apply IH].
    + destruct strict; [apply only_diagnostics_refl|].
      eapply only_diagnostics_trans; [|apply IH].
      exists [extra_msg k]. simpl. split; [done|].
      constructor; [by eexists|done].
Qed.

(** X14. [from_dict] and [load] never erase or alter what was printed
    before: they only append lines, and every line they append is a
    "loading extra" diagnostic for some key. *)
Theorem from_dict_only_appends_diagnostics (data : value) (self : loc)
    (strict : bool) (w : world) (fs : fsys) (path : string) :
  (∃ out, stdout (from_dict data self strict w).2 = (stdout w ++ out)%list
          ∧ Forall (fun line => ∃ k, line = extra_msg k) out)
  ∧ (∃ out, stdout (load fs path self w).2 = (stdout w ++ out)%list
            ∧ Forall (fun line => ∃ k, line = extra_msg k) out).
Proof.
  assert (Hfd : ∀ data self strict w,
            only_diagnostics w (from_dict data self strict w).2).
  { clear. intros data.
    induction data as [| | | | | | |kvs IH| | |] using value_ind_nested;
      intros self strict w; try apply only_diagnostics_refl.
    rewrite from_dict_VDict. apply from_dict_items_diagnostics.
    eapply Forall_impl; [exact IH|]. intros kv Hkv c w0. apply Hkv. }
  split; [apply Hfd|]. unfold load.
  destruct (read_file fs path) as [[j|]|]; try apply only_diagnostics_refl.
  destruct (loads j); [apply Hfd|apply only_diagnostics_refl].
Qed.



(** ** What save leaves on the file system *)

(** X16. When [save] succeeds, its path leads to a regular file that holds
    the JSON document of the node's serialization; the working directory
    is the same; every entry at another place is what it was, so that a
    path which led to one still does; and whatever else is new is a
    directory. *)
Theorem save_writes_one_file (fuel : nat) (fs fs' : fsys) (h : heap)
    (self : loc) (path : string) :
  save fuel fs h self path = Ok fs' →
  ∃ conf j f,
    as_dict_jsonable fuel h self = Ok conf
    ∧ dumps fuel (VDict conf) = Ok j
    ∧ lookup_path fs' path = Ok (Existing f (EFile true (Doc j)))
    ∧ read_file fs' path = Ok (Doc j)
    ∧ cwd fs' = cwd fs
    ∧ (∀ l e, l ≠ f → tree fs !! l = Some e → tree fs' !! l = Some e)
    ∧ (∀ q l e, l ≠ f → lookup_path fs q = Ok (Existing l e) →
                lookup_path fs' q = Ok (Existing l e)
                ∧ read_file fs' q = read_file fs q)
    ∧ (∀ l e, l ≠ f → tree fs' !! l = Some e →
              tree fs !! l = Some e ∨ e = EDir true).
Proof.
  intros Hsave.
  destruct (save_Ok _ _ _ _ _ _ Hsave)
    as (fs1 & conf & j & f & Hext & Hconf & Hj & Ht & Hc & Htree & Hnd & Hl).
  destruct (save_then_read _ _ _ _ _ _ Hsave) as (conf' & j' & Hconf' & Hj' & Hr).
  assert (conf' = conf) as -> by congruence.
  assert (j' = j) as -> by congruence.
  destruct Hext as (Hc1 & Hkeep & Hnew).
  exists conf, j, f. do 5 (split; [done|]).
  assert (Hstay : ∀ l e, l ≠ f → tree fs !! l = Some e →
                         tree fs' !! l = Some e).
  { intros l e Hne Hle. rewrite Htree, lookup_insert_ne by done.
    by apply Hkeep. }
  split; [exact Hstay|]. split.
  - intros q l e Hne Hq.
    assert (lookup_path fs' q = Ok (Existing l e)) as Hq'.
    { destruct fs' as [t' c']. simpl in Hc. subst c'.
      apply (lookup_path_stable fs t' q l e e); [|done|].
      - intros l0 w Hl0. destruct (decide (l0 = f)) as [->|Hne0].
        + destruct (Hnd w). by apply Hkeep.
        + exists w. by apply Hstay.
      - apply Hstay; [done|]. by eapply lookup_path_existing. }
    split; [done|]. unfold read_file. by rewrite Hq, Hq'.
  - intros l e Hne. rewrite Htree, lookup_insert_ne by done. apply Hnew.
Qed.

Lemma save_writes_one_file_witness :
  ∃ conf j f,
    as_dict_jsonable 2 list_heap 1 = Ok conf
    ∧ dumps 2 (VDict conf) = Ok j
    ∧ lookup_path (fs_with (Doc (JObj [("lr", JFloat "0.1");
                                       ("shape", JArr [JInt 1; JInt 2]);
                                       ("enc", JObj [("ch", JInt 128)])])))
                  "./out//c.json"
      = Ok (Existing f (EFile true (Doc j)))
    ∧ read_file (fs_with (Doc (JObj [("lr", JFloat "0.1");
                                     ("shape", JArr [JInt 1; JInt 2]);
                                     ("enc", JObj [("ch", JInt 128)])])))
                "./out//c.json"
      = Ok (Doc j)
    ∧ cwd (fs_with (Doc (JObj [("lr", JFloat "0.1");
                               ("shape", JArr [JInt 1; JInt 2]);
                               ("enc", JObj [("ch", JInt 128)])])))
      = cwd work_fs
    ∧ (∀ l e, l ≠ f → tree work_fs !! l = Some e →
              tree (fs_with (Doc (JObj [("lr", JFloat "0.1");
                                        ("shape", JArr [JInt 1; JInt 2]);
                                        ("enc", JObj [("ch", JInt 128)])])))
                !! l = Some e)
    ∧ (∀ q l e, l ≠ f → lookup_path work_fs q = Ok (Existing l e) →
                lookup_path
                  (fs_with (Doc (JObj [("lr", JFloat "0.1");
                                       ("shape", JArr [JInt 1; JInt 2]);
                                       ("enc", JObj [("ch", JInt 128)])])))
                  q = Ok (Existing l e)
                ∧ read_file
                    (fs_with (Doc (JObj [("lr", JFloat "0.1");
                                         ("shape", JArr [JInt 1; JInt 2]);
                                         ("enc", JObj [("ch", JInt 128)])])))
                    q = read_file work_fs q)
    ∧ (∀ l e, l ≠ f →
              tree (fs_with (Doc (JObj [("lr", JFloat "0.1");
                                        ("shape", JArr [JInt 1; JInt 2]);
                                        ("enc", JObj [("ch", JInt 128)])])))
                !! l = Some e →
              tree work_fs !! l = Some e ∨ e = EDir true).
Proof.
  apply (save_writes_one_file 2 work_fs _ list_heap 1 "./out//c.json").
  vm_compute. reflexivity.
Defined.

(** ** propagate into the direct children *)

Lemma leaf_children_spec h r dr k c :
  leaf_children h r dr = true → dict_get k dr = Some (VConf c) →
  c ≠ r
  ∧ ∃ oc, h !! c = Some oc
          ∧ plain_fields (inst_dict oc) = true
          ∧ ∀ x w, has_key x (inst_dict oc) = true →
                   dict_get x dr = Some w → is_conf w = false.
Proof.
  unfold leaf_children. rewrite forallb_forall. intros Hall Hk.
  apply dict_get_elem, list_elem_of_In, Hall in Hk. simpl in Hk.
  apply andb_true_iff in Hk as [Hne Hk]. split.
  { intros ->. by rewrite Nat.eqb_refl in Hne. }
  destruct (h !! c) as [oc|]; [|done]. exists oc. split; [done|].
  apply andb_true_iff in Hk as [Hplain Hkeys]. split; [done|].
  rewrite forallb_forall in Hkeys. intros x w Hx Hw.
  apply has_key_get in Hx as [v Hv].
  apply dict_get_elem, list_elem_of_In, Hkeys in Hv. simpl in Hv.
  rewrite Hw in Hv. by destruct w.
Qed.

Lemma propagate_items_conf rec self k ks h c h1 h2 :
  getattr h self k = Some (VConf c) → inherit h c self = Some h1 →
  rec h1 c = Some h2 →
  propagate_items rec self (k :: ks) h = propagate_items rec self ks h2.
Proof. intros Hk Hi Hr. simpl. rewrite Hk. simpl. rewrite Hi. simpl. by rewrite Hr. Qed.

Lemma propagate_items_skip rec self k ks h v :
  getattr h self k = Some v → is_conf v = false →
  propagate_items rec self (k :: ks) h = propagate_items rec self ks h.
Proof. intros Hk Hc. simpl. rewrite Hk. simpl. by destruct v. Qed.

Section propagate_star.
Variables (h : heap) (r : loc) (o_r : obj) (n : nat).
Hypothesis Hr : h !! r = Some o_r.
Hypothesis Hleaf : leaf_children h r (inst_dict o_r) = true.

Local Abbreviation star_inv := (star_inv h r o_r).

Lemma star_step hc k c :
  star_inv hc → dict_get k (inst_dict o_r) = Some (VConf c) →
  ∃ oc oc',
    h !! c = Some oc
    ∧ inherited_from (inst_dict o_r) oc oc'
    ∧ inherit hc c r = Some (<[c := oc']> hc)
    ∧ propagate (S n) (<[c := oc']> hc) c = Some (<[c := oc']> hc)
    ∧ star_inv (<[c := oc']> hc).
Proof.
  intros [Hroot Hobjs] Hk.
  destruct (leaf_children_spec _ _ _ _ _ Hleaf Hk)
    as (Hne & oc & Hc & Hplain & Hnolink).
  assert (∃ cur, hc !! c = Some cur
                 ∧ type_attrs cur = type_attrs oc
                 ∧ keys (inst_dict cur) = keys (inst_dict oc)
                 ∧ ∀ x, has_key x (inst_dict oc) && has_key x (inst_dict o_r)
                        = false →
                        dict_get x (inst_dict cur) = dict_get x (inst_dict oc))
    as (cur & Hcur & Htc & Hkc & Hgc).
  { destruct (Hobjs c oc Hc) as [Hsame|(_ & cur & Hcur & Ht & Hks & Hg)].
    - by exists oc.
    - exists cur. do 3 (split; [done|]). intros x Hx. by rewrite Hg, Hx. }
  destruct (inherit_spec hc c r cur o_r Hcur Hroot)
    as (d1 & Hinh & Hk1 & Hg1 & _).
  set (oc' := Obj (type_attrs cur) d1) in *.
  assert (inherited_from (inst_dict o_r) oc oc') as Hinherited.
  { split; [done|]. split; [simpl; congruence|]. intros x. simpl.
    rewrite Hg1, (has_key_keys x _ _ Hkc).
    destruct (has_key x (inst_dict oc) && has_key x (inst_dict o_r)) eqn:E;
      [done|by apply Hgc]. }
  exists oc, oc'. do 3 (split; [done|]). split.
  - rewrite propagate_S, lookup_insert_eq. simpl.
    eapply propagate_items_plain; [apply lookup_insert_eq|].
    intros x Hx. simpl in *. rewrite Hk1, Hkc in Hx.
    apply has_key_elem in Hx. destruct Hinherited as (_ & _ & Hg).
    simpl in Hg. rewrite Hg, Hx. simpl.
    destruct (has_key x (inst_dict o_r)) eqn:Hxr.
    + apply has_key_get in Hxr as [w Hw]. exists w. split; [done|].
      by eapply Hnolink.
    + apply has_key_get in Hx as [v Hv]. exists v. split; [done|].
      by eapply plain_fields_get.
  - split; [by rewrite lookup_insert_ne|]. intros l ol Hl.
    destruct (decide (l = c)) as [->|Hlc].
    + right. split; [by exists k|]. exists oc'.
      rewrite lookup_insert_eq. assert (ol = oc) as -> by congruence. done.
    + rewrite lookup_insert_ne by done. by apply Hobjs.
Qed.

Lemma star_loop ks :
  ∀ hc,
    star_inv hc →
    (∀ k, k ∈ ks → has_key k (inst_dict o_r) = true) →
    ∃ h', propagate_items (propagate (S n)) r ks hc = Some h'
          ∧ star_inv h'
          ∧ (∀ l ol ol', h !! l = Some ol → hc !! l = Some ol' →
               inherited_from (inst_dict o_r) ol ol' →
               ∃ ol'', h' !! l = Some ol''
                       ∧ inherited_from (inst_dict o_r) ol ol'')
          ∧ (∀ k c, k ∈ ks → dict_get k (inst_dict o_r) = Some (VConf c) →
               ∃ oc oc', h !! c = Some oc ∧ h' !! c = Some oc'
                         ∧ inherited_from (inst_dict o_r) oc oc').
Proof.
  induction ks as [|k ks IH]; intros hc Hinv Hks.
  - exists hc. split; [done|]. split; [done|]. split.
    + intros l ol ol' _ Hl Hi. by exists ol'.
    + by intros k c ?%elem_of_nil.
  - pose proof Hinv as [Hroot _].
    assert (is_Some (dict_get k (inst_dict o_r))) as [v Hv].
    { apply has_key_get, Hks. by left. }
    assert (Hattr : getattr hc r k = Some v).
    { unfold getattr. rewrite Hroot. simpl. by rewrite Hv. }
    assert (Hks' : ∀ k', k' ∈ ks → has_key k' (inst_dict o_r) = true)
      by (intros k' ?; apply Hks; by right).
    destruct (is_conf v) eqn:Hconf.
    + destruct v as [| | | | | | | | |c|]; try done.
      destruct (star_step hc k c Hinv Hv)
        as (oc & oc' & Hc & Hinherited & Hinh & Hprop & Hinv1).
      rewrite (propagate_items_conf _ _ _ _ _ _ _ _ Hattr Hinh Hprop).
      destruct (IH _ Hinv1 Hks') as (h' & Hrun & Hinv' & Hkeep & Hdone).
      exists h'. do 2 (split; [done|]). split.
      * intros l ol ol' Hl Hcur Hi. destruct (decide (l = c)) as [->|Hlc].
        { assert (ol = oc) as -> by congruence.
          eapply (Hkeep c oc oc'); [done|apply lookup_insert_eq|done]. }
        eapply (Hkeep l ol ol'); [done| |done].
        by rewrite lookup_insert_ne.
      * intros k' c' [->|Hin]%elem_of_cons Hk'; [|by eapply Hdone].
        assert (c' = c) as -> by congruence.
        destruct (Hkeep c oc oc' Hc) as (oc'' & Hc'' & Hi'');
          [apply lookup_insert_eq|done|].
        by exists oc, oc''.
    + rewrite (propagate_items_skip _ _ _ _ _ _ Hattr Hconf).
      destruct (IH hc Hinv Hks') as (h' & Hrun & Hinv' & Hkeep & Hdone).
      exists h'. do 3 (split; [done|]).
      intros k' c' [->|Hin]%elem_of_cons Hk'; [|by eapply Hdone].
      rewrite Hv in Hk'. injection Hk' as ->. done.
Qed.

Lemma propagate_star :
  ∃ h', propagate (S (S n)) h r = Some h'
        ∧ h' !! r = Some o_r
        ∧ (∀ k c, dict_get k (inst_dict o_r) = Some (VConf c) →
             ∃ oc oc', h !! c = Some oc ∧ h' !! c = Some oc'
                       ∧ keys (inst_dict oc') = keys (inst_dict oc)
                       ∧ ∀ x, dict_get x (inst_dict oc') =
                              if has_key x (inst_dict oc)
                                 && has_key x (inst_dict o_r)
                              then dict_get x (inst_dict o_r)
                              else dict_get x (inst_dict oc))
        ∧ (∀ l, (∀ k, dict_get k (inst_dict o_r) ≠ Some (VConf l)) →
                h' !! l = h !! l).
Proof.
  assert (star_inv h) as Hinv0.
  { split; [done|]. intros l ol Hl. by left. }
  destruct (star_loop (keys (inst_dict o_r)) h Hinv0)
    as (h' & Hrun & [Hroot Hobjs] & _ & Hdone).
  { intros k Hk. by apply has_key_elem. }
  exists h'. rewrite propagate_S, Hr. simpl.
  split; [done|]. split; [done|]. split.
  - intros k c Hk. destruct (Hdone k c) as (oc & oc' & Hc & Hc' & _ & Hks & Hg);
      [|done|].
    { apply has_key_elem, has_key_get. by eexists. }
    by exists oc, oc'.
  - intros l Hnot. destruct (h !! l) as [ol|] eqn:Hl.
    + destruct (Hobjs l ol Hl) as [?|[[k Hk] _]]; [done|].
      by destruct (Hnot k).
    + assert (schemas_kept h h') as [_ Hnone]; [|by apply Hnone].
      apply (propagate_items_schemas_kept (propagate (S n)) r
               (keys (inst_dict o_r))); [|done].
      intros h1 c h2 Hp. clear -Hp. revert h1 c h2 Hp.
      generalize (S n) as m. induction m as [|m IH]; intros h1 c h2; [done|].
      rewrite propagate_S. destruct (h1 !! c) as [o|]; [|done]. simpl.
      apply propagate_items_schemas_kept. intros ? ? ?. apply IH.
Qed.
End propagate_star.

(** X17. Where the nodes nested directly in a node are leaves distinct
    from it that declare no field under the name of one of its links,
    [propagate] returns and has made each of them inherit from it: each
    child then holds the node's value under every name both declare and
    its own value elsewhere; the node itself and everything that is not
    one of its children is as before. *)
Theorem propagate_to_leaf_children (h : heap) (r : loc) (o_r : obj)
    (n : nat) :
  h !! r = Some o_r →
  leaf_children h r (inst_dict o_r) = true →
  ∃ h', propagate (S (S n)) h r = Some h'
        ∧ h' !! r = Some o_r
        ∧ (∀ k c, dict_get k (inst_dict o_r) = Some (VConf c) →
             ∃ oc oc', h !! c = Some oc ∧ h' !! c = Some oc'
                       ∧ keys (inst_dict oc') = keys (inst_dict oc)
                       ∧ ∀ x, dict_get x (inst_dict oc') =
                              if has_key x (inst_dict oc)
                                 && has_key x (inst_dict o_r)
                              then dict_get x (inst_dict o_r)
                              else dict_get x (inst_dict oc))
        ∧ (∀ l, (∀ k, dict_get k (inst_dict o_r) ≠ Some (VConf l)) →
                h' !! l = h !! l).
Proof. intros Hr Hleaf. by apply propagate_star. Qed.

Lemma propagate_to_leaf_children_witness :
  ∃ h', propagate 2 star_heap 1 = Some h'
        ∧ h' !! 1 = Some (Obj base_attrs
                            [("lr", VFloat "0.1"); ("enc", VConf 2);
                             ("seed", VInt 7); ("dec", VConf 3);
                             ("ema", VConf 2)])
        ∧ (∀ k c, dict_get k [("lr", VFloat "0.1"); ("enc", VConf 2);
                              ("seed", VInt 7); ("dec", VConf 3);
                              ("ema", VConf 2)] = Some (VConf c) →
             ∃ oc oc', star_heap !! c = Some oc ∧ h' !! c = Some oc'
                       ∧ keys (inst_dict oc') = keys (inst_dict oc)
                       ∧ ∀ x, dict_get x (inst_dict oc') =
                              if has_key x (inst_dict oc)
                                 && has_key x [("lr", VFloat "0.1");
                                               ("enc", VConf 2);
                                               ("seed", VInt 7);
                                               ("dec", VConf 3);
                                               ("ema", VConf 2)]
                              then dict_get x [("lr", VFloat "0.1");
                                               ("enc", VConf 2);
                                               ("seed", VInt 7);
                                               ("dec", VConf 3);
                                               ("ema", VConf 2)]
                              else dict_get x (inst_dict oc))
        ∧ (∀ l, (∀ k, dict_get k [("lr", VFloat "0.1"); ("enc", VConf 2);
                                  ("seed", VInt 7); ("dec", VConf 3);
                                  ("ema", VConf 2)] ≠ Some (VConf l)) →
                h' !! l = star_heap !! l).
Proof.
  apply (propagate_to_leaf_children star_heap 1
           (Obj base_attrs
              [("lr", VFloat "0.1"); ("enc", VConf 2); ("seed", VInt 7);
               ("dec", VConf 3); ("ema", VConf 2)]) 0); reflexivity.
Defined.

(** ** Where the "extra field" error comes from *)

Lemma from_dict_items_value_error rec self strict items w w' msg :
  Forall (fun kv => ∀ c w0 w1 m, rec kv.2 c w0 ≠ (Raise (ValueError m), w1))
         items →
  from_dict_items rec self strict items w = (Raise (ValueError msg), w') →
  strict = true
  ∧ ∃ k o, k ∈ keys items ∧ msg = extra_msg k
           ∧ objects w' !! self = Some o ∧ hasattr o k = false.
Proof.
  intros Hrec. revert w.
  induction Hrec as [|[k v] items Hv _ IH]; intros w; simpl; [done|].
  assert (Hrest : ∀ w1,
            from_dict_items rec self strict items w1
            = (Raise (ValueError msg), w') →
            strict = true
            ∧ ∃ k0 o, k0 ∈ k :: keys items ∧ msg = extra_msg k0
                      ∧ objects w' !! self = Some o ∧ hasattr o k0 = false).
  { intros w1 Hw1. destruct (IH w1 Hw1) as (Hs & k0 & o & Hin & ?).
    split; [done|]. exists k0, o. split; [by right|done]. }
  destruct (objects w !! self) as [o|] eqn:Ho; [|done].
  destruct (hasattr o k) eqn:Hattr; simpl.
  - destruct (dict_get k (inst_dict o)) as [old|]; [|done].
    destruct old; try apply Hrest.
    destruct (rec v l w) as [[[]|e] w1] eqn:Hr; [apply Hrest|].
    intros [= -> ->]. by destruct (Hv l w w' msg).
  - destruct strict; [|apply Hrest].
    intros [= <- <-]. split; [done|]. exists k, o.
    split; [by left|done].
Qed.

Lemma from_dict_lenient_no_value_error data :
  ∀ self w w' msg,
    from_dict data self false w ≠ (Raise (ValueError msg), w').
Proof.
  induction data as [| | | | | | |kvs IH| | |] using value_ind_nested;
    intros self w w' msg; try done.
  rewrite from_dict_VDict. intros Hraise.
  apply from_dict_items_value_error in Hraise as [? _]; [done|].
  eapply Forall_impl; [exact IH|]. intros kv Hkv c w0 w1 m. apply Hkv.
Qed.

(** X18. The "extra field" error has one origin: [from_dict] raises
    [ValueError] only in strict mode, and then for a key of the mapping
    itself (not of a nested one) that [hasattr] does not find on the node.
    In lenient mode, and for every nested mapping, it is never raised. *)
Theorem from_dict_extra_field_error (data : value) (self : loc)
    (strict : bool) (w w' : world) (msg : string) :
  from_dict data self strict w = (Raise (ValueError msg), w') →
  strict = true
  ∧ ∃ d k o, data = VDict d ∧ k ∈ keys d ∧ msg = extra_msg k
             ∧ objects w' !! self = Some o ∧ hasattr o k = false.
Proof.
  intros Hraise. destruct data as [| | | | | | |d| | |]; try done.
  rewrite from_dict_VDict in Hraise.
  apply from_dict_items_value_error in Hraise
    as (Hs & k & o & Hk & Hmsg & Ho & Hattr).
  - split; [done|]. by exists d, k, o.
  - apply Forall_forall. intros kv _ c w0 w1 m.
    apply from_dict_lenient_no_value_error.
Qed.

Lemma from_dict_extra_field_error_witness :
  true = true
  ∧ ∃ d k o, VDict [("lr", VFloat "0.3"); ("z", VInt 5)] = VDict d
             ∧ k ∈ keys d ∧ "loading extra 'z'" = extra_msg k
             ∧ objects (World (<[1 := Obj base_attrs
                                       [("lr", VFloat "0.3");
                                        ("name", VStr "net");
                                        ("seed", VInt 7)]]> pair_heap) [])
                 !! 1 = Some o
             ∧ hasattr o k = false.
Proof.
  apply (from_dict_extra_field_error
           (VDict [("lr", VFloat "0.3"); ("z", VInt 5)]) 1 true
           (World pair_heap [])).
  reflexivity.
Defined.
